(** * Settlement engine of [settle_balances.py]

    A shallow embedding of the settlement search: the two graph builders and
    extractors ([find_settlement_or], [find_settlement_nx]), the cost generator
    ([edge_weight]) and the best-of-N aggregation over a process pool
    ([find_best_settlement]); and of the program around it: the reading of
    the ledger ([read_cashouts]), the report ([print_amount], [href],
    [print_settlement]) and [main].

    The third-party pieces are parameters of the development:
    - the generator behind [random.randint] (a state type and a step function),
    - the OR-tools solver [SimpleMinCostFlow.Solve],
    - the networkx solver [max_flow_min_cost],
    - the scheduling of the [multiprocessing.Pool] (who runs which task, and in
      which order the results come back),
    - the built-ins [int] and [str.lower], and the rows [csv.reader] yields
      for a file.
    Each comes with the contract its documentation states; a brute-force
    solver and a tape generator, defined below, meet these contracts and serve
    as concrete instances. *)

From Stdlib Require Import Ascii String DecimalString DecimalZ DecimalPos.
From Stdlib Require Import List ZArith Lia Bool Arith PeanoNat Permutation.
From Stdlib Require Import Sorted.
Import ListNotations.
Open Scope Z_scope.

Set Implicit Arguments.

(** ** Outcomes of a Python call *)

(** Status codes of [SimpleMinCostFlow.Solve]. *)
Inductive Status : Type :=
| NOT_SOLVED | OPTIMAL | FEASIBLE | INFEASIBLE | UNBALANCED | BAD_RESULT
| BAD_COST_RANGE.

Definition Status_eqb (a b : Status) : bool :=
  match a, b with
  | NOT_SOLVED, NOT_SOLVED | OPTIMAL, OPTIMAL | FEASIBLE, FEASIBLE
  | INFEASIBLE, INFEASIBLE | UNBALANCED, UNBALANCED
  | BAD_RESULT, BAD_RESULT | BAD_COST_RANGE, BAD_COST_RANGE => true
  | _, _ => false
  end.

(** The exceptions the modelled code can raise. *)
Inductive exn : Type :=
| AssertionError (status : Status)   (* [assert status == OPTIMAL, status] *)
| NetworkXError                      (* source or sink not in the graph *)
| ValueError.                        (* [imap_unordered] with chunksize < 1 *)

Inductive outcome (A : Type) : Type :=
| Returned (a : A)
| Raised (e : exn).

Arguments Returned {A} a.
Arguments Raised {A} e.

(** ** Settlements

    A settlement is the [defaultdict(list)] built by the extractors: creditor
    index to the list of (debtor index, amount).  Python dictionaries keep
    insertion order, so the model is an association list with unique keys. *)

Abbreviation payment := (nat * Z)%type (only parsing).
Abbreviation settlement := (list (nat * list (nat * Z))) (only parsing).

(** [settlements[key].append(p)] *)
Fixpoint append_payment (key : nat) (p : payment) (s : settlement) : settlement :=
  match s with
  | [] => [(key, [p])]
  | (k, al) :: rest =>
      if Nat.eqb k key then (k, al ++ [p]) :: rest
      else (k, al) :: append_payment key p rest
  end.

(** [settlement[key]] read without inserting (empty when the key is absent). *)
Fixpoint payments_to (key : nat) (s : settlement) : list payment :=
  match s with
  | [] => []
  | (k, al) :: rest => if Nat.eqb k key then al else payments_to key rest
  end.

Definition sum_amounts (al : list payment) : Z :=
  fold_right (fun p acc => snd p + acc) 0 al.

(** What a creditor receives under a settlement. *)
Definition received (s : settlement) (creditor : nat) : Z :=
  sum_amounts (payments_to creditor s).

(** What a debtor pays, across all creditors. *)
Definition paid (s : settlement) (debtor : nat) : Z :=
  fold_right
    (fun kv acc =>
       sum_amounts (filter (fun p => Nat.eqb (fst p) debtor) (snd kv)) + acc)
    0 s.

(** [sum(len(al) for _, al in settlement.items())] *)
Definition cost_of (s : settlement) : nat :=
  fold_right (fun kv acc => (length (snd kv) + acc)%nat) 0%nat s.

(** [enumerate(cashouts)] *)
Definition enumerate_from (start : nat) (cashouts : list Z) : list (nat * Z) :=
  combine (seq start (length cashouts)) cashouts.

Definition enumerate (cashouts : list Z) : list (nat * Z) :=
  enumerate_from 0 cashouts.

(** [cashouts[i]], for an index in range. *)
Definition cashout_at (cashouts : list Z) (i : nat) : Z := nth i cashouts 0.

Definition sum_cashouts (cashouts : list Z) : Z := fold_right Z.add 0 cashouts.

(** A closed ledger. *)
Definition balanced (cashouts : list Z) : Prop := sum_cashouts cashouts = 0.

(** A settlement zeroes the ledger: every creditor receives its balance and
    nothing is paid by it; every debtor pays the magnitude of its balance and
    receives nothing; a participant with balance zero takes no part. *)
Definition settles (cashouts : list Z) (s : settlement) : Prop :=
  forall p : nat,
    received s p = Z.max 0 (cashout_at cashouts p) /\
    paid s p = Z.max 0 (- cashout_at cashouts p).

(** Every recorded amount is strictly positive. *)
Definition amounts_positive (s : settlement) : Prop :=
  forall key al debtor amount,
    In (key, al) s -> In (debtor, amount) al -> 0 < amount.

(** Every recorded payment goes from a debtor to a creditor. *)
Definition debtor_to_creditor (cashouts : list Z) (s : settlement) : Prop :=
  forall key al debtor amount,
    In (key, al) s -> In (debtor, amount) al ->
    (key < length cashouts)%nat /\ (debtor < length cashouts)%nat /\
    0 < cashout_at cashouts key /\ cashout_at cashouts debtor < 0.

(** ** OR-tools graph *)

Record Arc : Type := mkArc {
  Tail : nat;
  Head : nat;
  Capacity : Z;
  UnitCost : Z
}.

Record SimpleMinCostFlow : Type := mkMCF {
  arcs : list Arc;
  node_supply : list Z
}.

Definition empty_mcf : SimpleMinCostFlow := mkMCF [] [].

Definition AddArcWithCapacityAndUnitCost
  (tail head : nat) (cap cost : Z) (m : SimpleMinCostFlow) : SimpleMinCostFlow :=
  mkMCF (arcs m ++ [mkArc tail head cap cost]) (node_supply m).

(** Writing slot [node] of the supply vector, which grows (with zeros) to hold
    it. *)
Fixpoint set_supply (node : nat) (supply : Z) (v : list Z) : list Z :=
  match node, v with
  | O, [] => [supply]
  | O, _ :: rest => supply :: rest
  | S n, [] => 0 :: set_supply n supply []
  | S n, x :: rest => x :: set_supply n supply rest
  end.

Definition SetNodeSupply (node : nat) (supply : Z) (m : SimpleMinCostFlow)
  : SimpleMinCostFlow :=
  mkMCF (arcs m) (set_supply node supply (node_supply m)).

(** Flow leaving and entering a node, for per-arc flows [flows]. *)
Definition outflow (al : list Arc) (flows : list Z) (v : nat) : Z :=
  fold_right (fun af acc => if Nat.eqb (Tail (fst af)) v then snd af + acc else acc)
    0 (combine al flows).

Definition inflow (al : list Arc) (flows : list Z) (v : nat) : Z :=
  fold_right (fun af acc => if Nat.eqb (Head (fst af)) v then snd af + acc else acc)
    0 (combine al flows).

Definition total_cost (al : list Arc) (flows : list Z) : Z :=
  fold_right (fun af acc => UnitCost (fst af) * snd af + acc) 0 (combine al flows).

(** A flow is feasible when it respects every capacity and meets every node's
    supply exactly. *)
Definition feasible (m : SimpleMinCostFlow) (flows : list Z) : Prop :=
  length flows = length (arcs m) /\
  Forall2 (fun a f => 0 <= f <= Capacity a) (arcs m) flows /\
  forall v : nat,
    outflow (arcs m) flows v - inflow (arcs m) flows v = nth v (node_supply m) 0.

(** ** networkx graph *)

Record Edge : Type := mkEdge {
  src : nat;
  dst : nat;
  capacity : Z;
  weight : option Z
}.

(** The [DiGraph], as its edges in insertion order.  The builder never adds the
    same (u, v) twice (see [nx_build_no_parallel_edges] below), so [add_edge]
    always creates a new edge. *)
Definition DiGraph : Type := list Edge.

Definition add_edge (u v : nat) (cap : Z) (w : option Z) (g : DiGraph) : DiGraph :=
  g ++ [mkEdge u v cap w].

(** [n in G] *)
Definition has_node (g : DiGraph) (n : nat) : bool :=
  existsb (fun e => Nat.eqb (src e) n || Nat.eqb (dst e) n) g.

Definition edge_outflow (g : DiGraph) (flows : list Z) (v : nat) : Z :=
  fold_right (fun ef acc => if Nat.eqb (src (fst ef)) v then snd ef + acc else acc)
    0 (combine g flows).

Definition edge_inflow (g : DiGraph) (flows : list Z) (v : nat) : Z :=
  fold_right (fun ef acc => if Nat.eqb (dst (fst ef)) v then snd ef + acc else acc)
    0 (combine g flows).

Definition edge_weight_of (e : Edge) : Z :=
  match weight e with Some w => w | None => 0 end.

Definition flow_cost (g : DiGraph) (flows : list Z) : Z :=
  fold_right (fun ef acc => edge_weight_of (fst ef) * snd ef + acc) 0 (combine g flows).

(** An (s, t)-flow: capacities respected, conservation at every other node. *)
Definition st_flow (g : DiGraph) (s t : nat) (flows : list Z) : Prop :=
  length flows = length g /\
  Forall2 (fun e f => 0 <= f <= capacity e) g flows /\
  forall v : nat, v <> s -> v <> t ->
    edge_outflow g flows v = edge_inflow g flows v.

Definition flow_value (g : DiGraph) (s : nat) (flows : list Z) : Z :=
  edge_outflow g flows s - edge_inflow g flows s.

(** [flowDict[u].items()]: the out-edges of [u] with their flow, in adjacency
    order. *)
Definition flow_items (g : DiGraph) (flows : list Z) (u : nat) : list (nat * Z) :=
  map (fun ef => (dst (fst ef), snd ef))
      (filter (fun ef => Nat.eqb (src (fst ef)) u) (combine g flows)).

(** ** The trial code, over its third-party parameters *)

Section Model.

(** State of the process-wide generator of the [random] module. *)
Variable rng : Type.
(** [random.randint(a, b)]: the value drawn and the generator's next state. *)
Variable randint : Z -> Z -> rng -> Z * rng.
(** [SimpleMinCostFlow.Solve], with the per-arc [Flow(i)] it leaves behind. *)
Variable or_solve : SimpleMinCostFlow -> Status * list Z.
(** The flow computed by [nx.max_flow_min_cost], one value per edge. *)
Variable nx_solve : DiGraph -> nat -> nat -> list Z.

Definition edge_weight : rng -> Z * rng :=
  randint (-1000000000) 1000000000.

(** [n] successive calls of [edge_weight]. *)
Fixpoint draws (n : nat) (g : rng) : list Z * rng :=
  match n with
  | O => ([], g)
  | S k =>
      let (w, g1) := edge_weight g in
      let (ws, g2) := draws k g1 in
      (w :: ws, g2)
  end.

(** *** [find_settlement_or] *)

(** Inner loop of lines 49-54, for one [player_from]. *)
Fixpoint or_add_arcs_from (player_from : nat) (cashout1 : Z)
  (inner : list (nat * Z)) (m : SimpleMinCostFlow) (g : rng)
  : SimpleMinCostFlow * rng :=
  match inner with
  | [] => (m, g)
  | (player_to, cashout2) :: rest =>
      if cashout2 >=? 0 then or_add_arcs_from player_from cashout1 rest m g
      else
        let cap := Z.min cashout1 (- cashout2) in
        let (w, g1) := edge_weight g in
        or_add_arcs_from player_from cashout1 rest
          (AddArcWithCapacityAndUnitCost player_from player_to cap w m) g1
  end.

(** Outer loop of lines 46-54. *)
Fixpoint or_add_arcs (outer inner : list (nat * Z)) (m : SimpleMinCostFlow)
  (g : rng) : SimpleMinCostFlow * rng :=
  match outer with
  | [] => (m, g)
  | (player_from, cashout1) :: rest =>
      if cashout1 <=? 0 then or_add_arcs rest inner m g
      else
        let (m1, g1) := or_add_arcs_from player_from cashout1 inner m g in
        or_add_arcs rest inner m1 g1
  end.

(** Lines 56-57. *)
Fixpoint or_set_supplies (players : list (nat * Z)) (m : SimpleMinCostFlow)
  : SimpleMinCostFlow :=
  match players with
  | [] => m
  | (player_id, cashout) :: rest =>
      or_set_supplies rest (SetNodeSupply player_id cashout m)
  end.

(** The graph handed to the solver (lines 44-57). *)
Definition or_build (cashouts : list Z) (g : rng) : SimpleMinCostFlow * rng :=
  let (m, g1) :=
    or_add_arcs (enumerate cashouts) (enumerate cashouts) empty_mcf g in
  (or_set_supplies (enumerate cashouts) m, g1).

(** Lines 62-67: one pass over the arcs with their flows. *)
Fixpoint or_extract (arc_flows : list (Arc * Z)) (settlements : settlement)
  : settlement :=
  match arc_flows with
  | [] => settlements
  | (a, f) :: rest =>
      if f <=? 0 then or_extract rest settlements
      else or_extract rest (append_payment (Tail a) (Head a, f) settlements)
  end.

(** [Flow(i)] for [i in range(NumArcs())]. *)
Definition arcs_with_flow (m : SimpleMinCostFlow) (flows : list Z)
  : list (Arc * Z) :=
  map (fun ia => (snd ia, nth (fst ia) flows 0))
      (combine (seq 0 (length (arcs m))) (arcs m)).

Definition find_settlement_or (cashouts : list Z) (_ : nat) (g : rng)
  : outcome settlement * rng :=
  let (m, g1) := or_build cashouts g in
  let (status, flows) := or_solve m in
  if Status_eqb status OPTIMAL
  then (Returned (or_extract (arcs_with_flow m flows) []), g1)
  else (Raised (AssertionError status), g1).

(** *** [find_settlement_nx] *)

(** Lines 78-82. *)
Fixpoint nx_add_terminals (source sink : nat) (players : list (nat * Z))
  (graph : DiGraph) : DiGraph :=
  match players with
  | [] => graph
  | (player, cashout) :: rest =>
      if cashout <? 0 then
        nx_add_terminals source sink rest
          (add_edge source player (- cashout) None graph)
      else if cashout >? 0 then
        nx_add_terminals source sink rest
          (add_edge player sink cashout None graph)
      else nx_add_terminals source sink rest graph
  end.

(** Inner loop of lines 87-91. *)
Fixpoint nx_add_edges_from (player_from : nat) (cashout1 : Z)
  (inner : list (nat * Z)) (graph : DiGraph) (g : rng) : DiGraph * rng :=
  match inner with
  | [] => (graph, g)
  | (player_to, cashout2) :: rest =>
      if cashout2 <=? 0 then nx_add_edges_from player_from cashout1 rest graph g
      else
        let cap := Z.min (- cashout1) cashout2 in
        let (w, g1) := edge_weight g in
        nx_add_edges_from player_from cashout1 rest
          (add_edge player_from player_to cap (Some w) graph) g1
  end.

(** Outer loop of lines 84-91. *)
Fixpoint nx_add_edges (outer inner : list (nat * Z)) (graph : DiGraph)
  (g : rng) : DiGraph * rng :=
  match outer with
  | [] => (graph, g)
  | (player_from, cashout1) :: rest =>
      if cashout1 >=? 0 then nx_add_edges rest inner graph g
      else
        let (graph1, g1) := nx_add_edges_from player_from cashout1 inner graph g in
        nx_add_edges rest inner graph1 g1
  end.

(** The graph handed to networkx (lines 75-91). *)
Definition nx_build (cashouts : list Z) (g : rng) : DiGraph * rng :=
  let source := length cashouts in
  let sink := (length cashouts + 1)%nat in
  nx_add_edges (enumerate cashouts) (enumerate cashouts)
    (nx_add_terminals source sink (enumerate cashouts) []) g.

(** [nx.max_flow_min_cost(graph, s, t)]: networkx refuses a source or sink
    that is not a node of the graph, and equal terminals. *)
Definition max_flow_min_cost (graph : DiGraph) (s t : nat)
  : outcome (list Z) :=
  if negb (has_node graph s) then Raised NetworkXError
  else if negb (has_node graph t) then Raised NetworkXError
  else if Nat.eqb s t then Raised NetworkXError
  else Returned (nx_solve graph s t).

(** Inner loop of lines 99-102. *)
Fixpoint nx_extract_from (player_from : nat) (items : list (nat * Z))
  (settlements : settlement) : settlement :=
  match items with
  | [] => settlements
  | (player_to, payment) :: rest =>
      if payment <=? 0 then nx_extract_from player_from rest settlements
      else nx_extract_from player_from rest
             (append_payment player_to (player_from, payment) settlements)
  end.

(** Outer loop of lines 96-102. *)
Fixpoint nx_extract (graph : DiGraph) (flows : list Z)
  (players : list (nat * Z)) (settlements : settlement) : settlement :=
  match players with
  | [] => settlements
  | (player_from, cashout) :: rest =>
      if cashout >=? 0 then nx_extract graph flows rest settlements
      else nx_extract graph flows rest
             (nx_extract_from player_from (flow_items graph flows player_from)
                settlements)
  end.

Definition find_settlement_nx (cashouts : list Z) (_ : nat) (g : rng)
  : outcome settlement * rng :=
  let source := length cashouts in
  let sink := (length cashouts + 1)%nat in
  let (graph, g1) := nx_build cashouts g in
  match max_flow_min_cost graph source sink with
  | Raised e => (Raised e, g1)
  | Returned flows =>
      (Returned (nx_extract graph flows (enumerate cashouts) []), g1)
  end.

(** *** The process pool

    What the program does not determine is made explicit: the number of
    processing units, the generator state each worker process starts from,
    and the schedule, that is the list of (worker, task) pairs in the order
    in which the tasks complete.  A worker runs its tasks one after the
    other on its own generator; results reach the parent in completion
    order. *)

Record PoolEnv : Type := mkPoolEnv {
  cpu_count : nat;
  worker_rng : nat -> rng;
  schedule : list (nat * nat)
}.

Definition set_worker (st : nat -> rng) (w : nat) (g : rng) : nat -> rng :=
  fun w' => if Nat.eqb w' w then g else st w'.

(** [mapstar]: [list(map(func, items))] inside one worker; the first
    exception ends the task. *)
Fixpoint mapstar (func : nat -> rng -> outcome settlement * rng)
  (items : list nat) (g : rng) : outcome (list settlement) * rng :=
  match items with
  | [] => (Returned [], g)
  | i :: rest =>
      match func i g with
      | (Raised e, g1) => (Raised e, g1)
      | (Returned s, g1) =>
          match mapstar func rest g1 with
          | (Raised e, g2) => (Raised e, g2)
          | (Returned ss, g2) => (Returned (s :: ss), g2)
          end
      end
  end.

(** [Pool._get_tasks]: successive slices of [size] items. *)
Fixpoint get_tasks_upto (fuel : nat) (it : list nat) (size : nat)
  : list (list nat) :=
  match fuel with
  | O => []
  | S fuel' =>
      match firstn size it with
      | [] => []
      | x => x :: get_tasks_upto fuel' (skipn size it) size
      end
  end.

Definition get_tasks (it : list nat) (size : nat) : list (list nat) :=
  get_tasks_upto (length it) it size.

(** The results of the tasks, in the order in which they reach the parent. *)
Fixpoint run_schedule (func : nat -> rng -> outcome settlement * rng)
  (tasks : list (list nat)) (sched : list (nat * nat)) (st : nat -> rng)
  : list (outcome (list settlement)) :=
  match sched with
  | [] => []
  | (w, k) :: rest =>
      let (r, g1) := mapstar func (nth k tasks []) (st w) in
      r :: run_schedule func tasks rest (set_worker st w g1)
  end.

(** Lines 116-118, the body of the aggregation loop. *)
Definition keep_best (acc : nat * option settlement) (s : settlement)
  : nat * option settlement :=
  let cost := cost_of s in
  if (cost <? fst acc)%nat then (cost, Some s) else acc.

(** The aggregation loop of lines 115-118 over the arriving task results;
    a task that raised re-raises in the parent when its result arrives. *)
Fixpoint aggregate (arrivals : list (outcome (list settlement)))
  (acc : nat * option settlement) : outcome (nat * option settlement) :=
  match arrivals with
  | [] => Returned acc
  | Raised e :: _ => Raised e
  | Returned chunk :: rest => aggregate rest (fold_left keep_best chunk acc)
  end.

(** [math.ceil(num_trials / multiprocessing.cpu_count())], the ceiling of the
    quotient. *)
Definition chunk_size (num_trials cpus : nat) : nat :=
  ((num_trials + cpus - 1) / cpus)%nat.

(** [pool.imap_unordered(func, range(num_trials), chunksize=chunk)]: the
    stream of arriving results, or the [ValueError] for a chunk size below
    one. *)
Definition imap_unordered (env : PoolEnv)
  (func : nat -> rng -> outcome settlement * rng) (num_trials chunk : nat)
  : outcome (list (outcome (list settlement))) :=
  if Nat.eqb chunk 1 then
    Returned (run_schedule func (map (fun i => [i]) (seq 0 num_trials))
                (schedule env) (worker_rng env))
  else if (chunk <? 1)%nat then Raised ValueError
  else
    Returned (run_schedule func (get_tasks (seq 0 num_trials) chunk)
                (schedule env) (worker_rng env)).

Definition find_best_settlement
  (settlement_finder : list Z -> nat -> rng -> outcome settlement * rng)
  (cashouts : list Z) (num_trials : nat) (env : PoolEnv)
  : outcome (option settlement) :=
  let best := ((length cashouts * length cashouts + 1)%nat, @None settlement) in
  let find_settlement := settlement_finder cashouts in
  let chunk := chunk_size num_trials (cpu_count env) in
  match imap_unordered env find_settlement num_trials chunk with
  | Raised e => Raised e
  | Returned arrivals =>
      match aggregate arrivals best with
      | Raised e => Raised e
      | Returned (_, best_settlement) => Returned best_settlement
      end
  end.

(** A schedule is well formed for [ntasks] tasks when every task completes
    exactly once, on one of the pool's workers. *)
Definition valid_schedule (env : PoolEnv) (ntasks : nat) : Prop :=
  Permutation (map snd (schedule env)) (seq 0 ntasks) /\
  Forall (fun wk => (fst wk < cpu_count env)%nat) (schedule env).

(** The number of tasks [imap_unordered] creates. *)
Definition task_count (num_trials cpus : nat) : nat :=
  let chunk := chunk_size num_trials cpus in
  if Nat.eqb chunk 1 then num_trials
  else length (get_tasks (seq 0 num_trials) chunk).

End Model.

Arguments mkPoolEnv {rng} cpu_count worker_rng schedule.

(** ** Concrete instances of the parameters *)

(** A generator that replays a tape of values, clamped into the asked range;
    an exhausted tape keeps answering the lower bound. *)
Definition tape_randint (a b : Z) (tape : list Z) : Z * list Z :=
  match tape with
  | [] => (a, [])
  | x :: rest => (Z.max a (Z.min b x), rest)
  end.

(** All integer vectors [f] with [0 <= f_i <= cap_i]. *)
Fixpoint candidates (caps : list Z) : list (list Z) :=
  match caps with
  | [] => [[]]
  | c :: rest =>
      flat_map (fun f => map (cons f) (candidates rest))
               (map Z.of_nat (seq 0 (Z.to_nat (c + 1))))
  end.

(** First element of least [key]. *)
Fixpoint argmin (key : list Z -> Z) (l : list (list Z)) : option (list Z) :=
  match l with
  | [] => None
  | x :: rest =>
      match argmin key rest with
      | None => Some x
      | Some y => if key x <=? key y then Some x else Some y
      end
  end.

Definition node_bound (m : SimpleMinCostFlow) : nat :=
  fold_right (fun a acc => Nat.max (S (Nat.max (Tail a) (Head a))) acc)
    (length (node_supply m)) (arcs m).

Definition conserves (m : SimpleMinCostFlow) (flows : list Z) : bool :=
  forallb
    (fun v => outflow (arcs m) flows v - inflow (arcs m) flows v
              =? nth v (node_supply m) 0)
    (seq 0 (node_bound m)).

(** Exhaustive min-cost-flow solver: the cheapest of all integer flows that
    respect the capacities and the supplies. *)
Definition brute_or_solve (m : SimpleMinCostFlow) : Status * list Z :=
  match argmin (total_cost (arcs m))
          (filter (conserves m) (candidates (map Capacity (arcs m)))) with
  | Some flows => (OPTIMAL, flows)
  | None => (INFEASIBLE, [])
  end.

Definition edge_node_bound (g : DiGraph) : nat :=
  fold_right (fun e acc => Nat.max (S (Nat.max (src e) (dst e))) acc) 0%nat g.

Definition st_conserves (g : DiGraph) (s t : nat) (flows : list Z) : bool :=
  forallb
    (fun v => Nat.eqb v s || Nat.eqb v t
              || (edge_outflow g flows v =? edge_inflow g flows v))
    (seq 0 (edge_node_bound g)).

(** Exhaustive max-flow-min-cost solver: among all integer (s, t)-flows, those
    of largest value, and among these the cheapest. *)
Definition brute_nx_solve (g : DiGraph) (s t : nat) : list Z :=
  let flows := filter (st_conserves g s t) (candidates (map capacity g)) in
  match argmin (fun f => - flow_value g s f) flows with
  | None => []
  | Some top =>
      let best := flow_value g s top in
      match argmin (flow_cost g)
              (filter (fun f => flow_value g s f =? best) flows) with
      | Some f => f
      | None => top
      end
  end.

(** A single worker that runs every task. *)
Definition serial_env {rng : Type} (ntasks : nat) (g : rng) : PoolEnv rng :=
  mkPoolEnv 1 (fun _ => g) (map (fun k => (0%nat, k)) (seq 0 ntasks)).

(** ** The program around the search

    [read_cashouts], [print_amount], [href], [print_settlement] and [main].
    Python strings are modelled by [string]; [str.lower] and the parser behind
    [int(...)] are parameters.  What is printed is the list of the lines, one
    per call of [print]. *)

(** What the code around the search can raise besides the exceptions of the
    search itself. *)
Inductive error : Type :=
| StopIteration                 (* [next(reader)] on a file without a line *)
| KeyError (key : string)       (* [mapped_row[key]] without that column *)
| IndexError                    (* [sys.argv[1]], [players[i]] out of range *)
| TypeError                     (* [sorted(None, ...)] *)
| OSError                       (* [open(filename)] refused *)
| Exn (e : exn).                (* an exception of the search; [int]'s ValueError *)

Inductive result (A : Type) : Type :=
| Done (a : A)
| Failed (e : error).

Arguments Done {A} a.
Arguments Failed {A} e.

(** *** [read_cashouts] *)

(** [dict(zip(headers, row))[key]]: the cell under the last header equal to
    [key], among the headers that have a cell in this row. *)
Fixpoint zip_lookup (key : string) (headers row : list string) : option string :=
  match headers, row with
  | h :: headers', v :: row' =>
      match zip_lookup key headers' row' with
      | Some later => Some later
      | None => if String.eqb h key then Some v else None
      end
  | _, _ => None
  end.

(** [s.replace('.', '')] *)
Fixpoint remove_dots (s : string) : string :=
  match s with
  | EmptyString => EmptyString
  | String c rest =>
      if Ascii.eqb c "."%char then remove_dots rest
      else String c (remove_dots rest)
  end.

(** [players[name] += cashout] on a [defaultdict(int)]: a new name is
    appended, starting from zero. *)
Fixpoint add_cashout (name : string) (cashout : Z) (players : list (string * Z))
  : list (string * Z) :=
  match players with
  | [] => [(name, 0 + cashout)]
  | (n, c) :: rest =>
      if String.eqb n name then (n, c + cashout) :: rest
      else (n, c) :: add_cashout name cashout rest
  end.

Section Reading.

(** [int(s)], [None] standing for its [ValueError]. *)
Variable py_int : string -> option Z.

(** The loop of lines 25-31 over the rows the [csv.reader] yields. *)
Fixpoint read_rows (headers : list string) (rows : list (list string))
  (players : list (string * Z)) : result (list (string * Z)) :=
  match rows with
  | [] => Done players
  | row :: rest =>
      match zip_lookup "Balance" headers row with
      | None => Failed (KeyError "Balance")
      | Some balance =>
          match py_int (remove_dots balance) with
          | None => read_rows headers rest players
          | Some cashout =>
              match zip_lookup "Venmo" headers row with
              | None => Failed (KeyError "Venmo")
              | Some venmo =>
                  read_rows headers rest (add_cashout venmo cashout players)
              end
          end
      end
  end.

(** [read_cashouts], on the rows of the opened file: the header row, then the
    loop. *)
Definition read_cashouts (lines : list (list string))
  : result (list (string * Z)) :=
  match lines with
  | [] => Failed StopIteration
  | headers :: rows => read_rows headers rows []
  end.

End Reading.

(** *** [print_amount] and [href] *)

(** [str(n)] for an integer. *)
Definition str_of_int (n : Z) : string := NilZero.string_of_int (Z.to_int n).

Fixpoint repeat_char (c : ascii) (n : nat) : string :=
  match n with
  | O => EmptyString
  | S k => String c (repeat_char c k)
  end.

(** [f'{n:02}']: at least two characters, zeros after the sign. *)
Definition format_02 (n : Z) : string :=
  let sign := if n <? 0 then "-"%string else EmptyString in
  let digits := str_of_int (Z.abs n) in
  (sign ++ repeat_char "0" (2 - String.length sign - String.length digits)
   ++ digits)%string.

(** [f'{s:>8}'] and the like: right-aligned with spaces. *)
Definition right_align (width : nat) (s : string) : string :=
  (repeat_char " " (width - String.length s) ++ s)%string.

Definition print_amount (num : Z) : string :=
  let quot := num / 100 in
  let rem := num mod 100 in
  ("$" ++ str_of_int quot ++ "." ++ format_02 rem)%string.

(** [name[1:]] *)
Definition drop_first (name : string) : string :=
  match name with
  | EmptyString => EmptyString
  | String _ rest => rest
  end.

(** The double quote character. *)
Definition dquote : string := String (ascii_of_nat 34) EmptyString.

Definition href (name : string) (num : option Z) : string :=
  let profile :=
    ("<a href=" ++ dquote ++ "https://venmo.com/u/" ++ drop_first name
     ++ dquote ++ ">" ++ name ++ "</a>")%string in
  match num with
  | None => profile
  | Some n =>
      (* [if num:] is false for 0 as it is for None *)
      if n =? 0 then profile
      else
        let quot := n / 100 in
        let rem := n mod 100 in
        ("<a href=" ++ dquote
         ++ "https://venmo.com/?txn=charge&audience=private&recipients="
         ++ drop_first name ++ "&amount=" ++ str_of_int quot ++ "."
         ++ format_02 rem ++ dquote ++ ">" ++ name ++ "<a>")%string
  end.

(** *** [sorted] *)

(** [x] goes before the first element that is not smaller than it, so equal
    elements keep their order: the sort is stable, as Python's is. *)
Fixpoint insert_sorted {A : Type} (lt : A -> A -> bool) (x : A) (l : list A)
  : list A :=
  match l with
  | [] => [x]
  | y :: rest => if lt y x then y :: insert_sorted lt x rest else x :: l
  end.

Definition sort_stable {A : Type} (lt : A -> A -> bool) (l : list A) : list A :=
  fold_right (insert_sorted lt) [] l.

(** The keys of all the elements, computed before anything is compared. *)
Fixpoint keys_of {A K : Type} (key : A -> option K) (l : list A)
  : option (list K) :=
  match l with
  | [] => Some []
  | x :: rest =>
      match key x with
      | None => None
      | Some k =>
          match keys_of key rest with
          | None => None
          | Some ks => Some (k :: ks)
          end
      end
  end.

(** [sorted(l, key=key)], [None] when a key cannot be computed. *)
Definition sorted {A K : Type} (lt : K -> K -> bool) (key : A -> option K)
  (l : list A) : option (list A) :=
  match keys_of key l with
  | None => None
  | Some ks =>
      Some (map snd (sort_stable (fun a b => lt (fst a) (fst b)) (combine ks l)))
  end.

(** [<] on the tuples [(-amount, name)]. *)
Definition tuple_ltb (a b : Z * string) : bool :=
  (fst a <? fst b) || ((fst a =? fst b) && String.ltb (snd a) (snd b)).

(** *** [print_settlement] *)

Section Printing.

(** [str.lower] *)
Variable lower : string -> string.

(** [players[player_id][0].lower()] *)
Definition creditor_key (players : list (string * Z)) (player_id : nat)
  : option string :=
  match nth_error players player_id with
  | Some (name, _) => Some (lower name)
  | None => None
  end.

(** [(-p[1], players[p[0]][0].lower())] *)
Definition payer_key (players : list (string * Z)) (p : nat * Z)
  : option (Z * string) :=
  match nth_error players (fst p) with
  | Some (name, _) => Some (- snd p, lower name)
  | None => None
  end.

Definition tab : string := String (ascii_of_nat 9) EmptyString.

(** The line of one payer (lines 145-146). *)
Definition payer_line (name : string) (amount : Z) : string :=
  (tab ++ right_align 8 (print_amount amount) ++ " "
   ++ href name (Some amount))%string.

(** The line that opens a creditor's block (line 143). *)
Definition creditor_line (name : string) (cashout : Z) : string :=
  (href name None ++ " requests " ++ print_amount cashout ++ " from:")%string.

(** The inner loop of lines 144-146 over the sorted payers. *)
Fixpoint print_payers (players : list (string * Z)) (payers : list (nat * Z))
  (out : list string) : list string * option error :=
  match payers with
  | [] => (out, None)
  | payer :: rest =>
      match nth_error players (fst payer) with
      | None => (out, Some IndexError)
      | Some (name, _) =>
          print_payers players rest (out ++ [payer_line name (snd payer)])
      end
  end.

(** The outer loop of lines 141-147 over the sorted creditors. *)
Fixpoint print_creditors (players : list (string * Z))
  (s : list (nat * list (nat * Z))) (ids : list nat) (out : list string)
  : list string * option error :=
  match ids with
  | [] => (out, None)
  | player_id :: rest =>
      match nth_error players player_id with
      | None => (out, Some IndexError)
      | Some (name, cashout) =>
          let out1 := out ++ [creditor_line name cashout] in
          match sorted tuple_ltb (payer_key players) (payments_to player_id s) with
          | None => (out1, Some IndexError)
          | Some payers =>
              match print_payers players payers out1 with
              | (out2, Some e) => (out2, Some e)
              | (out2, None) =>
                  print_creditors players s rest (out2 ++ [EmptyString])
              end
          end
      end
  end.

(** [print_settlement]: the lines printed, and the exception that ended the
    printing, if any.  [None] is the settlement of a search that kept
    nothing. *)
Definition print_settlement (settlement : option (list (nat * list (nat * Z))))
  (players : list (string * Z)) : list string * option error :=
  match settlement with
  | None => (["<pre>"%string], Some TypeError)
  | Some s =>
      match sorted String.ltb (creditor_key players) (map fst s) with
      | None => (["<pre>"%string], Some IndexError)
      | Some ids =>
          match print_creditors players s ids ["<pre>"%string] with
          | (out, Some e) => (out, Some e)
          | (out, None) => (out ++ ["</pre>"%string], None)
          end
      end
  end.

End Printing.

(** *** [main] *)

Section Main.

Variable rng : Type.
Variable randint : Z -> Z -> rng -> Z * rng.
Variable or_solve : SimpleMinCostFlow -> Status * list Z.
Variable nx_solve : DiGraph -> nat -> nat -> list Z.
Variable py_int : string -> option Z.
Variable lower : string -> string.
(** The rows [csv.reader] yields for a file name, when it can be opened. *)
Variable open_csv : string -> option (list (list string)).
(** Whether [import ortools.graph] succeeds. *)
Variable has_ortools : bool.

(** [int(sys.argv[2]) if len(sys.argv) > 2 else 1_001] *)
Definition trials_of (argv : list string) : result Z :=
  match nth_error argv 2 with
  | Some arg =>
      match py_int arg with
      | Some n => Done n
      | None => Failed (Exn ValueError)
      end
  | None => Done 1001
  end.

(** [main].  A [num_trials] below zero behaves as zero does: the range of
    trials is empty and the chunk size is below one. *)
Definition main (argv : list string) (env : PoolEnv rng)
  : list string * option error :=
  match nth_error argv 1 with
  | None => ([], Some IndexError)
  | Some filename =>
      match trials_of argv with
      | Failed e => ([], Some e)
      | Done num_trials =>
          let settlement_finder :=
            if has_ortools then find_settlement_or randint or_solve
            else find_settlement_nx randint nx_solve in
          match open_csv filename with
          | None => ([], Some OSError)
          | Some lines =>
              match read_cashouts py_int lines with
              | Failed e => ([], Some e)
              | Done player_cashouts =>
                  let cashouts := map snd player_cashouts in
                  match find_best_settlement settlement_finder cashouts
                          (Z.to_nat num_trials) env with
                  | Raised e => ([], Some (Exn e))
                  | Returned settlement =>
                      print_settlement lower settlement player_cashouts
                  end
              end
          end
      end
  end.

End Main.

(** *** Instances of [int] and [str.lower] for one-byte characters *)

(** Decimal digits with an optional minus sign. *)
Definition dec_int (s : string) : option Z :=
  option_map Z.of_int (NilZero.int_of_string s).

Definition lower_char (c : ascii) : ascii :=
  let n := nat_of_ascii c in
  if (65 <=? n)%nat && (n <=? 90)%nat then ascii_of_nat (n + 32) else c.

Fixpoint ascii_lower (s : string) : string :=
  match s with
  | EmptyString => EmptyString
  | String c rest => String (lower_char c) (ascii_lower rest)
  end.

(** ** Vocabulary of the properties *)

(** A property of every (creditor, debtor, amount) entry of a settlement. *)
Definition every_entry (P : nat -> nat -> Z -> Prop) (s : settlement) : Prop :=
  forall key al debtor amount,
    In (key, al) s -> In (debtor, amount) al -> P key debtor amount.

(** *** Players and candidate pairs *)

(** The players a loop does not skip: [if cashout <= 0: continue] keeps the
    creditors, [if cashout >= 0: continue] keeps the debtors. *)
Definition is_creditor (c : Z) : bool := negb (c <=? 0).

Definition is_debtor (c : Z) : bool := negb (c >=? 0).

Definition select (keep : Z -> bool) (players : list (nat * Z)) : list (nat * Z) :=
  filter (fun ic => keep (snd ic)) players.

(** The (outer player, inner player) pairs a double loop visits when it keeps
    [keep_outer] players outside and [keep_inner] players inside. *)
Definition loop_pairs (keep_outer keep_inner : Z -> bool)
  (outer inner : list (nat * Z)) : list ((nat * Z) * (nat * Z)) :=
  flat_map (fun ic => map (pair ic) (select keep_inner inner))
           (select keep_outer outer).

(** The arc, and the edge, created for a pair and its drawn cost. *)
Definition or_arc (pw : ((nat * Z) * (nat * Z)) * Z) : Arc :=
  let '(((i, c1), (j, c2)), w) := pw in mkArc i j (Z.min c1 (- c2)) w.

Definition nx_edge (pw : ((nat * Z) * (nat * Z)) * Z) : Edge :=
  let '(((i, c1), (j, c2)), w) := pw in mkEdge i j (Z.min (- c1) c2) (Some w).

(** The candidate payment pairs of a ledger, creditor first. *)
Definition or_pairs (cashouts : list Z) : list ((nat * Z) * (nat * Z)) :=
  loop_pairs is_creditor is_debtor (enumerate cashouts) (enumerate cashouts).

(** The source or sink edge of one player (lines 79-82). *)
Definition terminal_edge (source sink : nat) (pc : nat * Z) : list Edge :=
  if snd pc <? 0 then [mkEdge source (fst pc) (- snd pc) None]
  else if snd pc >? 0 then [mkEdge (fst pc) sink (snd pc) None]
  else [].

Definition terminal_edges (source sink : nat) (players : list (nat * Z))
  : list Edge :=
  flat_map (terminal_edge source sink) players.

(** The candidate payment pairs of a ledger, debtor first. *)
Definition nx_pairs (cashouts : list Z) : list ((nat * Z) * (nat * Z)) :=
  loop_pairs is_debtor is_creditor (enumerate cashouts) (enumerate cashouts).

(** *** The aggregation *)

(** The pair (best cost, best settlement) is coherent when the cost is that of
    the settlement. *)
Definition coherent (acc : nat * option settlement) : Prop :=
  match snd acc with
  | Some s => cost_of s = fst acc
  | None => True
  end.

(** The settlements of the arrivals, in arrival order, when no task raised. *)
Fixpoint arrived (arrivals : list (outcome (list (list (nat * list (nat * Z))))))
  : option (list (list (nat * list (nat * Z)))) :=
  match arrivals with
  | [] => Some []
  | Raised _ :: _ => None
  | Returned chunk :: rest =>
      match arrived rest with
      | Some ss => Some (chunk ++ ss)
      | None => None
      end
  end.

(** *** Shapes of arcs and edges *)

(** The endpoints of an edge. *)
Definition edge_key (e : Edge) : nat * nat := (src e, dst e).

(** An arc of the OR-tools graph joins a creditor to a debtor. *)
Definition payment_arc (cashouts : list Z) (a : Arc) : Prop :=
  (Tail a < length cashouts)%nat /\ (Head a < length cashouts)%nat /\
  0 < cashout_at cashouts (Tail a) /\ cashout_at cashouts (Head a) < 0 /\
  Capacity a = Z.min (cashout_at cashouts (Tail a)) (- cashout_at cashouts (Head a)).

(** An edge of the networkx graph is a source edge into a debtor, a sink edge
    out of a creditor, or a payment edge from a debtor to a creditor. *)
Definition source_edge (cashouts : list Z) (e : Edge) : Prop :=
  src e = length cashouts /\ (dst e < length cashouts)%nat /\
  cashout_at cashouts (dst e) < 0 /\
  capacity e = - cashout_at cashouts (dst e) /\ weight e = None.

Definition sink_edge (cashouts : list Z) (e : Edge) : Prop :=
  dst e = (length cashouts + 1)%nat /\ (src e < length cashouts)%nat /\
  0 < cashout_at cashouts (src e) /\
  capacity e = cashout_at cashouts (src e) /\ weight e = None.

Definition payment_edge (cashouts : list Z) (e : Edge) : Prop :=
  (src e < length cashouts)%nat /\ (dst e < length cashouts)%nat /\
  cashout_at cashouts (src e) < 0 /\ 0 < cashout_at cashouts (dst e) /\
  capacity e = Z.min (- cashout_at cashouts (src e)) (cashout_at cashouts (dst e)) /\
  weight e <> None.

(** *** Sums and the greedy transport plan *)

(** Sum of the flows of the selected arcs. *)
Definition sum_where {A : Type} (keep : A -> bool) (l : list (A * Z)) : Z :=
  fold_right (fun ax acc => if keep (fst ax) then snd ax + acc else acc) 0 l.

Definition zsum (l : list Z) : Z := fold_right Z.add 0 l.

(** [take c ds] spreads the amount [c] over the amounts [ds] from the left;
    [minus] is what remains; [transport] does so row after row. *)
Fixpoint take (c : Z) (ds : list Z) : list Z :=
  match ds with
  | [] => []
  | d :: ds' => Z.min c d :: take (c - Z.min c d) ds'
  end.

Fixpoint minus (a b : list Z) : list Z :=
  match a, b with
  | x :: a', y :: b' => (x - y) :: minus a' b'
  | _, _ => []
  end.

Fixpoint transport (rs cs : list Z) : list (list Z) :=
  match rs with
  | [] => []
  | r :: rs' => take r cs :: transport rs' (minus cs (take r cs))
  end.

(** Weighted pick of the columns with a given key. *)
Fixpoint pick (v : nat) (keys : list nat) (vals : list Z) : Z :=
  match keys, vals with
  | k :: keys', x :: vals' =>
      (if Nat.eqb k v then x else 0) + pick v keys' vals'
  | _, _ => 0
  end.

(** The amount of player [k] when it is kept, zero otherwise. *)
Definition amount_at (keep : Z -> bool) (amt : Z -> Z) (l : list Z) (k : nat) : Z :=
  match nth_error l k with
  | Some c => if keep c then amt c else 0
  | None => 0
  end.

(** The greedy plan for the OR-tools graph: creditors are rows, debtors are
    columns. *)
Definition or_plan (cashouts : list Z) : list Z :=
  concat (transport (map snd (select is_creditor (enumerate cashouts)))
            (map (fun ic : nat * Z => - snd ic) (select is_debtor (enumerate cashouts)))).

Definition mem (v : nat) (keys : list nat) : bool := existsb (Nat.eqb v) keys.

(** Sum of the capacities of the selected edges. *)
Definition cap_where (keep : Edge -> bool) (edges : list Edge) : Z :=
  sum_where keep (combine edges (map capacity edges)).

(** The terminal edges of a ledger. *)
Definition nx_terminals (cashouts : list Z) : list Edge :=
  terminal_edges (length cashouts) (length cashouts + 1) (enumerate cashouts).

(** The total owed by the debtors. *)
Definition total_debt (cashouts : list Z) : Z :=
  zsum (map (fun ic : nat * Z => - snd ic) (select is_debtor (enumerate cashouts))).

(** The greedy plan for the networkx graph: terminal edges full, debtors as
    rows, creditors as columns. *)
Definition nx_plan (cashouts : list Z) : list Z :=
  map capacity (nx_terminals cashouts)
  ++ concat (transport
               (map (fun ic : nat * Z => - snd ic) (select is_debtor (enumerate cashouts)))
               (map snd (select is_creditor (enumerate cashouts)))).

(** *** Contracts of the third-party parameters *)

(** [random.randint(a, b)] returns an integer N with a <= N <= b. *)
Definition randint_in_range {rng : Type} (randint : Z -> Z -> rng -> Z * rng) : Prop :=
  forall a b g, a <= b -> a <= fst (randint a b g) <= b.

(** [Solve] answers OPTIMAL only with a feasible flow. *)
Definition or_sound (or_solve : SimpleMinCostFlow -> Status * list Z) : Prop :=
  forall m flows, or_solve m = (OPTIMAL, flows) -> feasible m flows.

(** [Solve] answers OPTIMAL whenever a feasible flow exists. *)
Definition or_complete (or_solve : SimpleMinCostFlow -> Status * list Z) : Prop :=
  forall m flows, feasible m flows -> fst (or_solve m) = OPTIMAL.

(** The flow [Solve] leaves behind is a cheapest feasible flow. *)
Definition or_optimal (or_solve : SimpleMinCostFlow -> Status * list Z) : Prop :=
  forall m flows other,
    or_solve m = (OPTIMAL, flows) -> feasible m other ->
    total_cost (arcs m) flows <= total_cost (arcs m) other.

(** [max_flow_min_cost] returns an (s, t)-flow of maximum value. *)
Definition nx_max_flow (nx_solve : DiGraph -> nat -> nat -> list Z) : Prop :=
  forall g s t,
    has_node g s = true -> has_node g t = true -> s <> t ->
    Forall (fun e => 0 <= capacity e) g ->
    st_flow g s t (nx_solve g s t) /\
    forall other, st_flow g s t other ->
      flow_value g s other <= flow_value g s (nx_solve g s t).

(** Among the maximum flows, [max_flow_min_cost] returns a cheapest one. *)
Definition nx_min_cost (nx_solve : DiGraph -> nat -> nat -> list Z) : Prop :=
  forall g s t other,
    has_node g s = true -> has_node g t = true -> s <> t ->
    Forall (fun e => 0 <= capacity e) g ->
    st_flow g s t other ->
    flow_value g s other = flow_value g s (nx_solve g s t) ->
    flow_cost g (nx_solve g s t) <= flow_cost g other.

(** *** Runs of the pool *)

(** The tasks [imap_unordered] hands to the pool. *)
Definition pool_tasks (num_trials chunk : nat) : list (list nat) :=
  if Nat.eqb chunk 1 then map (fun i => [i]) (seq 0 num_trials)
  else get_tasks (seq 0 num_trials) chunk.

(** The settlements the search compares, in the order in which they reach the
    parent; nothing when the pool refused the chunk size or a task raised. *)
Definition trial_results {rng : Type} (env : PoolEnv rng)
  (finder : list Z -> nat -> rng -> outcome (list (nat * list (nat * Z))) * rng)
  (cashouts : list Z) (num_trials : nat)
  : option (list (list (nat * list (nat * Z)))) :=
  match imap_unordered env (finder cashouts) num_trials
          (chunk_size num_trials (cpu_count env)) with
  | Returned arrivals => arrived arrivals
  | Raised _ => None
  end.

(** The sentinel pair the search starts from. *)
Definition start_of (cashouts : list Z) : nat * option (list (nat * list (nat * Z))) :=
  ((length cashouts * length cashouts + 1)%nat, None).

(** *** Shapes of the graphs and of the settlements *)

(** An arc and an edge without their cost. *)
Definition arc_shape (a : Arc) : nat * nat * Z := (Tail a, Head a, Capacity a).

Definition edge_shape (e : Edge) : nat * nat * Z := (src e, dst e, capacity e).

Definition arc_ends (a : Arc) : nat * nat := (Tail a, Head a).

(** The (creditor, debtor) pairs of the payments of a settlement. *)
Definition pairs_paid (s : list (nat * list (nat * Z))) : list (nat * nat) :=
  flat_map (fun kv => map (fun p : nat * Z => (fst kv, fst p)) (snd kv)) s.

(** The number of strictly positive flows. *)
Definition positive_flows {A : Type} (l : list (A * Z)) : nat :=
  length (filter (fun af => 0 <? snd af) l).

(** An edge between two players, as opposed to a source or sink edge. *)
Definition between_players (n : nat) (e : Edge) : bool :=
  (src e <? n)%nat && (dst e <? n)%nat.

(** A settlement is a mapping when no creditor appears twice among its keys
    and every key has at least one payment. *)
Definition is_mapping (s : list (nat * list (nat * Z))) : Prop :=
  NoDup (map fst s) /\ Forall (fun kv => snd kv <> []) s.

(** *** The printed report *)

(** Name and balance of a player of the ledger. *)
Definition name_at (players : list (string * Z)) (i : nat) : string :=
  match nth_error players i with
  | Some (name, _) => name
  | None => EmptyString
  end.

Definition balance_at (players : list (string * Z)) (i : nat) : Z :=
  match nth_error players i with
  | Some (_, cashout) => cashout
  | None => 0
  end.

(** Every creditor and every payer of the settlement is a player of the
    ledger. *)
Definition known_players (players : list (string * Z))
  (s : list (nat * list (nat * Z))) : Prop :=
  forall key al, In (key, al) s ->
    (key < length players)%nat /\
    forall debtor amount, In (debtor, amount) al -> (debtor < length players)%nat.

(** The creditors, and the payers of a creditor, in the order in which they
    are printed. *)
Definition sorted_creditors (lower : string -> string)
  (players : list (string * Z)) (s : list (nat * list (nat * Z))) : list nat :=
  match sorted String.ltb (creditor_key lower players) (map fst s) with
  | Some ids => ids
  | None => []
  end.

Definition sorted_payers (lower : string -> string)
  (players : list (string * Z)) (s : list (nat * list (nat * Z))) (key : nat)
  : list (nat * Z) :=
  match sorted tuple_ltb (payer_key lower players) (payments_to key s) with
  | Some payers => payers
  | None => []
  end.

(** The lines of one creditor: the request, one line per payer, an empty
    line. *)
Definition block (players : list (string * Z)) (key : nat)
  (payers : list (nat * Z)) : list string :=
  creditor_line (name_at players key) (balance_at players key)
  :: map (fun p : nat * Z => payer_line (name_at players (fst p)) (snd p)) payers
  ++ [EmptyString].

(** [known_players], as a check. *)
Definition known_playersb (players : list (string * Z))
  (s : list (nat * list (nat * Z))) : bool :=
  forallb (fun kv : nat * list (nat * Z) =>
             (fst kv <? length players)%nat
             && forallb (fun p : nat * Z => (fst p <? length players)%nat) (snd kv))
          s.

(** *** The rows of the ledger *)

(** The (player, cashout) pair a row contributes: none when a cell is
    missing or the balance does not parse. *)
Definition entry_of (py_int : string -> option Z) (headers row : list string)
  : option (string * Z) :=
  match zip_lookup "Balance" headers row with
  | Some balance =>
      match py_int (remove_dots balance), zip_lookup "Venmo" headers row with
      | Some cashout, Some venmo => Some (venmo, cashout)
      | _, _ => None
      end
  | None => None
  end.

Definition entries (py_int : string -> option Z) (headers : list string)
  (rows : list (list string)) : list (string * Z) :=
  flat_map (fun row => match entry_of py_int headers row with
                       | Some e => [e]
                       | None => []
                       end) rows.

(** The sum of the cashouts recorded under a name. *)
Definition total_of (name : string) (l : list (string * Z)) : Z :=
  zsum (map snd (filter (fun e : string * Z => String.eqb (fst e) name) l)).

(** * Properties *)

(** ** Settlements as accumulated payments *)

Lemma sum_amounts_app (l1 l2 : list payment) :
  sum_amounts (l1 ++ l2) = sum_amounts l1 + sum_amounts l2.
Proof.
  unfold sum_amounts. induction l1 as [|p l1 IH]; simpl; [reflexivity | lia].
Qed.

Lemma received_append (key : nat) (p : payment) (s : settlement) (k : nat) :
  received (append_payment key p s) k
  = received s k + (if Nat.eqb key k then snd p else 0).
Proof.
  unfold received. induction s as [|[k0 al] s IH]; simpl.
  - destruct (Nat.eqb key k); simpl; lia.
  - destruct (Nat.eqb k0 key) eqn:E0; simpl.
    + apply Nat.eqb_eq in E0. subst k0.
      destruct (Nat.eqb key k); [|lia].
      rewrite sum_amounts_app. simpl. lia.
    + destruct (Nat.eqb k0 k) eqn:E1; [|exact IH].
      apply Nat.eqb_eq in E1. subst k0.
      rewrite Nat.eqb_sym in E0. rewrite E0. lia.
Qed.

Lemma paid_append (key : nat) (p : payment) (s : settlement) (d : nat) :
  paid (append_payment key p s) d
  = paid s d + (if Nat.eqb (fst p) d then snd p else 0).
Proof.
  unfold paid. induction s as [|[k0 al] s IH]; simpl.
  - destruct (Nat.eqb (fst p) d); simpl; lia.
  - destruct (Nat.eqb k0 key); simpl.
    + rewrite filter_app, sum_amounts_app. simpl.
      destruct (Nat.eqb (fst p) d); unfold sum_amounts; simpl; lia.
    + rewrite IH. lia.
Qed.

Lemma cost_of_append (key : nat) (p : payment) (s : settlement) :
  cost_of (append_payment key p s) = S (cost_of s).
Proof.
  unfold cost_of. induction s as [|[k0 al] s IH]; simpl; [reflexivity|].
  destruct (Nat.eqb k0 key); simpl.
  - rewrite length_app. simpl. lia.
  - rewrite IH. lia.
Qed.

Lemma every_entry_nil (P : nat -> nat -> Z -> Prop) : every_entry P [].
Proof. intros key al d a []. Qed.

Lemma every_entry_append (P : nat -> nat -> Z -> Prop) key d a s :
  every_entry P s -> P key d a -> every_entry P (append_payment key (d, a) s).
Proof.
  intros Hs Hp. induction s as [|[k0 al] s IH]; simpl.
  - intros k al' d' a' [E|[]] Hin. inversion E; subst.
    destruct Hin as [E'|[]]. inversion E'; subst. exact Hp.
  - destruct (Nat.eqb k0 key) eqn:E0.
    + apply Nat.eqb_eq in E0. subst k0.
      intros k al' d' a' [E|Hin1] Hin.
      * inversion E; subst. apply in_app_or in Hin. destruct Hin as [Hin|[E'|[]]].
        -- apply (Hs k al d' a'); [left; reflexivity | exact Hin].
        -- inversion E'; subst. exact Hp.
      * apply (Hs k al' d' a'); [right; exact Hin1 | exact Hin].
    + intros k al' d' a' [E|Hin1] Hin.
      * inversion E; subst. apply (Hs k al' d' a'); [left; reflexivity | exact Hin].
      * apply IH with (key := k) (al := al'); try assumption.
        intros k2 al2 d2 a2 H1 H2. apply (Hs k2 al2 d2 a2); [right; exact H1 | exact H2].
Qed.

(** ** The OR-tools extractor *)

Lemma or_extract_every_entry (P : nat -> nat -> Z -> Prop) afs acc :
  every_entry P acc ->
  (forall a f, In (a, f) afs -> 0 < f -> P (Tail a) (Head a) f) ->
  every_entry P (or_extract afs acc).
Proof.
  revert acc. induction afs as [|[a f] afs IH]; intros acc Hacc Hall; simpl.
  - exact Hacc.
  - destruct (f <=? 0) eqn:Ef.
    + apply IH; [exact Hacc|]. intros a' f' Hin. apply Hall. right. exact Hin.
    + apply IH.
      * apply every_entry_append; [exact Hacc|].
        apply Hall; [left; reflexivity | apply Z.leb_gt in Ef; exact Ef].
      * intros a' f' Hin. apply Hall. right. exact Hin.
Qed.

Lemma or_extract_received afs acc k :
  Forall (fun af => 0 <= snd af) afs ->
  received (or_extract afs acc) k
  = received acc k
    + fold_right (fun af s => if Nat.eqb (Tail (fst af)) k then snd af + s else s) 0 afs.
Proof.
  revert acc. induction afs as [|[a f] afs IH]; intros acc Hnn; simpl.
  - lia.
  - inversion Hnn as [|? ? Hf Hrest]; subst. simpl in Hf.
    destruct (f <=? 0) eqn:Ef.
    + apply Z.leb_le in Ef. assert (f = 0) by lia. subst f.
      rewrite IH by assumption. destruct (Nat.eqb (Tail a) k); lia.
    + rewrite IH by assumption. rewrite received_append. simpl.
      destruct (Nat.eqb (Tail a) k); lia.
Qed.

Lemma or_extract_paid afs acc d :
  Forall (fun af => 0 <= snd af) afs ->
  paid (or_extract afs acc) d
  = paid acc d
    + fold_right (fun af s => if Nat.eqb (Head (fst af)) d then snd af + s else s) 0 afs.
Proof.
  revert acc. induction afs as [|[a f] afs IH]; intros acc Hnn; simpl.
  - lia.
  - inversion Hnn as [|? ? Hf Hrest]; subst. simpl in Hf.
    destruct (f <=? 0) eqn:Ef.
    + apply Z.leb_le in Ef. assert (f = 0) by lia. subst f.
      rewrite IH by assumption. destruct (Nat.eqb (Head a) d); lia.
    + rewrite IH by assumption. rewrite paid_append. simpl.
      destruct (Nat.eqb (Head a) d); lia.
Qed.

Lemma or_extract_cost afs acc :
  (cost_of (or_extract afs acc) <= cost_of acc + length afs)%nat.
Proof.
  revert acc. induction afs as [|[a f] afs IH]; intros acc; simpl.
  - lia.
  - destruct (f <=? 0).
    + specialize (IH acc). lia.
    + specialize (IH (append_payment (Tail a) (Head a, f) acc)).
      rewrite cost_of_append in IH. lia.
Qed.

Lemma combine_seq_nth {A : Type} (l : list A) (flows : list Z) (start : nat)
  (pre : list Z) :
  length pre = start -> length flows = length l ->
  map (fun ia : nat * A => (snd ia, nth (fst ia) (pre ++ flows) 0))
      (combine (seq start (length l)) l)
  = combine l flows.
Proof.
  revert flows start pre. induction l as [|x l IH]; intros flows start pre Hp Hl.
  - reflexivity.
  - destruct flows as [|f flows]; [discriminate|]. simpl.
    f_equal.
    + f_equal. rewrite app_nth2 by lia. rewrite Hp, Nat.sub_diag. reflexivity.
    + replace (pre ++ f :: flows) with ((pre ++ [f]) ++ flows)
        by (rewrite <- app_assoc; reflexivity).
      apply IH; [rewrite length_app; simpl; lia | simpl in Hl; lia].
Qed.

Lemma arcs_with_flow_combine (m : SimpleMinCostFlow) (flows : list Z) :
  length flows = length (arcs m) ->
  arcs_with_flow m flows = combine (arcs m) flows.
Proof.
  intros H. unfold arcs_with_flow.
  apply combine_seq_nth with (pre := []); [reflexivity | exact H].
Qed.

Lemma arcs_with_flow_In (m : SimpleMinCostFlow) (flows : list Z) a f :
  In (a, f) (arcs_with_flow m flows) -> In a (arcs m).
Proof.
  unfold arcs_with_flow. intros H. apply in_map_iff in H.
  destruct H as [[i a'] [E Hin]]. inversion E; subst.
  apply in_combine_r in Hin. exact Hin.
Qed.

Lemma arcs_with_flow_length (m : SimpleMinCostFlow) (flows : list Z) :
  length (arcs_with_flow m flows) = length (arcs m).
Proof.
  unfold arcs_with_flow. rewrite length_map, length_combine, length_seq. lia.
Qed.

(** ** Players, creditors and debtors *)

Lemma is_creditor_true c : is_creditor c = true <-> 0 < c.
Proof. unfold is_creditor. rewrite negb_true_iff, Z.leb_gt. reflexivity. Qed.

Lemma is_debtor_true c : is_debtor c = true <-> c < 0.
Proof.
  unfold is_debtor. rewrite negb_true_iff, Z.geb_leb, Z.leb_gt. reflexivity.
Qed.

Lemma enumerate_from_In start cashouts i c :
  In (i, c) (enumerate_from start cashouts) <->
  (start <= i < start + length cashouts)%nat /\ c = nth (i - start) cashouts 0.
Proof.
  unfold enumerate_from. revert start.
  induction cashouts as [|x xs IH]; intros start; simpl.
  - split; [intros [] | intros [H _]; lia].
  - split.
    + intros [E|Hin].
      * inversion E; subst. rewrite Nat.sub_diag. split; [lia | reflexivity].
      * apply IH in Hin. destruct Hin as [Hr Hc]. split; [lia|].
        replace (i - start)%nat with (S (i - S start)) by lia. exact Hc.
    + intros [Hr Hc]. destruct (Nat.eq_dec i start) as [->|Hne].
      * left. rewrite Nat.sub_diag in Hc. subst c. reflexivity.
      * right. apply IH. split; [lia|].
        replace (i - start)%nat with (S (i - S start)) in Hc by lia. exact Hc.
Qed.

Lemma enumerate_In cashouts i c :
  In (i, c) (enumerate cashouts) <->
  (i < length cashouts)%nat /\ c = cashout_at cashouts i.
Proof.
  unfold enumerate, cashout_at. rewrite enumerate_from_In, Nat.sub_0_r.
  intuition lia.
Qed.

Lemma select_In keep players i c :
  In (i, c) (select keep players) <-> In (i, c) players /\ keep c = true.
Proof. unfold select. rewrite filter_In. reflexivity. Qed.

Lemma loop_pairs_In ko ki outer inner p q :
  In (p, q) (loop_pairs ko ki outer inner) <->
  In p (select ko outer) /\ In q (select ki inner).
Proof.
  unfold loop_pairs. rewrite in_flat_map. split.
  - intros [x [Hx Hin]]. apply in_map_iff in Hin.
    destruct Hin as [y [E Hy]]. inversion E; subst. split; assumption.
  - intros [Hp Hq]. exists p. split; [exact Hp|]. apply in_map. exact Hq.
Qed.

Lemma combine_app_eq {A B : Type} (l1 l2 : list A) (r1 r2 : list B) :
  length r1 = length l1 ->
  combine (l1 ++ l2) (r1 ++ r2) = combine l1 r1 ++ combine l2 r2.
Proof.
  revert r1. induction l1 as [|x l1 IH]; intros [|y r1] H; simpl in *;
    try discriminate; [reflexivity|].
  f_equal. apply IH. lia.
Qed.

Section Builders.

Variable rng : Type.
Variable randint : Z -> Z -> rng -> Z * rng.

Lemma draws_app (a b : nat) (g : rng) :
  draws randint (a + b) g
  = (fst (draws randint a g) ++ fst (draws randint b (snd (draws randint a g))),
     snd (draws randint b (snd (draws randint a g)))).
Proof.
  revert g. induction a as [|a IH]; intros g; simpl.
  - destruct (draws randint b g); reflexivity.
  - destruct (edge_weight randint g) as [w g1]. rewrite IH.
    destruct (draws randint a g1) as [ws g2]. simpl. reflexivity.
Qed.

Lemma draws_length (n : nat) (g : rng) : length (fst (draws randint n g)) = n.
Proof.
  revert g. induction n as [|n IH]; intros g; simpl; [reflexivity|].
  destruct (edge_weight randint g) as [w g1]. specialize (IH g1).
  destruct (draws randint n g1). simpl in *. lia.
Qed.

(** *** The arcs of [find_settlement_or] *)

Lemma or_add_arcs_from_eq i c1 inner m g :
  let ps := map (pair (i, c1)) (select is_debtor inner) in
  or_add_arcs_from randint i c1 inner m g
  = (mkMCF (arcs m ++ map or_arc (combine ps (fst (draws randint (length ps) g))))
           (node_supply m),
     snd (draws randint (length ps) g)).
Proof.
  revert m g. induction inner as [|[j c2] inner IH]; intros m g; simpl.
  - rewrite app_nil_r. destruct m; reflexivity.
  - replace (is_debtor c2) with (negb (c2 >=? 0)) by reflexivity.
    destruct (c2 >=? 0) eqn:E; simpl.
    + apply IH.
    + destruct (edge_weight randint g) as [w g1]. rewrite IH. simpl.
      destruct (draws randint _ g1) as [ws g2]. simpl.
      rewrite <- app_assoc. reflexivity.
Qed.

Lemma or_add_arcs_eq outer inner m g :
  let ps := loop_pairs is_creditor is_debtor outer inner in
  or_add_arcs randint outer inner m g
  = (mkMCF (arcs m ++ map or_arc (combine ps (fst (draws randint (length ps) g))))
           (node_supply m),
     snd (draws randint (length ps) g)).
Proof.
  revert m g. induction outer as [|[i c1] outer IH]; intros m g; simpl.
  - rewrite app_nil_r. destruct m; reflexivity.
  - unfold loop_pairs, select. simpl.
    replace (is_creditor c1) with (negb (c1 <=? 0)) by reflexivity.
    destruct (c1 <=? 0) eqn:E; simpl.
    + apply IH.
    + rewrite or_add_arcs_from_eq. rewrite IH. simpl.
      rewrite length_app, draws_app. simpl.
      fold (select is_debtor inner). fold (select is_creditor outer).
      fold (loop_pairs is_creditor is_debtor outer inner).
      set (ps1 := map (pair (i, c1)) (select is_debtor inner)).
      set (ps2 := loop_pairs is_creditor is_debtor outer inner).
      rewrite <- app_assoc. f_equal. f_equal.
      rewrite combine_app_eq by (rewrite draws_length; reflexivity).
      rewrite map_app. reflexivity.
Qed.

Lemma set_supply_snoc (v : list Z) (x : Z) :
  set_supply (length v) x v = v ++ [x].
Proof. induction v as [|y v IH]; simpl; [reflexivity | rewrite IH; reflexivity]. Qed.

Lemma or_set_supplies_eq start xs m :
  length (node_supply m) = start ->
  or_set_supplies (enumerate_from start xs) m
  = mkMCF (arcs m) (node_supply m ++ xs).
Proof.
  unfold enumerate_from. revert start m.
  induction xs as [|x xs IH]; intros start m Hlen; simpl.
  - rewrite app_nil_r. destruct m; reflexivity.
  - rewrite (IH (S start)).
    + unfold SetNodeSupply. simpl. rewrite <- Hlen, set_supply_snoc.
      rewrite <- app_assoc. reflexivity.
    + unfold SetNodeSupply. simpl. rewrite <- Hlen, set_supply_snoc.
      rewrite length_app. simpl. lia.
Qed.

Lemma or_build_eq cashouts g :
  or_build randint cashouts g
  = (mkMCF (map or_arc
              (combine (or_pairs cashouts)
                 (fst (draws randint (length (or_pairs cashouts)) g))))
           cashouts,
     snd (draws randint (length (or_pairs cashouts)) g)).
Proof.
  unfold or_build. rewrite or_add_arcs_eq. simpl.
  unfold enumerate at 1. rewrite or_set_supplies_eq by reflexivity.
  reflexivity.
Qed.

(** *** The edges of [find_settlement_nx] *)

Lemma nx_add_terminals_eq source sink players graph :
  nx_add_terminals source sink players graph
  = graph ++ terminal_edges source sink players.
Proof.
  revert graph. induction players as [|[p c] players IH]; intros graph; simpl.
  - rewrite app_nil_r. reflexivity.
  - unfold terminal_edge. simpl. destruct (c <? 0).
    + rewrite IH. unfold add_edge. rewrite <- app_assoc. reflexivity.
    + destruct (c >? 0).
      * rewrite IH. unfold add_edge. rewrite <- app_assoc. reflexivity.
      * apply IH.
Qed.

Lemma nx_add_edges_from_eq i c1 inner graph g :
  let ps := map (pair (i, c1)) (select is_creditor inner) in
  nx_add_edges_from randint i c1 inner graph g
  = (graph ++ map nx_edge (combine ps (fst (draws randint (length ps) g))),
     snd (draws randint (length ps) g)).
Proof.
  revert graph g. induction inner as [|[j c2] inner IH]; intros graph g; simpl.
  - rewrite app_nil_r. reflexivity.
  - replace (is_creditor c2) with (negb (c2 <=? 0)) by reflexivity.
    destruct (c2 <=? 0) eqn:E; simpl.
    + apply IH.
    + destruct (edge_weight randint g) as [w g1]. rewrite IH. simpl.
      destruct (draws randint _ g1) as [ws g2]. simpl.
      unfold add_edge. rewrite <- app_assoc. reflexivity.
Qed.

Lemma nx_add_edges_eq outer inner graph g :
  let ps := loop_pairs is_debtor is_creditor outer inner in
  nx_add_edges randint outer inner graph g
  = (graph ++ map nx_edge (combine ps (fst (draws randint (length ps) g))),
     snd (draws randint (length ps) g)).
Proof.
  revert graph g. induction outer as [|[i c1] outer IH]; intros graph g; simpl.
  - rewrite app_nil_r. reflexivity.
  - unfold loop_pairs, select. simpl.
    replace (is_debtor c1) with (negb (c1 >=? 0)) by reflexivity.
    destruct (c1 >=? 0) eqn:E; simpl.
    + apply IH.
    + rewrite nx_add_edges_from_eq. rewrite IH. simpl.
      rewrite length_app, draws_app. simpl.
      fold (select is_creditor inner). fold (select is_debtor outer).
      fold (loop_pairs is_debtor is_creditor outer inner).
      rewrite <- app_assoc. f_equal. f_equal.
      rewrite combine_app_eq by (rewrite draws_length; reflexivity).
      rewrite map_app. reflexivity.
Qed.

Lemma nx_build_eq cashouts g :
  nx_build randint cashouts g
  = (terminal_edges (length cashouts) (length cashouts + 1) (enumerate cashouts)
     ++ map nx_edge
          (combine (nx_pairs cashouts)
             (fst (draws randint (length (nx_pairs cashouts)) g))),
     snd (draws randint (length (nx_pairs cashouts)) g)).
Proof.
  unfold nx_build. rewrite nx_add_edges_eq, nx_add_terminals_eq. reflexivity.
Qed.

End Builders.

(** ** The aggregation loop *)

Lemma keep_best_cases acc s :
  keep_best acc s = acc /\ (fst acc <= cost_of s)%nat \/
  keep_best acc s = (cost_of s, Some s) /\ (cost_of s < fst acc)%nat.
Proof.
  unfold keep_best. destruct (cost_of s <? fst acc)%nat eqn:E.
  - right. apply Nat.ltb_lt in E. auto.
  - left. apply Nat.ltb_ge in E. auto.
Qed.

Lemma fold_keep_best_le chunk acc :
  (fst (fold_left keep_best chunk acc) <= fst acc)%nat.
Proof.
  revert acc. induction chunk as [|s chunk IH]; intros acc; simpl; [lia|].
  specialize (IH (keep_best acc s)).
  destruct (keep_best_cases acc s) as [[E _]|[E H]]; rewrite E in *; simpl in *; lia.
Qed.

Lemma fold_keep_best_lower chunk acc s :
  In s chunk -> (fst (fold_left keep_best chunk acc) <= cost_of s)%nat.
Proof.
  revert acc. induction chunk as [|x chunk IH]; intros acc; simpl; [intros []|].
  intros [->|Hin].
  - pose proof (fold_keep_best_le chunk (keep_best acc s)) as Hle.
    destruct (keep_best_cases acc s) as [[E H]|[E H]]; rewrite E in *; simpl in *; lia.
  - apply IH. exact Hin.
Qed.

Lemma fold_keep_best_coherent chunk acc :
  coherent acc -> coherent (fold_left keep_best chunk acc).
Proof.
  revert acc. induction chunk as [|s chunk IH]; intros acc Hc; simpl; [exact Hc|].
  apply IH. destruct (keep_best_cases acc s) as [[E _]|[E _]]; rewrite E.
  - exact Hc.
  - reflexivity.
Qed.

Lemma fold_keep_best_origin chunk acc :
  snd (fold_left keep_best chunk acc) = snd acc \/
  exists s, In s chunk /\ snd (fold_left keep_best chunk acc) = Some s.
Proof.
  revert acc. induction chunk as [|x chunk IH]; intros acc; simpl; [left; reflexivity|].
  destruct (IH (keep_best acc x)) as [E|[s [Hin E]]].
  - destruct (keep_best_cases acc x) as [[E' _]|[E' _]]; rewrite E' in *.
    + left. exact E.
    + right. exists x. split; [left; reflexivity | exact E].
  - right. exists s. split; [right; exact Hin | exact E].
Qed.

Lemma fold_keep_best_some chunk acc s0 :
  snd acc = Some s0 -> exists s, snd (fold_left keep_best chunk acc) = Some s.
Proof.
  revert acc s0. induction chunk as [|x chunk IH]; intros acc s0 H; simpl.
  - exists s0. exact H.
  - destruct (keep_best_cases acc x) as [[E _]|[E _]]; rewrite E.
    + apply (IH acc s0 H).
    + apply (IH _ x). reflexivity.
Qed.

(** The first strictly cheapest settlement of a run of arrivals wins: those
    before it cost more, those after it cost at least as much. *)
Lemma fold_keep_best_first_min before s after acc :
  (cost_of s < fst acc)%nat ->
  (forall x, In x before -> (cost_of s < cost_of x)%nat) ->
  (forall x, In x after -> (cost_of s <= cost_of x)%nat) ->
  fold_left keep_best (before ++ s :: after) acc = (cost_of s, Some s).
Proof.
  intros Hacc Hb Ha. rewrite fold_left_app. simpl.
  assert (Hpre : (cost_of s < fst (fold_left keep_best before acc))%nat).
  { clear Ha. revert acc Hacc. induction before as [|x before IH]; intros acc Hacc; simpl.
    - exact Hacc.
    - apply IH.
      + intros y Hy. apply Hb. right. exact Hy.
      + specialize (Hb x (or_introl eq_refl)).
        destruct (keep_best_cases acc x) as [[E _]|[E _]]; rewrite E; simpl; lia. }
  destruct (keep_best_cases (fold_left keep_best before acc) s) as [[E H]|[E _]];
    [lia|]. rewrite E. clear E Hpre Hacc Hb.
  induction after as [|x after IH]; simpl; [reflexivity|].
  destruct (keep_best_cases (cost_of s, Some s) x) as [[E H]|[E H]].
  - rewrite E. apply IH. intros y Hy. apply Ha. right. exact Hy.
  - simpl in H. specialize (Ha x (or_introl eq_refl)). lia.
Qed.

Lemma aggregate_arrived arrivals acc ss :
  arrived arrivals = Some ss ->
  aggregate arrivals acc = Returned (fold_left keep_best ss acc).
Proof.
  revert acc ss. induction arrivals as [|[chunk|e] rest IH]; intros acc ss H; simpl in *.
  - inversion H. reflexivity.
  - destruct (arrived rest) as [ss'|]; [|discriminate]. inversion H; subst.
    rewrite fold_left_app. apply IH. reflexivity.
  - discriminate.
Qed.

Lemma aggregate_returned arrivals acc r :
  aggregate arrivals acc = Returned r -> exists ss, arrived arrivals = Some ss.
Proof.
  revert acc. induction arrivals as [|[chunk|e] rest IH]; intros acc H; simpl in *.
  - exists []. reflexivity.
  - destruct (IH _ H) as [ss E]. rewrite E. eexists. reflexivity.
  - discriminate.
Qed.

Lemma arrived_app a1 a2 s1 s2 :
  arrived a1 = Some s1 -> arrived a2 = Some s2 -> arrived (a1 ++ a2) = Some (s1 ++ s2).
Proof.
  revert s1. induction a1 as [|[chunk|e] rest IH]; intros s1 H1 H2; simpl in *.
  - inversion H1. exact H2.
  - destruct (arrived rest) as [ss'|]; [|discriminate]. inversion H1; subst.
    rewrite (IH ss' eq_refl H2). rewrite app_assoc. reflexivity.
  - discriminate.
Qed.

Lemma arrived_app_inv a1 a2 ss :
  arrived (a1 ++ a2) = Some ss ->
  exists s1 s2, arrived a1 = Some s1 /\ arrived a2 = Some s2 /\ ss = s1 ++ s2.
Proof.
  revert ss. induction a1 as [|[chunk|e] rest IH]; intros ss H; simpl in *.
  - exists [], ss. auto.
  - destruct (arrived (rest ++ a2)) as [ss'|] eqn:E; [|discriminate].
    inversion H; subst. destruct (IH ss' eq_refl) as [s1 [s2 [E1 [E2 E3]]]].
    rewrite E1. exists (chunk ++ s1), s2. subst ss'. rewrite app_assoc. auto.
  - discriminate.
Qed.

(** ** What the builders create *)

Lemma or_pairs_In cashouts i c1 j c2 :
  In ((i, c1), (j, c2)) (or_pairs cashouts) <->
  ((i < length cashouts)%nat /\ c1 = cashout_at cashouts i /\ 0 < c1) /\
  ((j < length cashouts)%nat /\ c2 = cashout_at cashouts j /\ c2 < 0).
Proof.
  unfold or_pairs. rewrite loop_pairs_In, !select_In, !enumerate_In.
  rewrite is_creditor_true, is_debtor_true. tauto.
Qed.

Lemma nx_pairs_In cashouts i c1 j c2 :
  In ((i, c1), (j, c2)) (nx_pairs cashouts) <->
  ((i < length cashouts)%nat /\ c1 = cashout_at cashouts i /\ c1 < 0) /\
  ((j < length cashouts)%nat /\ c2 = cashout_at cashouts j /\ 0 < c2).
Proof.
  unfold nx_pairs. rewrite loop_pairs_In, !select_In, !enumerate_In.
  rewrite is_creditor_true, is_debtor_true. tauto.
Qed.

Lemma or_arc_payment_arc cashouts ps ws a :
  In a (map or_arc (combine ps ws)) ->
  (forall p, In p ps -> In p (or_pairs cashouts)) ->
  payment_arc cashouts a.
Proof.
  intros Hin Hps. apply in_map_iff in Hin.
  destruct Hin as [[[[i c1] [j c2]] w] [E Hin]]. subst a.
  apply in_combine_l in Hin. apply Hps in Hin. apply or_pairs_In in Hin.
  destruct Hin as [[Hi [E1 H1]] [Hj [E2 H2]]]. subst c1 c2.
  unfold payment_arc. simpl. auto.
Qed.

Lemma terminal_edges_In cashouts e :
  In e (terminal_edges (length cashouts) (length cashouts + 1) (enumerate cashouts)) ->
  source_edge cashouts e \/ sink_edge cashouts e.
Proof.
  unfold terminal_edges. rewrite in_flat_map. intros [[p c] [Hp Hin]].
  apply enumerate_In in Hp. destruct Hp as [Hp ->].
  unfold terminal_edge in Hin. simpl in Hin.
  destruct (cashout_at cashouts p <? 0) eqn:E1.
  - destruct Hin as [<-|[]]. left. apply Z.ltb_lt in E1.
    unfold source_edge. simpl. auto.
  - destruct (cashout_at cashouts p >? 0) eqn:E2; [|destruct Hin].
    destruct Hin as [<-|[]]. right. rewrite Z.gtb_ltb in E2. apply Z.ltb_lt in E2.
    unfold sink_edge. simpl. auto.
Qed.

Lemma nx_edge_payment_edge cashouts ps ws e :
  In e (map nx_edge (combine ps ws)) ->
  (forall p, In p ps -> In p (nx_pairs cashouts)) ->
  payment_edge cashouts e.
Proof.
  intros Hin Hps. apply in_map_iff in Hin.
  destruct Hin as [[[[i c1] [j c2]] w] [E Hin]]. subst e.
  apply in_combine_l in Hin. apply Hps in Hin. apply nx_pairs_In in Hin.
  destruct Hin as [[Hi [E1 H1]] [Hj [E2 H2]]]. subst c1 c2.
  unfold payment_edge. simpl. repeat split; auto. discriminate.
Qed.

Section Trials.

Variable rng : Type.
Variable randint : Z -> Z -> rng -> Z * rng.
Variable or_solve : SimpleMinCostFlow -> Status * list Z.
Variable nx_solve : DiGraph -> nat -> nat -> list Z.

Lemma or_build_arcs cashouts g a :
  In a (arcs (fst (or_build randint cashouts g))) -> payment_arc cashouts a.
Proof.
  rewrite or_build_eq. simpl. intros Hin.
  eapply or_arc_payment_arc; [exact Hin | auto].
Qed.

Lemma nx_build_edges cashouts g e :
  In e (fst (nx_build randint cashouts g)) ->
  source_edge cashouts e \/ sink_edge cashouts e \/ payment_edge cashouts e.
Proof.
  rewrite nx_build_eq. simpl. intros Hin. apply in_app_or in Hin.
  destruct Hin as [Hin|Hin].
  - apply terminal_edges_In in Hin. tauto.
  - right. right. eapply nx_edge_payment_edge; [exact Hin | auto].
Qed.

(** Unfolding a returning trial of the OR-tools backend. *)
Lemma find_settlement_or_returned cashouts t g s g' :
  find_settlement_or randint or_solve cashouts t g = (Returned s, g') ->
  exists flows,
    or_solve (fst (or_build randint cashouts g)) = (OPTIMAL, flows) /\
    s = or_extract (arcs_with_flow (fst (or_build randint cashouts g)) flows) [] /\
    g' = snd (or_build randint cashouts g).
Proof.
  unfold find_settlement_or. destruct (or_build randint cashouts g) as [m g1].
  destruct (or_solve m) as [status flows] eqn:Es. simpl.
  destruct status; simpl; intros H; inversion H; subst.
  exists flows. split; [exact Es | split; reflexivity].
Qed.

(** Unfolding a returning trial of the networkx backend. *)
Lemma find_settlement_nx_returned cashouts t g s g' :
  find_settlement_nx randint nx_solve cashouts t g = (Returned s, g') ->
  let graph := fst (nx_build randint cashouts g) in
  let source := length cashouts in
  let sink := (length cashouts + 1)%nat in
  has_node graph source = true /\ has_node graph sink = true /\
  s = nx_extract graph (nx_solve graph source sink) (enumerate cashouts) [] /\
  g' = snd (nx_build randint cashouts g).
Proof.
  unfold find_settlement_nx, max_flow_min_cost.
  destruct (nx_build randint cashouts g) as [graph g1]. simpl.
  destruct (has_node graph (length cashouts)); simpl;
    [|intros H; inversion H].
  destruct (has_node graph (length cashouts + 1)); simpl;
    [|intros H; inversion H].
  destruct (Nat.eqb (length cashouts) (length cashouts + 1)); simpl;
    intros H; inversion H; subst. repeat split; reflexivity.
Qed.

Lemma nx_extract_from_every_entry (P : nat -> nat -> Z -> Prop) from items acc :
  every_entry P acc ->
  (forall to f, In (to, f) items -> 0 < f -> P to from f) ->
  every_entry P (nx_extract_from from items acc).
Proof.
  revert acc. induction items as [|[to f] items IH]; intros acc Hacc Hall; simpl.
  - exact Hacc.
  - destruct (f <=? 0) eqn:Ef.
    + apply IH; [exact Hacc|]. intros to' f' Hin. apply Hall. right. exact Hin.
    + apply IH.
      * apply every_entry_append; [exact Hacc|].
        apply Hall; [left; reflexivity | apply Z.leb_gt in Ef; exact Ef].
      * intros to' f' Hin. apply Hall. right. exact Hin.
Qed.

Lemma nx_extract_every_entry (P : nat -> nat -> Z -> Prop) graph flows players acc :
  every_entry P acc ->
  (forall from c to f, In (from, c) players -> c < 0 ->
     In (to, f) (flow_items graph flows from) -> 0 < f -> P to from f) ->
  every_entry P (nx_extract graph flows players acc).
Proof.
  revert acc. induction players as [|[from c] players IH]; intros acc Hacc Hall; simpl.
  - exact Hacc.
  - destruct (c >=? 0) eqn:Ec.
    + apply IH; [exact Hacc|]. intros from' c' to f Hin. apply Hall. right. exact Hin.
    + apply IH.
      * apply nx_extract_from_every_entry; [exact Hacc|].
        intros to f Hin Hf. apply (Hall from c to f); auto.
        -- left. reflexivity.
        -- rewrite Z.geb_leb in Ec. apply Z.leb_gt in Ec. exact Ec.
      * intros from' c' to f Hin. apply Hall. right. exact Hin.
Qed.

Lemma flow_items_In graph flows u to f :
  In (to, f) (flow_items graph flows u) ->
  exists e, In e graph /\ src e = u /\ dst e = to.
Proof.
  unfold flow_items. intros Hin. apply in_map_iff in Hin.
  destruct Hin as [[e f'] [E Hin]]. inversion E; subst.
  apply filter_In in Hin. destruct Hin as [Hin Hs]. simpl in Hs.
  apply Nat.eqb_eq in Hs. apply in_combine_l in Hin. exists e. auto.
Qed.

Lemma find_settlement_or_positive cashouts t g s g' :
  find_settlement_or randint or_solve cashouts t g = (Returned s, g') ->
  amounts_positive s.
Proof.
  intros H. apply find_settlement_or_returned in H.
  destruct H as [flows [_ [-> _]]].
  refine (@or_extract_every_entry (fun _ _ a => 0 < a) _ _ _ _).
  - apply every_entry_nil.
  - intros a f _ Hf. exact Hf.
Qed.

Lemma find_settlement_nx_positive cashouts t g s g' :
  find_settlement_nx randint nx_solve cashouts t g = (Returned s, g') ->
  amounts_positive s.
Proof.
  intros H. apply find_settlement_nx_returned in H.
  destruct H as [_ [_ [-> _]]].
  refine (@nx_extract_every_entry (fun _ _ a => 0 < a) _ _ _ _ _ _).
  - apply every_entry_nil.
  - intros from c to f _ _ _ Hf. exact Hf.
Qed.

Lemma find_settlement_or_debtor_to_creditor cashouts t g s g' :
  find_settlement_or randint or_solve cashouts t g = (Returned s, g') ->
  debtor_to_creditor cashouts s.
Proof.
  intros H. apply find_settlement_or_returned in H.
  destruct H as [flows [_ [-> _]]].
  refine (@or_extract_every_entry
           (fun k d _ => (k < length cashouts)%nat /\ (d < length cashouts)%nat /\
                         0 < cashout_at cashouts k /\ cashout_at cashouts d < 0)
           _ _ _ _).
  - apply every_entry_nil.
  - intros a f Hin _. apply arcs_with_flow_In in Hin.
    apply or_build_arcs in Hin. unfold payment_arc in Hin. tauto.
Qed.

Lemma find_settlement_nx_debtor_to_creditor cashouts t g s g' :
  find_settlement_nx randint nx_solve cashouts t g = (Returned s, g') ->
  debtor_to_creditor cashouts s.
Proof.
  intros H. apply find_settlement_nx_returned in H.
  destruct H as [_ [_ [-> _]]].
  refine (@nx_extract_every_entry
           (fun k d _ => (k < length cashouts)%nat /\ (d < length cashouts)%nat /\
                         0 < cashout_at cashouts k /\ cashout_at cashouts d < 0)
           _ _ _ _ _ _).
  - apply every_entry_nil.
  - intros from c to f Hfrom Hc Hin _.
    apply enumerate_In in Hfrom. destruct Hfrom as [Hlt ->].
    apply flow_items_In in Hin. destruct Hin as [e [He [Hs Hd]]].
    apply nx_build_edges in He.
    destruct He as [[E _]|[[_ [_ [Hpos _]]]|[_ [Hd' [_ [Hpos _]]]]]]; subst.
    + lia.
    + lia.
    + auto.
Qed.

End Trials.

(** ** The pool *)

Section Pool.

Variable rng : Type.
Variable func : nat -> rng -> outcome (list (nat * list (nat * Z))) * rng.

Lemma mapstar_origin items g chunk g' s :
  mapstar func items g = (Returned chunk, g') -> In s chunk ->
  exists i g0 g1, func i g0 = (Returned s, g1).
Proof.
  revert g chunk. induction items as [|i items IH]; intros g chunk H Hin; simpl in H.
  - inversion H; subst. destruct Hin.
  - destruct (func i g) as [[s0|e] g1] eqn:E; [|discriminate].
    destruct (mapstar func items g1) as [[ss|e] g2] eqn:E'; [|discriminate].
    inversion H; subst. destruct Hin as [->|Hin].
    + exists i, g, g1. exact E.
    + apply (IH g1 ss E' Hin).
Qed.

Lemma run_schedule_origin tasks sched st chunk s :
  In (Returned chunk) (run_schedule func tasks sched st) -> In s chunk ->
  exists i g0 g1, func i g0 = (Returned s, g1).
Proof.
  revert st. induction sched as [|[w k] sched IH]; intros st Hin Hs; simpl in Hin.
  - destruct Hin.
  - destruct (mapstar func (nth k tasks []) (st w)) as [r g1] eqn:E.
    destruct Hin as [->|Hin].
    + eapply mapstar_origin; eassumption.
    + eapply IH; eassumption.
Qed.

Lemma arrived_In arrivals ss s :
  arrived arrivals = Some ss -> In s ss ->
  exists chunk, In (Returned chunk) arrivals /\ In s chunk.
Proof.
  revert ss. induction arrivals as [|[chunk|e] rest IH]; intros ss H Hin; simpl in H.
  - inversion H; subst. destruct Hin.
  - destruct (arrived rest) as [ss'|]; [|discriminate]. inversion H; subst.
    apply in_app_or in Hin. destruct Hin as [Hin|Hin].
    + exists chunk. split; [left; reflexivity | exact Hin].
    + destruct (IH ss' eq_refl Hin) as [c [H1 H2]].
      exists c. split; [right; exact H1 | exact H2].
  - discriminate.
Qed.

Lemma imap_unordered_origin env num_trials chunk_sz arrivals chunk s :
  imap_unordered env func num_trials chunk_sz = Returned arrivals ->
  In (Returned chunk) arrivals -> In s chunk ->
  exists i g0 g1, func i g0 = (Returned s, g1).
Proof.
  unfold imap_unordered. intros H Hin Hs.
  destruct (Nat.eqb chunk_sz 1).
  - inversion H; subst. eapply run_schedule_origin; eassumption.
  - destruct (chunk_sz <? 1)%nat; [discriminate|].
    inversion H; subst. eapply run_schedule_origin; eassumption.
Qed.

End Pool.

(** The settlement the search returns is the result of one of its trials. *)
Lemma find_best_settlement_origin (rng : Type)
  (finder : list Z -> nat -> rng -> outcome (list (nat * list (nat * Z))) * rng)
  cashouts num_trials (env : PoolEnv rng) s :
  find_best_settlement finder cashouts num_trials env = Returned (Some s) ->
  exists t g g', finder cashouts t g = (Returned s, g').
Proof.
  unfold find_best_settlement.
  destruct (imap_unordered env (finder cashouts) num_trials _) as [arrivals|e] eqn:Ei;
    [|discriminate].
  destruct (aggregate arrivals _) as [[c b]|e] eqn:Ea; [|discriminate].
  intros H. inversion H; subst.
  destruct (aggregate_returned _ _ Ea) as [ss Ess].
  rewrite (aggregate_arrived _ _ Ess) in Ea. inversion Ea as [Ef].
  destruct (fold_keep_best_origin ss
              ((length cashouts * length cashouts + 1)%nat, None)) as [E|[s' [Hin E]]].
  - rewrite Ef in E. simpl in E. discriminate.
  - rewrite Ef in E. simpl in E. inversion E; subst s'.
    destruct (arrived_In _ _ Ess Hin) as [chunk [Hc Hs]].
    eapply imap_unordered_origin; eassumption.
Qed.

(** ** Sums of flow over selected arcs *)

Lemma sum_where_app {A : Type} (keep : A -> bool) (l1 l2 : list (A * Z)) :
  sum_where keep (l1 ++ l2) = sum_where keep l1 + sum_where keep l2.
Proof.
  unfold sum_where. induction l1 as [|[a x] l1 IH]; simpl; [reflexivity|].
  destruct (keep a); lia.
Qed.

Lemma sum_where_none {A : Type} (keep : A -> bool) (l : list (A * Z)) :
  (forall a x, In (a, x) l -> keep a = false) -> sum_where keep l = 0.
Proof.
  unfold sum_where. induction l as [|[a x] l IH]; intros H; simpl; [reflexivity|].
  rewrite (H a x (or_introl eq_refl)). apply IH.
  intros a' x' Hin. apply (H a' x'). right. exact Hin.
Qed.

Lemma sum_where_ext {A : Type} (keep keep' : A -> bool) (l : list (A * Z)) :
  (forall a x, In (a, x) l -> keep a = keep' a) ->
  sum_where keep l = sum_where keep' l.
Proof.
  unfold sum_where. induction l as [|[a x] l IH]; intros H; simpl; [reflexivity|].
  rewrite (H a x (or_introl eq_refl)). rewrite IH; [reflexivity|].
  intros a' x' Hin. apply (H a' x'). right. exact Hin.
Qed.

Lemma outflow_sum_where al flows v :
  outflow al flows v = sum_where (fun a => Nat.eqb (Tail a) v) (combine al flows).
Proof. reflexivity. Qed.

Lemma inflow_sum_where al flows v :
  inflow al flows v = sum_where (fun a => Nat.eqb (Head a) v) (combine al flows).
Proof. reflexivity. Qed.

Lemma Forall2_combine_nonneg {A : Type} (cap : A -> Z) (l : list A) (flows : list Z) :
  Forall2 (fun a f => 0 <= f <= cap a) l flows ->
  Forall (fun af : A * Z => 0 <= snd af) (combine l flows).
Proof.
  induction 1 as [|a f l flows H _ IH]; simpl; constructor; [simpl; lia | exact IH].
Qed.

(** ** A feasible OR-tools flow is extracted to a settling settlement *)

Lemma feasible_settles cashouts al flows :
  (forall a, In a al -> payment_arc cashouts a) ->
  feasible (mkMCF al cashouts) flows ->
  settles cashouts (or_extract (arcs_with_flow (mkMCF al cashouts) flows) []).
Proof.
  intros Harcs [Hlen [Hcap Hcons]]. simpl in *.
  rewrite arcs_with_flow_combine by exact Hlen. simpl.
  pose proof (Forall2_combine_nonneg Capacity Hcap) as Hnn.
  intros p. rewrite or_extract_received, or_extract_paid by exact Hnn.
  change (received [] p) with 0. change (paid [] p) with 0.
  specialize (Hcons p). rewrite outflow_sum_where, inflow_sum_where in Hcons.
  fold (sum_where (fun a => Nat.eqb (Tail a) p) (combine al flows)).
  fold (sum_where (fun a => Nat.eqb (Head a) p) (combine al flows)).
  fold (cashout_at cashouts p) in Hcons.
  assert (Hout : ~ 0 < cashout_at cashouts p ->
                 sum_where (fun a => Nat.eqb (Tail a) p) (combine al flows) = 0).
  { intros Hn. apply sum_where_none. intros a x Hin.
    apply in_combine_l in Hin. apply Harcs in Hin.
    destruct Hin as [_ [_ [Ht _]]].
    destruct (Nat.eqb (Tail a) p) eqn:E; [|reflexivity].
    apply Nat.eqb_eq in E. subst p. contradiction. }
  assert (Hin : ~ cashout_at cashouts p < 0 ->
                sum_where (fun a => Nat.eqb (Head a) p) (combine al flows) = 0).
  { intros Hn. apply sum_where_none. intros a x Hin.
    apply in_combine_l in Hin. apply Harcs in Hin.
    destruct Hin as [_ [_ [_ [Hh _]]]].
    destruct (Nat.eqb (Head a) p) eqn:E; [|reflexivity].
    apply Nat.eqb_eq in E. subst p. contradiction. }
  destruct (Z.lt_trichotomy (cashout_at cashouts p) 0) as [Hneg|[Hz|Hpos]].
  - rewrite Hout in * by lia. lia.
  - rewrite Hout in * by lia. rewrite Hin in * by lia. lia.
  - rewrite Hin in * by lia. lia.
Qed.

(** ** A feasible flow always exists for a closed ledger

    The greedy transport plan: row after row, each row amount is spread over
    the columns' remaining amounts from the left. *)

Lemma zsum_app l1 l2 : zsum (l1 ++ l2) = zsum l1 + zsum l2.
Proof. unfold zsum. induction l1; simpl; lia. Qed.

Lemma zsum_nonneg l : Forall (fun x => 0 <= x) l -> 0 <= zsum l.
Proof. unfold zsum. induction 1; simpl; lia. Qed.

Lemma zsum_zero l : Forall (fun x => 0 <= x) l -> zsum l = 0 -> Forall (fun x => x = 0) l.
Proof.
  induction 1 as [|x l Hx Hl IH]; intros Hs; constructor.
  - pose proof (zsum_nonneg Hl). unfold zsum in *. simpl in Hs. lia.
  - apply IH. pose proof (zsum_nonneg Hl). unfold zsum in *. simpl in Hs. lia.
Qed.

Lemma take_length c ds : length (take c ds) = length ds.
Proof. revert c. induction ds; intros c; simpl; [reflexivity | rewrite IHds; reflexivity]. Qed.

Lemma take_bounds c ds :
  0 <= c -> Forall (fun x => 0 <= x) ds ->
  Forall2 (fun d y => 0 <= y <= d /\ y <= c) ds (take c ds).
Proof.
  intros Hc Hds. revert c Hc. induction Hds as [|d ds Hd _ IH]; intros c Hc; simpl.
  - constructor.
  - constructor; [lia|].
    assert (0 <= c - Z.min c d) by lia.
    specialize (IH _ H). clear -IH Hc Hd.
    induction IH as [|x y l l' Hxy _ IH']; constructor; [lia | exact IH'].
Qed.

Lemma take_sum c ds :
  0 <= c -> Forall (fun x => 0 <= x) ds -> c <= zsum ds -> zsum (take c ds) = c.
Proof.
  intros Hc Hds. revert c Hc. induction Hds as [|d ds Hd Hds IH]; intros c Hc Hle.
  - unfold zsum in *. simpl in *. lia.
  - pose proof (zsum_nonneg Hds) as Hnn.
    unfold zsum in *. simpl in *. rewrite IH; lia.
Qed.

Lemma minus_length a b : length b = length a -> length (minus a b) = length a.
Proof.
  revert b. induction a as [|x a IH]; intros [|y b] H; simpl in *; try discriminate;
    [reflexivity|]. rewrite IH; lia.
Qed.

Lemma minus_sum a b : length b = length a -> zsum (minus a b) = zsum a - zsum b.
Proof.
  revert b. induction a as [|x a IH]; intros [|y b] H; simpl in *; try discriminate;
    [reflexivity|]. unfold zsum in *. simpl. rewrite IH; lia.
Qed.

Lemma minus_take_nonneg c ds :
  0 <= c -> Forall (fun x => 0 <= x) ds ->
  Forall (fun x => 0 <= x) (minus ds (take c ds)).
Proof.
  intros Hc Hds. revert c Hc. induction Hds as [|d ds Hd _ IH]; intros c Hc; simpl.
  - constructor.
  - constructor; [lia|]. apply IH. lia.
Qed.

Lemma minus_take_le c ds :
  0 <= c -> Forall (fun x => 0 <= x) ds ->
  Forall2 (fun d d' => d' <= d) ds (minus ds (take c ds)).
Proof.
  intros Hc Hds. revert c Hc. induction Hds as [|d ds Hd _ IH]; intros c Hc; simpl.
  - constructor.
  - constructor; [lia|]. apply IH. lia.
Qed.

(** Every entry of the plan is within its row's and its column's amount. *)
Lemma transport_bounds rs cs :
  Forall (fun x => 0 <= x) rs -> Forall (fun x => 0 <= x) cs ->
  Forall2 (fun r row => Forall2 (fun c y => 0 <= y <= Z.min r c) cs row)
          rs (transport rs cs).
Proof.
  intros Hrs. revert cs. induction Hrs as [|r rs Hr _ IH]; intros cs Hcs; simpl.
  - constructor.
  - constructor.
    + pose proof (take_bounds Hr Hcs) as Hb. clear -Hb.
      induction Hb as [|x y l l' Hxy _ IH']; constructor; [lia | exact IH'].
    + specialize (IH _ (minus_take_nonneg Hr Hcs)).
      pose proof (minus_take_le Hr Hcs) as Hle.
      revert IH. generalize (transport rs (minus cs (take r cs))).
      generalize (minus cs (take r cs)) Hle. clear.
      intros cs' Hle rows Hrows.
      induction Hrows as [|r row rs rows Hrow _ IH']; constructor; [|exact IH'].
      clear -Hle Hrow. revert row Hrow.
      induction Hle as [|c c' cs cs' Hc _ IH'']; intros row Hrow.
      * inversion Hrow. constructor.
      * inversion Hrow; subst. constructor; [lia|]. apply IH''. assumption.
Qed.

(** Every row of the plan sums to its row amount. *)
Lemma transport_rows rs cs :
  Forall (fun x => 0 <= x) rs -> Forall (fun x => 0 <= x) cs ->
  zsum rs = zsum cs ->
  Forall2 (fun r row => zsum row = r /\ length row = length cs) rs (transport rs cs).
Proof.
  intros Hrs. revert cs. induction Hrs as [|r rs Hr Hrs' IH]; intros cs Hcs Hsum; simpl.
  - constructor.
  - pose proof (zsum_nonneg Hrs') as Hnn.
    assert (Hle : r <= zsum cs) by (unfold zsum in *; simpl in Hsum; lia).
    constructor.
    + split; [apply take_sum; assumption | apply take_length].
    + assert (Hl : length (minus cs (take r cs)) = length cs)
        by (apply minus_length, take_length).
      rewrite <- Hl. apply IH.
      * apply minus_take_nonneg; assumption.
      * rewrite minus_sum by apply take_length.
        rewrite take_sum by assumption. unfold zsum in *. simpl in Hsum. lia.
Qed.

Lemma pick_minus v keys a b :
  length b = length a -> pick v keys (minus a b) = pick v keys a - pick v keys b.
Proof.
  revert a b. induction keys as [|k keys IH]; intros [|x a] [|y b] H; simpl in *;
    try discriminate; try reflexivity.
  rewrite IH by lia. destruct (Nat.eqb k v); lia.
Qed.

Lemma pick_zero v keys vals : Forall (fun x => x = 0) vals -> pick v keys vals = 0.
Proof.
  intros H. revert keys. induction H as [|x vals Hx _ IH]; intros [|k keys]; simpl;
    try reflexivity. rewrite IH. subst x. destruct (Nat.eqb k v); reflexivity.
Qed.

(** Every column of the plan sums to its column amount. *)
Lemma transport_cols v keys rs cs :
  Forall (fun x => 0 <= x) rs -> Forall (fun x => 0 <= x) cs ->
  zsum rs = zsum cs ->
  zsum (map (pick v keys) (transport rs cs)) = pick v keys cs.
Proof.
  intros Hrs. revert cs. induction Hrs as [|r rs Hr Hrs' IH]; intros cs Hcs Hsum; simpl.
  - symmetry. apply pick_zero. apply zsum_zero; [exact Hcs|].
    unfold zsum in *. simpl in Hsum. lia.
  - pose proof (zsum_nonneg Hrs') as Hnn.
    assert (Hle : r <= zsum cs) by (unfold zsum in *; simpl in Hsum; lia).
    change (pick v keys (take r cs)
            + zsum (map (pick v keys) (transport rs (minus cs (take r cs))))
            = pick v keys cs).
    rewrite IH.
    + rewrite pick_minus by apply take_length. lia.
    + apply minus_take_nonneg; assumption.
    + rewrite minus_sum by apply take_length.
      rewrite take_sum by assumption. unfold zsum in *. simpl in Hsum. lia.
Qed.

Lemma transport_length rs cs : length (transport rs cs) = length rs.
Proof.
  revert cs. induction rs as [|r rs IH]; intros cs; simpl; [reflexivity|].
  rewrite IH. reflexivity.
Qed.

Lemma transport_row_length rs cs :
  Forall (fun row => length row = length cs) (transport rs cs).
Proof.
  revert cs. induction rs as [|r rs IH]; intros cs; simpl; constructor.
  - apply take_length.
  - specialize (IH (minus cs (take r cs))).
    rewrite minus_length in IH by apply take_length. exact IH.
Qed.

(** *** The plan laid out along the loop pairs *)

Section Plan.

Variables ra ca : nat * Z -> Z.
Variable cols : list (nat * Z).

Definition pairs_of (rows : list (nat * Z)) : list ((nat * Z) * (nat * Z)) :=
  flat_map (fun r => map (pair r) cols) rows.

Lemma pairs_of_length rows (M : list (list Z)) :
  length M = length rows -> Forall (fun row => length row = length cols) M ->
  length (concat M) = length (pairs_of rows).
Proof.
  revert M. induction rows as [|r rows IH]; intros [|row M] Hl HM; simpl in *;
    try discriminate; [reflexivity|].
  inversion HM; subst. rewrite !length_app, length_map. rewrite IH; [lia|lia|assumption].
Qed.

Lemma sum_where_row (r : nat * Z) (keep : (nat * Z) * (nat * Z) -> bool)
  (b : bool) (cs : list (nat * Z)) (row : list Z) :
  (forall c, keep (r, c) = b) -> length row = length cs ->
  sum_where keep (combine (map (pair r) cs) row) = if b then zsum row else 0.
Proof.
  intros Hk. revert row. induction cs as [|c cs IH]; intros [|y row] Hl; simpl in *;
    try discriminate.
  - destruct b; reflexivity.
  - unfold sum_where in *. simpl. rewrite Hk. rewrite IH by lia.
    destruct b; unfold zsum; simpl; lia.
Qed.

Lemma sum_where_col (r : nat * Z) (v : nat) (cs : list (nat * Z)) (row : list Z) :
  sum_where (fun p : (nat * Z) * (nat * Z) => Nat.eqb (fst (snd p)) v)
            (combine (map (pair r) cs) row)
  = pick v (map fst cs) row.
Proof.
  revert row. induction cs as [|c cs IH]; intros [|y row]; simpl; try reflexivity.
  unfold sum_where in *. simpl. rewrite IH. destruct (Nat.eqb (fst c) v); lia.
Qed.

Lemma plan_row_sums v rows (M : list (list Z)) :
  Forall2 (fun r row => zsum row = ra r /\ length row = length cols) rows M ->
  sum_where (fun p : (nat * Z) * (nat * Z) => Nat.eqb (fst (fst p)) v)
            (combine (pairs_of rows) (concat M))
  = pick v (map fst rows) (map ra rows).
Proof.
  induction 1 as [|r row rows M [Hs Hl] _ IH]; simpl; [reflexivity|].
  rewrite combine_app_eq by (rewrite length_map; exact Hl).
  rewrite sum_where_app, IH.
  rewrite sum_where_row with (b := Nat.eqb (fst r) v)
    by (intros; reflexivity || exact Hl).
  rewrite Hs. destruct (Nat.eqb (fst r) v); lia.
Qed.

Lemma plan_col_sums v rows (M : list (list Z)) :
  length M = length rows -> Forall (fun row => length row = length cols) M ->
  sum_where (fun p : (nat * Z) * (nat * Z) => Nat.eqb (fst (snd p)) v)
            (combine (pairs_of rows) (concat M))
  = zsum (map (pick v (map fst cols)) M).
Proof.
  revert M. induction rows as [|r rows IH]; intros [|row M] Hl HM; simpl in *;
    try discriminate; [reflexivity|].
  inversion HM; subst.
  rewrite combine_app_eq by (rewrite length_map; assumption).
  rewrite sum_where_app, IH by (lia || assumption).
  rewrite sum_where_col. reflexivity.
Qed.

Lemma plan_bounds rows (M : list (list Z)) :
  Forall2 (fun r row =>
             Forall2 (fun c y => 0 <= y <= Z.min r c) (map ca cols) row)
          (map ra rows) M ->
  Forall2 (fun (p : (nat * Z) * (nat * Z)) y =>
             0 <= y <= Z.min (ra (fst p)) (ca (snd p)))
          (pairs_of rows) (concat M).
Proof.
  revert M. induction rows as [|r rows IH]; intros M H; simpl in *.
  - inversion H. constructor.
  - inversion H as [|? row ? M' Hrow Hrest]; subst. simpl.
    apply Forall2_app; [|apply IH; exact Hrest].
    clear -Hrow. revert row Hrow. induction cols as [|c cs IHc]; intros row Hrow;
      simpl in *; inversion Hrow; subst; constructor; [simpl; lia | apply IHc; assumption].
Qed.

End Plan.

(** *** Picking a player's amount out of the selected players *)

Lemma pick_select keep amt start l v :
  pick v (map fst (select keep (enumerate_from start l)))
         (map (fun ic : nat * Z => amt (snd ic)) (select keep (enumerate_from start l)))
  = if (v <? start)%nat then 0 else amount_at keep amt l (v - start).
Proof.
  unfold enumerate_from, select. revert start.
  induction l as [|x l IH]; intros start; simpl.
  - unfold amount_at. destruct (v <? start)%nat; [reflexivity|].
    destruct (v - start)%nat; reflexivity.
  - assert (Htail :
      pick v
        (map fst (filter (fun ic : nat * Z => keep (snd ic))
                    (combine (seq (S start) (length l)) l)))
        (map (fun ic : nat * Z => amt (snd ic))
           (filter (fun ic : nat * Z => keep (snd ic))
              (combine (seq (S start) (length l)) l)))
      = if (v <? S start)%nat then 0 else amount_at keep amt l (v - S start))
      by apply IH.
    destruct (v <? start)%nat eqn:E1.
    + apply Nat.ltb_lt in E1.
      assert (E2 : (v <? S start)%nat = true) by (apply Nat.ltb_lt; lia).
      rewrite E2 in Htail.
      destruct (keep x); simpl; [|exact Htail].
      rewrite Htail. destruct (Nat.eqb start v) eqn:E3; [|reflexivity].
      apply Nat.eqb_eq in E3. lia.
    + apply Nat.ltb_ge in E1. destruct (Nat.eq_dec v start) as [->|Hne].
      * assert (E2 : (start <? S start)%nat = true) by (apply Nat.ltb_lt; lia).
        rewrite E2 in Htail. rewrite Nat.sub_diag. unfold amount_at. simpl.
        destruct (keep x); simpl; [|exact Htail].
        rewrite Htail, Nat.eqb_refl. lia.
      * assert (E2 : (v <? S start)%nat = false) by (apply Nat.ltb_ge; lia).
        rewrite E2 in Htail.
        replace (v - start)%nat with (S (v - S start)) by lia.
        unfold amount_at at 1. simpl. fold (amount_at keep amt l (v - S start)).
        destruct (keep x); simpl; [|exact Htail].
        rewrite Htail. destruct (Nat.eqb start v) eqn:E3; [|reflexivity].
        apply Nat.eqb_eq in E3. lia.
Qed.

Lemma amount_at_cashout keep amt l k :
  keep 0 = false ->
  amount_at keep amt l k
  = if keep (cashout_at l k) then amt (cashout_at l k) else 0.
Proof.
  intros H0. unfold amount_at, cashout_at.
  destruct (nth_error l k) as [c|] eqn:E.
  - rewrite (nth_error_nth _ _ 0 E). reflexivity.
  - apply nth_error_None in E. rewrite nth_overflow by exact E.
    rewrite H0. reflexivity.
Qed.

Lemma pick_creditors cashouts v :
  pick v (map fst (select is_creditor (enumerate cashouts)))
         (map snd (select is_creditor (enumerate cashouts)))
  = Z.max 0 (cashout_at cashouts v).
Proof.
  unfold enumerate.
  transitivity (amount_at is_creditor (fun c => c) cashouts (v - 0)).
  { exact (pick_select is_creditor (fun c => c) 0 cashouts v). }
  rewrite Nat.sub_0_r, amount_at_cashout by reflexivity.
  destruct (is_creditor (cashout_at cashouts v)) eqn:E.
  - apply is_creditor_true in E. lia.
  - assert (~ 0 < cashout_at cashouts v)
      by (intros H; apply is_creditor_true in H; congruence). lia.
Qed.

Lemma pick_debtors cashouts v :
  pick v (map fst (select is_debtor (enumerate cashouts)))
         (map (fun ic : nat * Z => - snd ic) (select is_debtor (enumerate cashouts)))
  = Z.max 0 (- cashout_at cashouts v).
Proof.
  unfold enumerate.
  transitivity (amount_at is_debtor Z.opp cashouts (v - 0)).
  { exact (pick_select is_debtor Z.opp 0 cashouts v). }
  rewrite Nat.sub_0_r, amount_at_cashout by reflexivity.
  destruct (is_debtor (cashout_at cashouts v)) eqn:E.
  - apply is_debtor_true in E. lia.
  - assert (~ cashout_at cashouts v < 0)
      by (intros H; apply is_debtor_true in H; congruence). lia.
Qed.

Lemma select_totals start l :
  zsum (map snd (select is_creditor (enumerate_from start l)))
  - zsum (map (fun ic : nat * Z => - snd ic) (select is_debtor (enumerate_from start l)))
  = sum_cashouts l.
Proof.
  unfold enumerate_from, select, sum_cashouts. revert start.
  induction l as [|x l IH]; intros start; simpl; [reflexivity|].
  specialize (IH (S start)).
  destruct (is_creditor x) eqn:Ec; destruct (is_debtor x) eqn:Ed; simpl;
    unfold zsum in *; simpl.
  - apply is_creditor_true in Ec. apply is_debtor_true in Ed. lia.
  - lia.
  - lia.
  - assert (~ 0 < x) by (intros Hx; apply is_creditor_true in Hx; congruence).
    assert (~ x < 0) by (intros Hx; apply is_debtor_true in Hx; congruence).
    lia.
Qed.

Lemma select_creditors_nonneg start l :
  Forall (fun x => 0 <= x) (map snd (select is_creditor (enumerate_from start l))).
Proof.
  apply Forall_forall. intros x Hin. apply in_map_iff in Hin.
  destruct Hin as [[i c] [<- Hin]]. apply select_In in Hin.
  destruct Hin as [_ Hc]. apply is_creditor_true in Hc. simpl. lia.
Qed.

Lemma select_debtors_nonneg start l :
  Forall (fun x => 0 <= x)
    (map (fun ic : nat * Z => - snd ic) (select is_debtor (enumerate_from start l))).
Proof.
  apply Forall_forall. intros x Hin. apply in_map_iff in Hin.
  destruct Hin as [[i c] [<- Hin]]. apply select_In in Hin.
  destruct Hin as [_ Hc]. apply is_debtor_true in Hc. simpl. lia.
Qed.

Lemma sum_where_map_combine {P A : Type} (h : P * Z -> A) (keep : A -> bool)
  (keep' : P -> bool) (ps : list P) (ws flows : list Z) :
  (forall p w, keep (h (p, w)) = keep' p) -> length ws = length ps ->
  sum_where keep (combine (map h (combine ps ws)) flows)
  = sum_where keep' (combine ps flows).
Proof.
  intros Hk. revert ws flows.
  induction ps as [|p ps IH]; intros [|w ws] flows Hl; simpl in *; try discriminate;
    [reflexivity|].
  destruct flows as [|x flows]; [reflexivity|].
  unfold sum_where in *. simpl. rewrite Hk. rewrite IH by lia. reflexivity.
Qed.

Lemma Forall2_map_combine {P A : Type} (h : P * Z -> A) (Q : P -> Z -> Prop)
  (R : A -> Z -> Prop) (ps : list P) (ws flows : list Z) :
  (forall p w y, Q p y -> R (h (p, w)) y) -> length ws = length ps ->
  Forall2 Q ps flows -> Forall2 R (map h (combine ps ws)) flows.
Proof.
  intros HQR Hl H. revert ws Hl.
  induction H as [|p y ps flows Hpy _ IH]; intros [|w ws] Hl; simpl in *;
    try discriminate; constructor.
  - apply HQR. exact Hpy.
  - apply IH. lia.
Qed.

Lemma Forall2_map_left {A B C : Type} (f : A -> B) (Q : B -> C -> Prop)
  (l : list A) (M : list C) :
  Forall2 Q (map f l) M -> Forall2 (fun a c => Q (f a) c) l M.
Proof.
  revert M. induction l as [|a l IH]; intros M H; simpl in H; inversion H; subst;
    constructor; [assumption | apply IH; assumption].
Qed.

Lemma transport_rows_keyed (ra ca : nat * Z -> Z) (rows cols : list (nat * Z)) :
  Forall (fun x => 0 <= x) (map ra rows) -> Forall (fun x => 0 <= x) (map ca cols) ->
  zsum (map ra rows) = zsum (map ca cols) ->
  Forall2 (fun r row => zsum row = ra r /\ length row = length cols) rows
          (transport (map ra rows) (map ca cols)).
Proof.
  intros Hr Hc Hs. pose proof (transport_rows Hr Hc Hs) as H.
  rewrite length_map in H. apply Forall2_map_left in H. exact H.
Qed.

Lemma transport_row_length_keyed (ra ca : nat * Z -> Z) (rows cols : list (nat * Z)) :
  Forall (fun row => length row = length cols)
         (transport (map ra rows) (map ca cols)).
Proof.
  pose proof (transport_row_length (map ra rows) (map ca cols)) as H.
  rewrite length_map in H. exact H.
Qed.

Lemma or_pairs_pairs_of cashouts :
  or_pairs cashouts
  = pairs_of (select is_debtor (enumerate cashouts))
             (select is_creditor (enumerate cashouts)).
Proof. reflexivity. Qed.

Lemma or_plan_length cashouts : length (or_plan cashouts) = length (or_pairs cashouts).
Proof.
  unfold or_plan. rewrite or_pairs_pairs_of. apply pairs_of_length.
  - rewrite transport_length, length_map. reflexivity.
  - apply transport_row_length_keyed.
Qed.

(** For a closed ledger the graph of [find_settlement_or] carries a feasible
    flow, whatever the drawn costs. *)
Lemma or_plan_feasible cashouts ws :
  balanced cashouts -> length ws = length (or_pairs cashouts) ->
  feasible (mkMCF (map or_arc (combine (or_pairs cashouts) ws)) cashouts)
           (or_plan cashouts).
Proof.
  intros Hbal Hws.
  set (rows := select is_creditor (enumerate cashouts)).
  set (cols := select is_debtor (enumerate cashouts)).
  assert (Hr : Forall (fun x => 0 <= x) (map snd rows))
    by apply select_creditors_nonneg.
  assert (Hc : Forall (fun x => 0 <= x) (map (fun ic : nat * Z => - snd ic) cols))
    by apply select_debtors_nonneg.
  assert (Hsum : zsum (map snd rows) = zsum (map (fun ic : nat * Z => - snd ic) cols)).
  { pose proof (select_totals 0 cashouts) as H. unfold balanced in Hbal.
    fold (enumerate cashouts) in H. fold rows cols in H. lia. }
  unfold feasible. simpl. split; [|split].
  - rewrite or_plan_length, length_map, length_combine. lia.
  - apply Forall2_map_combine
      with (Q := fun (p : (nat * Z) * (nat * Z)) y =>
                   0 <= y <= Z.min (snd (fst p)) (- snd (snd p))).
    + intros [[i c1] [j c2]] w y H. simpl in *. exact H.
    + exact Hws.
    + unfold or_plan. rewrite or_pairs_pairs_of. fold rows cols.
      apply (plan_bounds snd (fun ic : nat * Z => - snd ic)).
      apply transport_bounds; assumption.
  - intros v. rewrite outflow_sum_where, inflow_sum_where.
    rewrite (sum_where_map_combine or_arc _
               (fun p : (nat * Z) * (nat * Z) => Nat.eqb (fst (fst p)) v))
      by (try exact Hws; intros [[i c1] [j c2]] w; reflexivity).
    rewrite (sum_where_map_combine or_arc _
               (fun p : (nat * Z) * (nat * Z) => Nat.eqb (fst (snd p)) v))
      by (try exact Hws; intros [[i c1] [j c2]] w; reflexivity).
    unfold or_plan. rewrite or_pairs_pairs_of. fold rows cols.
    rewrite (plan_row_sums snd) by (apply transport_rows_keyed; assumption).
    rewrite plan_col_sums
      by (try apply transport_row_length_keyed;
          rewrite transport_length, length_map; reflexivity).
    rewrite transport_cols by assumption.
    unfold rows, cols. rewrite pick_creditors, pick_debtors.
    fold (cashout_at cashouts v). lia.
Qed.

(** ** The networkx extractor *)

Lemma nx_extract_from_received from items acc k :
  Forall (fun tf : nat * Z => 0 <= snd tf) items ->
  received (nx_extract_from from items acc) k
  = received acc k + sum_where (fun to => Nat.eqb to k) items.
Proof.
  unfold sum_where. revert acc.
  induction items as [|[to f] items IH]; intros acc Hnn; simpl.
  - lia.
  - inversion Hnn as [|? ? Hf Hrest]; subst. simpl in Hf.
    destruct (f <=? 0) eqn:Ef.
    + apply Z.leb_le in Ef. assert (f = 0) by lia. subst f.
      rewrite IH by assumption. destruct (Nat.eqb to k); lia.
    + rewrite IH by assumption. rewrite received_append. simpl.
      destruct (Nat.eqb to k); lia.
Qed.

Lemma nx_extract_from_paid from items acc d :
  Forall (fun tf : nat * Z => 0 <= snd tf) items ->
  paid (nx_extract_from from items acc) d
  = paid acc d + (if Nat.eqb from d then zsum (map snd items) else 0).
Proof.
  unfold zsum. revert acc.
  induction items as [|[to f] items IH]; intros acc Hnn; simpl.
  - destruct (Nat.eqb from d); lia.
  - inversion Hnn as [|? ? Hf Hrest]; subst. simpl in Hf.
    destruct (f <=? 0) eqn:Ef.
    + apply Z.leb_le in Ef. assert (f = 0) by lia. subst f.
      rewrite IH by assumption. destruct (Nat.eqb from d); lia.
    + rewrite IH by assumption. rewrite paid_append. simpl.
      destruct (Nat.eqb from d); lia.
Qed.

Lemma nx_extract_from_cost from items acc :
  (cost_of (nx_extract_from from items acc) <= cost_of acc + length items)%nat.
Proof.
  revert acc. induction items as [|[to f] items IH]; intros acc; simpl.
  - lia.
  - destruct (f <=? 0).
    + specialize (IH acc). lia.
    + specialize (IH (append_payment to (from, f) acc)).
      rewrite cost_of_append in IH. lia.
Qed.

Lemma flow_items_nonneg graph flows u :
  Forall (fun ef : Edge * Z => 0 <= snd ef) (combine graph flows) ->
  Forall (fun tf : nat * Z => 0 <= snd tf) (flow_items graph flows u).
Proof.
  unfold flow_items. intros H. induction H as [|[e f] l Hf _ IH]; simpl.
  - constructor.
  - destruct (Nat.eqb (src e) u); simpl; [constructor; assumption | assumption].
Qed.

Lemma flow_items_to graph flows u k :
  sum_where (fun to => Nat.eqb to k) (flow_items graph flows u)
  = sum_where (fun e => Nat.eqb (src e) u && Nat.eqb (dst e) k) (combine graph flows).
Proof.
  unfold flow_items, sum_where.
  induction (combine graph flows) as [|[e f] l IH]; simpl; [reflexivity|].
  destruct (Nat.eqb (src e) u); simpl; [|exact IH].
  rewrite IH. reflexivity.
Qed.

Lemma flow_items_total graph flows u :
  zsum (map snd (flow_items graph flows u))
  = sum_where (fun e => Nat.eqb (src e) u) (combine graph flows).
Proof.
  unfold flow_items, sum_where, zsum.
  induction (combine graph flows) as [|[e f] l IH]; simpl; [reflexivity|].
  destruct (Nat.eqb (src e) u); simpl; [|exact IH].
  rewrite IH. reflexivity.
Qed.

Lemma nx_extract_received graph flows players acc k :
  Forall (fun ef : Edge * Z => 0 <= snd ef) (combine graph flows) ->
  received (nx_extract graph flows players acc) k
  = received acc k
    + zsum (map (fun dc : nat * Z =>
                   sum_where (fun e => Nat.eqb (src e) (fst dc) && Nat.eqb (dst e) k)
                             (combine graph flows))
                (select is_debtor players)).
Proof.
  intros Hnn. unfold select. revert acc.
  induction players as [|[d c] players IH]; intros acc; simpl.
  - unfold zsum. simpl. lia.
  - replace (is_debtor c) with (negb (c >=? 0)) by reflexivity.
    destruct (c >=? 0); simpl.
    + apply IH.
    + rewrite IH. rewrite nx_extract_from_received
        by (apply flow_items_nonneg; exact Hnn).
      rewrite flow_items_to. unfold zsum. simpl. lia.
Qed.

Lemma nx_extract_paid graph flows players acc d :
  Forall (fun ef : Edge * Z => 0 <= snd ef) (combine graph flows) ->
  paid (nx_extract graph flows players acc) d
  = paid acc d
    + pick d (map fst (select is_debtor players))
        (map (fun dc : nat * Z =>
                sum_where (fun e => Nat.eqb (src e) (fst dc)) (combine graph flows))
             (select is_debtor players)).
Proof.
  intros Hnn. unfold select. revert acc.
  induction players as [|[d' c] players IH]; intros acc; simpl.
  - lia.
  - replace (is_debtor c) with (negb (c >=? 0)) by reflexivity.
    destruct (c >=? 0); simpl.
    + apply IH.
    + rewrite IH. rewrite nx_extract_from_paid
        by (apply flow_items_nonneg; exact Hnn).
      rewrite flow_items_total. destruct (Nat.eqb d' d); lia.
Qed.

Lemma nx_extract_cost graph flows players acc :
  (cost_of (nx_extract graph flows players acc)
   <= cost_of acc + length players * length graph)%nat.
Proof.
  revert acc. induction players as [|[d c] players IH]; intros acc; simpl.
  - lia.
  - destruct (c >=? 0).
    + specialize (IH acc). lia.
    + specialize (IH (nx_extract_from d (flow_items graph flows d) acc)).
      pose proof (nx_extract_from_cost d (flow_items graph flows d) acc) as Hc.
      assert (length (flow_items graph flows d) <= length graph)%nat.
      { unfold flow_items. rewrite length_map.
        etransitivity; [apply filter_length_le|].
        rewrite length_combine. lia. }
      lia.
Qed.

(** *** Splitting a sum by the source node *)

Lemma sum_where_or_disjoint {A : Type} (k1 k2 : A -> bool) (l : list (A * Z)) :
  (forall a x, In (a, x) l -> k1 a = true -> k2 a = false) ->
  sum_where k1 l + sum_where k2 l = sum_where (fun a => k1 a || k2 a) l.
Proof.
  unfold sum_where. induction l as [|[a x] l IH]; intros H; simpl; [reflexivity|].
  assert (IH' := IH (fun a' x' Hin => H a' x' (or_intror Hin))).
  specialize (H a x (or_introl eq_refl)).
  destruct (k1 a) eqn:E1; simpl.
  - rewrite (H eq_refl). lia.
  - destruct (k2 a); lia.
Qed.

Lemma mem_true v keys : mem v keys = true <-> In v keys.
Proof.
  unfold mem. rewrite existsb_exists. split.
  - intros [x [Hin E]]. apply Nat.eqb_eq in E. subst. exact Hin.
  - intros Hin. exists v. split; [exact Hin | apply Nat.eqb_refl].
Qed.

Lemma sum_by_source {A : Type} (key : A -> nat) (q : A -> bool) (keys : list nat)
  (l : list (A * Z)) :
  NoDup keys ->
  zsum (map (fun d => sum_where (fun a => Nat.eqb (key a) d && q a) l) keys)
  = sum_where (fun a => mem (key a) keys && q a) l.
Proof.
  induction 1 as [|d keys Hnin Hnd IH]; simpl.
  - unfold zsum. simpl. symmetry. apply sum_where_none. reflexivity.
  - change (sum_where (fun a => Nat.eqb (key a) d && q a) l
            + zsum (map (fun d0 => sum_where (fun a => Nat.eqb (key a) d0 && q a) l) keys)
            = sum_where (fun a => (Nat.eqb (key a) d || mem (key a) keys) && q a) l).
    rewrite IH. rewrite sum_where_or_disjoint.
    + apply sum_where_ext. intros a x _.
      destruct (Nat.eqb (key a) d), (mem (key a) keys), (q a); reflexivity.
    + intros a x _ H1. apply andb_true_iff in H1. destruct H1 as [H1 _].
      apply Nat.eqb_eq in H1. subst d.
      destruct (mem (key a) keys) eqn:E; [|reflexivity].
      apply mem_true in E. contradiction.
Qed.

Lemma pick_keyed (G : nat -> Z) (v : nat) (keys : list nat) :
  NoDup keys -> pick v keys (map G keys) = if mem v keys then G v else 0.
Proof.
  induction 1 as [|d keys Hnin Hnd IH]; simpl; [reflexivity|].
  rewrite IH. rewrite (Nat.eqb_sym v d).
  destruct (Nat.eqb d v) eqn:E; simpl.
  - apply Nat.eqb_eq in E. subst d.
    destruct (mem v keys) eqn:E'; [|lia]. apply mem_true in E'. contradiction.
  - lia.
Qed.

Lemma NoDup_select_keys keep start l :
  NoDup (map fst (select keep (enumerate_from start l))).
Proof.
  unfold select, enumerate_from. revert start.
  induction l as [|x l IH]; intros start; simpl; [constructor|].
  destruct (keep x); simpl; [|apply IH].
  constructor; [|apply IH].
  intros Hin. apply in_map_iff in Hin. destruct Hin as [[i c] [E Hin]].
  simpl in E. subst i. apply filter_In in Hin. destruct Hin as [Hin _].
  apply in_combine_l in Hin. apply in_seq in Hin. lia.
Qed.

Lemma mem_debtors cashouts v :
  mem v (map fst (select is_debtor (enumerate cashouts))) = true <->
  (v < length cashouts)%nat /\ cashout_at cashouts v < 0.
Proof.
  rewrite mem_true, in_map_iff. split.
  - intros [[i c] [E Hin]]. simpl in E. subst i.
    apply select_In in Hin. destruct Hin as [Hin Hd].
    apply enumerate_In in Hin. destruct Hin as [Hlt ->].
    apply is_debtor_true in Hd. auto.
  - intros [Hlt Hd]. exists (v, cashout_at cashouts v). split; [reflexivity|].
    apply select_In. split; [apply enumerate_In; auto | apply is_debtor_true; exact Hd].
Qed.

(** ** Terminal edges *)

Lemma terminal_edge_cases source sink p c :
  (c < 0 /\ terminal_edge source sink (p, c) = [mkEdge source p (- c) None] /\
   is_debtor c = true /\ is_creditor c = false) \/
  (0 < c /\ terminal_edge source sink (p, c) = [mkEdge p sink c None] /\
   is_debtor c = false /\ is_creditor c = true) \/
  (c = 0 /\ terminal_edge source sink (p, c) = [] /\
   is_debtor c = false /\ is_creditor c = false).
Proof.
  unfold terminal_edge, is_debtor, is_creditor. simpl.
  rewrite Z.geb_leb, Z.gtb_ltb.
  destruct (Z.ltb_spec c 0); destruct (Z.ltb_spec 0 c);
    destruct (Z.leb_spec 0 c); destruct (Z.leb_spec c 0); simpl; try lia.
  - left. auto.
  - right. left. auto.
  - right. right. repeat split; lia.
Qed.

Lemma cap_where_app keep e1 e2 :
  cap_where keep (e1 ++ e2) = cap_where keep e1 + cap_where keep e2.
Proof.
  unfold cap_where. rewrite map_app, combine_app_eq by apply length_map.
  apply sum_where_app.
Qed.

Lemma terminals_src_other source sink players v :
  v <> source ->
  cap_where (fun e => Nat.eqb (src e) v) (terminal_edges source sink players)
  = pick v (map fst (select is_creditor players))
           (map snd (select is_creditor players)).
Proof.
  intros Hv. unfold terminal_edges, select.
  induction players as [|[p c] players IH]; simpl; [reflexivity|].
  rewrite cap_where_app, IH.
  destruct (terminal_edge_cases source sink p c)
    as [[_ [-> [_ ->]]]|[[_ [-> [_ ->]]]|[_ [-> [_ ->]]]]];
    unfold cap_where, sum_where; simpl.
  - destruct (Nat.eqb source v) eqn:E; [apply Nat.eqb_eq in E; congruence | reflexivity].
  - destruct (Nat.eqb p v); lia.
  - reflexivity.
Qed.

Lemma terminals_dst_other source sink players v :
  v <> sink ->
  cap_where (fun e => Nat.eqb (dst e) v) (terminal_edges source sink players)
  = pick v (map fst (select is_debtor players))
           (map (fun ic : nat * Z => - snd ic) (select is_debtor players)).
Proof.
  intros Hv. unfold terminal_edges, select.
  induction players as [|[p c] players IH]; simpl; [reflexivity|].
  rewrite cap_where_app, IH.
  destruct (terminal_edge_cases source sink p c)
    as [[_ [-> [-> _]]]|[[_ [-> [-> _]]]|[_ [-> [-> _]]]]];
    unfold cap_where, sum_where; simpl.
  - destruct (Nat.eqb p v); lia.
  - destruct (Nat.eqb sink v) eqn:E; [apply Nat.eqb_eq in E; congruence | reflexivity].
  - reflexivity.
Qed.

Lemma terminals_src_source source sink players :
  (forall p c, In (p, c) players -> p <> source) ->
  cap_where (fun e => Nat.eqb (src e) source) (terminal_edges source sink players)
  = zsum (map (fun ic : nat * Z => - snd ic) (select is_debtor players)).
Proof.
  unfold terminal_edges, select.
  induction players as [|[p c] players IH]; intros Hp; simpl; [reflexivity|].
  rewrite cap_where_app, IH by (intros p' c' Hin; apply (Hp p' c'); right; exact Hin).
  specialize (Hp p c (or_introl eq_refl)).
  destruct (terminal_edge_cases source sink p c)
    as [[_ [-> [-> _]]]|[[_ [-> [-> _]]]|[_ [-> [-> _]]]]];
    unfold cap_where, sum_where, zsum; simpl.
  - rewrite Nat.eqb_refl. lia.
  - destruct (Nat.eqb p source) eqn:E; [apply Nat.eqb_eq in E; congruence | reflexivity].
  - reflexivity.
Qed.

Lemma terminals_dst_sink source sink players :
  (forall p c, In (p, c) players -> p <> sink) ->
  cap_where (fun e => Nat.eqb (dst e) sink) (terminal_edges source sink players)
  = zsum (map snd (select is_creditor players)).
Proof.
  unfold terminal_edges, select.
  induction players as [|[p c] players IH]; intros Hp; simpl; [reflexivity|].
  rewrite cap_where_app, IH by (intros p' c' Hin; apply (Hp p' c'); right; exact Hin).
  specialize (Hp p c (or_introl eq_refl)).
  destruct (terminal_edge_cases source sink p c)
    as [[_ [-> [_ ->]]]|[[_ [-> [_ ->]]]|[_ [-> [_ ->]]]]];
    unfold cap_where, sum_where, zsum; simpl.
  - destruct (Nat.eqb p sink) eqn:E; [apply Nat.eqb_eq in E; congruence | reflexivity].
  - rewrite Nat.eqb_refl. lia.
  - reflexivity.
Qed.

Lemma nx_terminals_caps cashouts :
  Forall2 (fun e f => 0 <= f <= capacity e) (nx_terminals cashouts)
          (map capacity (nx_terminals cashouts)).
Proof.
  assert (H : Forall (fun e => 0 <= capacity e) (nx_terminals cashouts)).
  { apply Forall_forall. intros e Hin. apply terminal_edges_In in Hin.
    destruct Hin as [[_ [_ [Hc [-> _]]]]|[_ [_ [Hc [-> _]]]]]; lia. }
  induction H as [|e l He _ IH]; simpl; constructor; [lia | exact IH].
Qed.

Lemma cashout_at_overflow cashouts v :
  (length cashouts <= v)%nat -> cashout_at cashouts v = 0.
Proof. intros H. unfold cashout_at. apply nth_overflow. exact H. Qed.

Lemma nx_pairs_pairs_of cashouts :
  nx_pairs cashouts
  = pairs_of (select is_creditor (enumerate cashouts))
             (select is_debtor (enumerate cashouts)).
Proof. reflexivity. Qed.

Lemma edge_outflow_sum_where g flows v :
  edge_outflow g flows v = sum_where (fun e => Nat.eqb (src e) v) (combine g flows).
Proof. reflexivity. Qed.

Lemma edge_inflow_sum_where g flows v :
  edge_inflow g flows v = sum_where (fun e => Nat.eqb (dst e) v) (combine g flows).
Proof. reflexivity. Qed.

Section NxPlan.

Variable cashouts : list Z.
Variable ws : list Z.
Hypothesis Hbal : balanced cashouts.
Hypothesis Hws : length ws = length (nx_pairs cashouts).

Let rows := select is_debtor (enumerate cashouts).
Let cols := select is_creditor (enumerate cashouts).
Let ra := fun ic : nat * Z => - snd ic.
Let T := nx_terminals cashouts.
Let P := map nx_edge (combine (nx_pairs cashouts) ws).
Let plan := concat (transport (map ra rows) (map snd cols)).

Lemma nx_plan_rows_nonneg : Forall (fun x => 0 <= x) (map ra rows).
Proof. apply select_debtors_nonneg. Qed.

Lemma nx_plan_cols_nonneg : Forall (fun x => 0 <= x) (map snd cols).
Proof. apply select_creditors_nonneg. Qed.

Lemma nx_plan_totals : zsum (map ra rows) = zsum (map snd cols).
Proof.
  pose proof (select_totals 0 cashouts) as H. unfold balanced in Hbal.
  fold (enumerate cashouts) in H. fold rows cols in H. unfold ra. lia.
Qed.

Lemma nx_plan_length : length plan = length (nx_pairs cashouts).
Proof.
  unfold plan. rewrite nx_pairs_pairs_of. apply pairs_of_length.
  - rewrite transport_length, length_map. reflexivity.
  - apply transport_row_length_keyed.
Qed.

Lemma nx_plan_P_src v :
  sum_where (fun e => Nat.eqb (src e) v) (combine P plan)
  = Z.max 0 (- cashout_at cashouts v).
Proof.
  unfold P.
  rewrite (sum_where_map_combine nx_edge _
             (fun p : (nat * Z) * (nat * Z) => Nat.eqb (fst (fst p)) v))
    by (try exact Hws; intros [[i c1] [j c2]] w; reflexivity).
  unfold plan. rewrite nx_pairs_pairs_of. fold rows cols.
  rewrite (plan_row_sums ra)
    by (apply transport_rows_keyed;
        [apply nx_plan_rows_nonneg | apply nx_plan_cols_nonneg | apply nx_plan_totals]).
  apply pick_debtors.
Qed.

Lemma nx_plan_P_dst v :
  sum_where (fun e => Nat.eqb (dst e) v) (combine P plan)
  = Z.max 0 (cashout_at cashouts v).
Proof.
  unfold P.
  rewrite (sum_where_map_combine nx_edge _
             (fun p : (nat * Z) * (nat * Z) => Nat.eqb (fst (snd p)) v))
    by (try exact Hws; intros [[i c1] [j c2]] w; reflexivity).
  unfold plan. rewrite nx_pairs_pairs_of. fold rows cols.
  rewrite plan_col_sums
    by (try apply transport_row_length_keyed;
        rewrite transport_length, length_map; reflexivity).
  rewrite transport_cols
    by (apply nx_plan_rows_nonneg || apply nx_plan_cols_nonneg || apply nx_plan_totals).
  apply pick_creditors.
Qed.

Lemma nx_plan_combine :
  combine (T ++ P) (nx_plan cashouts)
  = combine T (map capacity T) ++ combine P plan.
Proof. unfold nx_plan. fold T rows cols ra plan. apply combine_app_eq, length_map. Qed.

(** The greedy plan is an (s, t)-flow of the graph of [find_settlement_nx],
    and it carries the whole debt. *)
Lemma nx_plan_flow :
  st_flow (T ++ P) (length cashouts) (length cashouts + 1) (nx_plan cashouts) /\
  flow_value (T ++ P) (length cashouts) (nx_plan cashouts) = total_debt cashouts.
Proof.
  split; [split; [|split]|].
  - unfold nx_plan. fold T rows cols ra plan.
    rewrite !length_app, length_map, nx_plan_length.
    unfold P. rewrite length_map, length_combine. lia.
  - unfold nx_plan. fold T rows cols ra plan. apply Forall2_app.
    + apply nx_terminals_caps.
    + unfold P. apply Forall2_map_combine
        with (Q := fun (p : (nat * Z) * (nat * Z)) y =>
                     0 <= y <= Z.min (ra (fst p)) (snd (snd p))).
      * intros [[i c1] [j c2]] w y H. simpl in *. exact H.
      * exact Hws.
      * unfold plan. rewrite nx_pairs_pairs_of. fold rows cols.
        apply (plan_bounds ra snd).
        apply transport_bounds;
          [apply nx_plan_rows_nonneg | apply nx_plan_cols_nonneg].
  - intros v Hs Ht.
    rewrite edge_outflow_sum_where, edge_inflow_sum_where, nx_plan_combine.
    rewrite !sum_where_app, nx_plan_P_src, nx_plan_P_dst.
    fold (cap_where (fun e => Nat.eqb (src e) v) T).
    fold (cap_where (fun e => Nat.eqb (dst e) v) T).
    unfold T, nx_terminals.
    rewrite terminals_src_other by exact Hs.
    rewrite terminals_dst_other by exact Ht.
    rewrite pick_creditors, pick_debtors. lia.
  - unfold flow_value.
    rewrite edge_outflow_sum_where, edge_inflow_sum_where, nx_plan_combine.
    rewrite !sum_where_app, nx_plan_P_src, nx_plan_P_dst.
    fold (cap_where (fun e => Nat.eqb (src e) (length cashouts)) T).
    fold (cap_where (fun e => Nat.eqb (dst e) (length cashouts)) T).
    unfold T, nx_terminals.
    rewrite terminals_src_source
      by (intros p c Hin; apply enumerate_In in Hin; lia).
    rewrite terminals_dst_other by lia.
    rewrite pick_debtors.
    rewrite cashout_at_overflow by lia.
    unfold total_debt. simpl. lia.
Qed.

End NxPlan.

(** ** A maximum flow saturates the terminal edges *)

Lemma sum_by_key {A : Type} (key : A -> nat) (keys : list nat) (l : list (A * Z)) :
  NoDup keys ->
  zsum (map (fun d => sum_where (fun a => Nat.eqb (key a) d) l) keys)
  = sum_where (fun a => mem (key a) keys) l.
Proof.
  intros Hnd.
  rewrite (sum_where_ext (fun a => mem (key a) keys)
             (fun a => mem (key a) keys && true) l)
    by (intros; rewrite andb_true_r; reflexivity).
  rewrite <- (sum_by_source key (fun _ => true) l Hnd).
  f_equal. apply map_ext. intros d. apply sum_where_ext.
  intros; rewrite andb_true_r; reflexivity.
Qed.

Lemma mem_seq v n : mem v (seq 0 n) = true <-> (v < n)%nat.
Proof. rewrite mem_true, in_seq. lia. Qed.

Lemma flows_le_caps keep (edges : list Edge) (flows : list Z) :
  Forall2 (fun e f => 0 <= f <= capacity e) edges flows ->
  sum_where keep (combine edges flows) <= cap_where keep edges.
Proof.
  unfold cap_where, sum_where.
  induction 1 as [|e f edges flows Hf _ IH]; simpl; [lia|].
  destruct (keep e); lia.
Qed.

Lemma saturated (edges : list Edge) (flows : list Z) :
  Forall2 (fun e f => 0 <= f <= capacity e) edges flows ->
  cap_where (fun _ => true) edges <= sum_where (fun _ => true) (combine edges flows) ->
  flows = map capacity edges.
Proof.
  induction 1 as [|e f edges flows Hf Hrest IH]; intros Hsum; simpl; [reflexivity|].
  pose proof (flows_le_caps (fun _ => true) Hrest) as Hle.
  unfold cap_where, sum_where in *. simpl in *.
  f_equal; [lia|]. apply IH. lia.
Qed.

Lemma zsum_map_ext {A : Type} (F G : A -> Z) (l : list A) :
  (forall a, In a l -> F a = G a) -> zsum (map F l) = zsum (map G l).
Proof.
  unfold zsum. induction l as [|a l IH]; intros H; simpl; [reflexivity|].
  rewrite (H a (or_introl eq_refl)), IH; [reflexivity|].
  intros a' Hin. apply H. right. exact Hin.
Qed.

Lemma zsum_map_add {A : Type} (F G : A -> Z) (l : list A) :
  zsum (map (fun a => F a + G a) l) = zsum (map F l) + zsum (map G l).
Proof. unfold zsum. induction l as [|a l IH]; simpl; lia. Qed.

Section MaxFlow.

Variable cashouts : list Z.
Variable ws fT fP : list Z.
Hypothesis Hbal : balanced cashouts.
Hypothesis Hws : length ws = length (nx_pairs cashouts).

Let n := length cashouts.
Let T := nx_terminals cashouts.
Let P := map nx_edge (combine (nx_pairs cashouts) ws).
Let LT := combine T fT.
Let LP := combine P fP.

Hypothesis HcapT : Forall2 (fun e f => 0 <= f <= capacity e) T fT.
Hypothesis HcapP : Forall2 (fun e f => 0 <= f <= capacity e) P fP.
Hypothesis Hcons : forall v, v <> n -> v <> (n + 1)%nat ->
  sum_where (fun e => Nat.eqb (src e) v) LT + sum_where (fun e => Nat.eqb (src e) v) LP
  = sum_where (fun e => Nat.eqb (dst e) v) LT
    + sum_where (fun e => Nat.eqb (dst e) v) LP.
Hypothesis Hval :
  total_debt cashouts
  <= sum_where (fun e => Nat.eqb (src e) n) LT
     + sum_where (fun e => Nat.eqb (src e) n) LP
     - (sum_where (fun e => Nat.eqb (dst e) n) LT
        + sum_where (fun e => Nat.eqb (dst e) n) LP).

Lemma LT_edges e x :
  In (e, x) LT ->
  (src e = n /\ (dst e < n)%nat /\ cashout_at cashouts (dst e) < 0) \/
  (dst e = (n + 1)%nat /\ (src e < n)%nat /\ 0 < cashout_at cashouts (src e)).
Proof.
  intros Hin. apply in_combine_l in Hin. apply terminal_edges_In in Hin.
  destruct Hin as [[H1 [H2 [H3 _]]]|[H1 [H2 [H3 _]]]]; [left | right]; auto.
Qed.

Lemma LP_edges e x :
  In (e, x) LP ->
  (src e < n)%nat /\ (dst e < n)%nat /\
  cashout_at cashouts (src e) < 0 /\ 0 < cashout_at cashouts (dst e).
Proof.
  intros Hin. apply in_combine_l in Hin.
  assert (Hp : payment_edge cashouts e)
    by (eapply nx_edge_payment_edge; [exact Hin | auto]).
  destruct Hp as [H1 [H2 [H3 [H4 _]]]]. auto.
Qed.

Lemma LP_src_none v :
  ~ ((v < n)%nat /\ cashout_at cashouts v < 0) ->
  sum_where (fun e => Nat.eqb (src e) v) LP = 0.
Proof.
  intros Hv. apply sum_where_none. intros e x Hin. apply LP_edges in Hin.
  destruct (Nat.eqb (src e) v) eqn:E; [|reflexivity].
  apply Nat.eqb_eq in E. subst v. tauto.
Qed.

Lemma LP_dst_none v :
  ~ ((v < n)%nat /\ 0 < cashout_at cashouts v) ->
  sum_where (fun e => Nat.eqb (dst e) v) LP = 0.
Proof.
  intros Hv. apply sum_where_none. intros e x Hin. apply LP_edges in Hin.
  destruct (Nat.eqb (dst e) v) eqn:E; [|reflexivity].
  apply Nat.eqb_eq in E. subst v. tauto.
Qed.

Lemma LT_dst_source : sum_where (fun e => Nat.eqb (dst e) n) LT = 0.
Proof.
  apply sum_where_none. intros e x Hin. apply LT_edges in Hin.
  destruct (Nat.eqb (dst e) n) eqn:E; [|reflexivity].
  apply Nat.eqb_eq in E. lia.
Qed.

Lemma source_flow_large :
  total_debt cashouts <= sum_where (fun e => Nat.eqb (src e) n) LT.
Proof.
  pose proof Hval as H.
  rewrite LP_src_none, LP_dst_none, LT_dst_source in H by lia. lia.
Qed.

(** What leaves the source reaches the sink. *)
Lemma source_flow_sink_flow :
  sum_where (fun e => Nat.eqb (dst e) (n + 1)) LT
  = sum_where (fun e => Nat.eqb (src e) n) LT.
Proof.
  assert (Hsum :
    zsum (map (fun v => sum_where (fun e => Nat.eqb (src e) v) LT
                        + sum_where (fun e => Nat.eqb (src e) v) LP) (seq 0 n))
    = zsum (map (fun v => sum_where (fun e => Nat.eqb (dst e) v) LT
                          + sum_where (fun e => Nat.eqb (dst e) v) LP) (seq 0 n))).
  { apply zsum_map_ext. intros v Hin. apply in_seq in Hin. apply Hcons; lia. }
  rewrite !zsum_map_add in Hsum.
  rewrite !sum_by_key in Hsum by apply seq_NoDup.
  rewrite (sum_where_ext (fun e => mem (src e) (seq 0 n))
             (fun e => Nat.eqb (dst e) (n + 1)) LT) in Hsum.
  2:{ intros e x Hin. apply LT_edges in Hin.
      destruct Hin as [[H1 [H2 _]]|[H1 [H2 _]]].
      - rewrite H1. transitivity false.
        + destruct (mem n (seq 0 n)) eqn:E; [apply mem_seq in E; lia | reflexivity].
        + symmetry. apply Nat.eqb_neq. lia.
      - rewrite H1, Nat.eqb_refl. apply mem_seq. exact H2. }
  rewrite (sum_where_ext (fun e => mem (dst e) (seq 0 n))
             (fun e => Nat.eqb (src e) n) LT) in Hsum.
  2:{ intros e x Hin. apply LT_edges in Hin.
      destruct Hin as [[H1 [H2 _]]|[H1 [H2 _]]].
      - rewrite H1, Nat.eqb_refl. apply mem_seq. exact H2.
      - rewrite H1. transitivity false.
        + destruct (mem (n + 1) (seq 0 n)) eqn:E; [apply mem_seq in E; lia | reflexivity].
        + symmetry. apply Nat.eqb_neq. lia. }
  rewrite (sum_where_ext (fun e => mem (src e) (seq 0 n))
             (fun e => mem (dst e) (seq 0 n)) LP) in Hsum.
  2:{ intros e x Hin. apply LP_edges in Hin. destruct Hin as [H1 [H2 _]].
      apply mem_seq in H1. apply mem_seq in H2. congruence. }
  lia.
Qed.

Lemma LT_total :
  sum_where (fun _ => true) LT
  = sum_where (fun e => Nat.eqb (src e) n) LT
    + sum_where (fun e => Nat.eqb (dst e) (n + 1)) LT.
Proof.
  rewrite sum_where_or_disjoint.
  - apply sum_where_ext. intros e x Hin. apply LT_edges in Hin.
    destruct Hin as [[H1 _]|[H1 _]]; rewrite H1, Nat.eqb_refl.
    + reflexivity.
    + rewrite orb_true_r. reflexivity.
  - intros e x Hin H1. apply Nat.eqb_eq in H1. apply LT_edges in Hin.
    apply Nat.eqb_neq. lia.
Qed.

Lemma T_total : cap_where (fun _ => true) T = 2 * total_debt cashouts.
Proof.
  assert (E : cap_where (fun _ => true) T
              = cap_where (fun e => Nat.eqb (src e) n) T
                + cap_where (fun e => Nat.eqb (dst e) (n + 1)) T).
  { unfold cap_where. rewrite sum_where_or_disjoint.
    - apply sum_where_ext. intros e x Hin. apply in_combine_l in Hin.
      apply terminal_edges_In in Hin.
      destruct Hin as [[H1 _]|[H1 _]]; fold n in H1; rewrite H1, Nat.eqb_refl.
      + reflexivity.
      + rewrite orb_true_r. reflexivity.
    - intros e x Hin H1. apply Nat.eqb_eq in H1. apply in_combine_l in Hin.
      apply terminal_edges_In in Hin. apply Nat.eqb_neq.
      destruct Hin as [[H2 [H3 _]]|[H2 [H3 _]]]; fold n in H2, H3; lia. }
  rewrite E. unfold T, nx_terminals. fold n.
  rewrite terminals_src_source
    by (intros p c Hin; apply enumerate_In in Hin; fold n in Hin; lia).
  rewrite terminals_dst_sink
    by (intros p c Hin; apply enumerate_In in Hin; fold n in Hin; lia).
  pose proof (select_totals 0 cashouts) as H. unfold balanced in Hbal.
  fold (enumerate cashouts) in H. unfold total_debt. lia.
Qed.

Lemma terminals_saturated : fT = map capacity T.
Proof.
  apply saturated; [exact HcapT|].
  fold LT. rewrite T_total, LT_total, source_flow_sink_flow.
  pose proof source_flow_large. lia.
Qed.

Lemma LT_src v :
  v <> n -> sum_where (fun e => Nat.eqb (src e) v) LT = Z.max 0 (cashout_at cashouts v).
Proof.
  intros Hv. unfold LT. rewrite terminals_saturated.
  fold (cap_where (fun e => Nat.eqb (src e) v) T). unfold T, nx_terminals.
  rewrite terminals_src_other by exact Hv. apply pick_creditors.
Qed.

Lemma LT_dst v :
  v <> (n + 1)%nat ->
  sum_where (fun e => Nat.eqb (dst e) v) LT = Z.max 0 (- cashout_at cashouts v).
Proof.
  intros Hv. unfold LT. rewrite terminals_saturated.
  fold (cap_where (fun e => Nat.eqb (dst e) v) T). unfold T, nx_terminals.
  rewrite terminals_dst_other by exact Hv. apply pick_debtors.
Qed.

(** Flow on the payment edges out of and into every participant. *)
Lemma payment_flow v :
  sum_where (fun e => Nat.eqb (dst e) v) LP = Z.max 0 (cashout_at cashouts v) /\
  sum_where (fun e => Nat.eqb (src e) v) LP = Z.max 0 (- cashout_at cashouts v).
Proof.
  destruct (Nat.lt_ge_cases v n) as [Hlt|Hge].
  - pose proof (Hcons (v := v)) as Hc.
    rewrite LT_src, LT_dst in Hc by lia.
    destruct (Z.lt_trichotomy (cashout_at cashouts v) 0) as [Hneg|[Hz|Hpos]].
    + rewrite LP_dst_none in * by lia. lia.
    + rewrite LP_dst_none, LP_src_none by lia. lia.
    + rewrite LP_src_none in * by lia. lia.
  - rewrite LP_dst_none, LP_src_none by lia.
    rewrite cashout_at_overflow by exact Hge. simpl. lia.
Qed.

Lemma max_flow_received p :
  received (nx_extract (T ++ P) (fT ++ fP) (enumerate cashouts) []) p
  = Z.max 0 (cashout_at cashouts p).
Proof.
  assert (Hcomb : combine (T ++ P) (fT ++ fP) = LT ++ LP).
  { apply combine_app_eq. symmetry. apply (Forall2_length HcapT). }
  rewrite nx_extract_received
    by (rewrite Hcomb; apply Forall_app; split;
        eapply Forall2_combine_nonneg; eassumption).
  change (received [] p) with 0. rewrite Hcomb.
  rewrite <- (map_map fst (fun d => sum_where
                (fun e => Nat.eqb (src e) d && Nat.eqb (dst e) p) (LT ++ LP))).
  rewrite (sum_by_source src (fun e => Nat.eqb (dst e) p))
    by apply NoDup_select_keys.
  rewrite sum_where_app.
  rewrite (sum_where_none _ LT).
  2:{ intros e x Hin. apply LT_edges in Hin.
      destruct (mem (src e) _) eqn:E; [|reflexivity].
      apply mem_debtors in E. fold n in E. lia. }
  rewrite (sum_where_ext _ (fun e => Nat.eqb (dst e) p) LP).
  2:{ intros e x Hin. apply LP_edges in Hin.
      destruct Hin as [H1 [_ [H3 _]]].
      assert (E : mem (src e) (map fst (select is_debtor (enumerate cashouts))) = true)
        by (apply mem_debtors; auto).
      rewrite E. reflexivity. }
  destruct (payment_flow p) as [-> _]. lia.
Qed.

Lemma max_flow_paid p :
  paid (nx_extract (T ++ P) (fT ++ fP) (enumerate cashouts) []) p
  = Z.max 0 (- cashout_at cashouts p).
Proof.
  assert (Hcomb : combine (T ++ P) (fT ++ fP) = LT ++ LP).
  { apply combine_app_eq. symmetry. apply (Forall2_length HcapT). }
  rewrite nx_extract_paid
    by (rewrite Hcomb; apply Forall_app; split;
        eapply Forall2_combine_nonneg; eassumption).
  change (paid [] p) with 0. rewrite Hcomb.
  rewrite <- (map_map fst (fun d => sum_where (fun e => Nat.eqb (src e) d) (LT ++ LP))).
  rewrite pick_keyed by apply NoDup_select_keys.
  destruct (mem p _) eqn:E.
  - apply mem_debtors in E. fold n in E.
    rewrite sum_where_app, LT_src by lia.
    destruct (payment_flow p) as [_ ->]. lia.
  - assert (~ ((p < n)%nat /\ cashout_at cashouts p < 0))
      by (intros H; apply mem_debtors in H; congruence).
    destruct (Nat.lt_ge_cases p n) as [Hlt|Hge].
    + lia.
    + rewrite cashout_at_overflow by exact Hge. reflexivity.
Qed.

End MaxFlow.

Lemma max_flow_settles cashouts ws flows :
  balanced cashouts -> length ws = length (nx_pairs cashouts) ->
  let graph := nx_terminals cashouts ++ map nx_edge (combine (nx_pairs cashouts) ws) in
  st_flow graph (length cashouts) (length cashouts + 1) flows ->
  total_debt cashouts <= flow_value graph (length cashouts) flows ->
  settles cashouts (nx_extract graph flows (enumerate cashouts) []).
Proof.
  intros Hbal Hws graph [Hlen [Hcap Hcons]] Hval. unfold graph in *. clear graph.
  apply Forall2_app_inv_l in Hcap. destruct Hcap as [fT [fP [HT [HP ->]]]].
  assert (Hcomb : combine (nx_terminals cashouts
                           ++ map nx_edge (combine (nx_pairs cashouts) ws)) (fT ++ fP)
                  = combine (nx_terminals cashouts) fT
                    ++ combine (map nx_edge (combine (nx_pairs cashouts) ws)) fP).
  { apply combine_app_eq. symmetry. apply (Forall2_length HT). }
  assert (Hcons' : forall v, v <> length cashouts -> v <> (length cashouts + 1)%nat ->
    sum_where (fun e => Nat.eqb (src e) v) (combine (nx_terminals cashouts) fT)
    + sum_where (fun e => Nat.eqb (src e) v)
        (combine (map nx_edge (combine (nx_pairs cashouts) ws)) fP)
    = sum_where (fun e => Nat.eqb (dst e) v) (combine (nx_terminals cashouts) fT)
      + sum_where (fun e => Nat.eqb (dst e) v)
          (combine (map nx_edge (combine (nx_pairs cashouts) ws)) fP)).
  { intros v Hs Ht. specialize (Hcons v Hs Ht).
    rewrite edge_outflow_sum_where, edge_inflow_sum_where, Hcomb in Hcons.
    rewrite !sum_where_app in Hcons. exact Hcons. }
  unfold flow_value in Hval.
  rewrite edge_outflow_sum_where, edge_inflow_sum_where, Hcomb in Hval.
  rewrite !sum_where_app in Hval.
  intros p. split.
  - apply max_flow_received; assumption.
  - apply max_flow_paid; assumption.
Qed.

(** ** Trials settle the ledger *)

Section Settling.

Variable rng : Type.
Variable randint : Z -> Z -> rng -> Z * rng.
Variable or_solve : SimpleMinCostFlow -> Status * list Z.
Variable nx_solve : DiGraph -> nat -> nat -> list Z.

Lemma find_settlement_or_settles cashouts t g s g' :
  or_sound or_solve ->
  find_settlement_or randint or_solve cashouts t g = (Returned s, g') ->
  settles cashouts s.
Proof.
  intros Hsound H. apply find_settlement_or_returned in H.
  destruct H as [flows [Hsolve [-> _]]].
  apply Hsound in Hsolve. revert Hsolve.
  pose proof (@or_build_arcs rng randint cashouts g) as Harcs. revert Harcs.
  rewrite or_build_eq. simpl. intros Harcs Hfeas.
  apply feasible_settles; assumption.
Qed.

Lemma nx_build_caps cashouts g :
  Forall (fun e => 0 <= capacity e) (fst (nx_build randint cashouts g)).
Proof.
  apply Forall_forall. intros e Hin. apply nx_build_edges in Hin.
  destruct Hin as [[_ [_ [Hc [-> _]]]]|[[_ [_ [Hc [-> _]]]]|[_ [_ [H1 [H2 [-> _]]]]]]]; lia.
Qed.

Lemma find_settlement_nx_settles cashouts t g s g' :
  nx_max_flow nx_solve -> balanced cashouts ->
  find_settlement_nx randint nx_solve cashouts t g = (Returned s, g') ->
  settles cashouts s.
Proof.
  intros Hmax Hbal H. apply find_settlement_nx_returned in H.
  destruct H as [Hs [Ht [-> _]]].
  pose proof (nx_build_caps cashouts g) as Hcaps.
  destruct (Hmax _ _ _ Hs Ht ltac:(lia) Hcaps) as [Hflow Hbest].
  revert Hflow Hbest. rewrite nx_build_eq. simpl.
  set (ws := fst (draws randint (length (nx_pairs cashouts)) g)).
  assert (Hws : length ws = length (nx_pairs cashouts)) by apply draws_length.
  intros Hflow Hbest.
  destruct (@nx_plan_flow cashouts ws Hbal Hws) as [Hplan Hvalue].
  apply (@max_flow_settles cashouts ws _ Hbal Hws Hflow).
  rewrite <- Hvalue. apply Hbest. exact Hplan.
Qed.

End Settling.

(** ** The concrete instances meet the contracts *)

Lemma tape_randint_in_range : randint_in_range tape_randint.
Proof.
  intros a b tape Hab. destruct tape as [|x tape]; simpl; lia.
Qed.

Lemma candidates_In caps f :
  In f (candidates caps) <-> Forall2 (fun c x => 0 <= x <= c) caps f.
Proof.
  revert f. induction caps as [|c caps IH]; intros f; simpl.
  - split.
    + intros [<-|[]]. constructor.
    + intros H. inversion H. left. reflexivity.
  - rewrite in_flat_map. split.
    + intros [x [Hx Hin]]. apply in_map_iff in Hin. destruct Hin as [f' [<- Hf']].
      apply in_map_iff in Hx. destruct Hx as [k [<- Hk]]. apply in_seq in Hk.
      constructor; [lia | apply IH; exact Hf'].
    + intros H. inversion H as [|? x ? f' Hx Hf']; subst.
      exists x. split.
      * apply in_map_iff. exists (Z.to_nat x). split; [lia|].
        apply in_seq. lia.
      * apply in_map. apply IH. exact Hf'.
Qed.

Lemma Forall2_map_left_iff {A B C : Type} (f : A -> B) (Q : B -> C -> Prop)
  (l : list A) (M : list C) :
  Forall2 Q (map f l) M <-> Forall2 (fun a c => Q (f a) c) l M.
Proof.
  split; [apply Forall2_map_left|].
  induction 1; simpl; constructor; assumption.
Qed.

Lemma argmin_some key l x :
  argmin key l = Some x -> In x l /\ forall y, In y l -> key x <= key y.
Proof.
  revert x. induction l as [|a l IH]; intros x H; simpl in H; [discriminate|].
  destruct (argmin key l) as [y|] eqn:E.
  - destruct (IH y eq_refl) as [Hin Hmin].
    destruct (key a <=? key y) eqn:Ec; inversion H; subst.
    + apply Z.leb_le in Ec. split; [left; reflexivity|].
      intros z [<-|Hz]; [lia|]. specialize (Hmin z Hz). lia.
    + apply Z.leb_gt in Ec. split; [right; exact Hin|].
      intros z [<-|Hz]; [lia|]. apply Hmin. exact Hz.
  - inversion H; subst. destruct l as [|b l]; [|simpl in E; destruct (argmin key l);
      [destruct (key b <=? key l0)|]; discriminate].
    split; [left; reflexivity|]. intros z [<-|[]]. lia.
Qed.

Lemma argmin_none key l : argmin key l = None -> l = [].
Proof.
  destruct l as [|a l]; [reflexivity|]. simpl.
  destruct (argmin key l) as [y|]; [destruct (key a <=? key y)|]; discriminate.
Qed.

Lemma node_bound_arcs m a :
  In a (arcs m) -> (Tail a < node_bound m)%nat /\ (Head a < node_bound m)%nat.
Proof.
  unfold node_bound. generalize (length (node_supply m)).
  induction (arcs m) as [|b l IH]; intros k Hin; cbn [fold_right In] in *;
    [destruct Hin|].
  destruct Hin as [<-|Hin]; [lia|]. specialize (IH k Hin). lia.
Qed.

Lemma node_bound_supply m : (length (node_supply m) <= node_bound m)%nat.
Proof.
  unfold node_bound. induction (arcs m) as [|b l IH]; cbn [fold_right]; lia.
Qed.

Lemma conserves_true m flows :
  conserves m flows = true <->
  forall v, outflow (arcs m) flows v - inflow (arcs m) flows v = nth v (node_supply m) 0.
Proof.
  unfold conserves. rewrite forallb_forall. split.
  - intros H v. destruct (Nat.lt_ge_cases v (node_bound m)) as [Hlt|Hge].
    + apply Z.eqb_eq. apply H. apply in_seq. lia.
    + rewrite outflow_sum_where, inflow_sum_where.
      rewrite !sum_where_none.
      * rewrite nth_overflow; [reflexivity|].
        pose proof (node_bound_supply m). lia.
      * intros a x Hin. apply in_combine_l in Hin. apply node_bound_arcs in Hin.
        apply Nat.eqb_neq. lia.
      * intros a x Hin. apply in_combine_l in Hin. apply node_bound_arcs in Hin.
        apply Nat.eqb_neq. lia.
  - intros H v _. apply Z.eqb_eq. apply H.
Qed.

Lemma brute_candidates_feasible m flows :
  In flows (filter (conserves m) (candidates (map Capacity (arcs m)))) <->
  feasible m flows.
Proof.
  rewrite filter_In, candidates_In, Forall2_map_left_iff, conserves_true.
  unfold feasible. split.
  - intros [Hc Hv]. split; [|split]; try assumption.
    symmetry. apply (Forall2_length Hc).
  - intros [_ [Hc Hv]]. split; assumption.
Qed.

Lemma brute_or_sound : or_sound brute_or_solve.
Proof.
  intros m flows H. unfold brute_or_solve in H.
  destruct (argmin _ _) as [f|] eqn:E; inversion H; subst.
  apply argmin_some in E. destruct E as [Hin _].
  apply brute_candidates_feasible. exact Hin.
Qed.

Lemma brute_or_complete : or_complete brute_or_solve.
Proof.
  intros m flows H. unfold brute_or_solve.
  destruct (argmin _ _) as [f|] eqn:E; [reflexivity|].
  apply argmin_none in E. apply brute_candidates_feasible in H.
  rewrite E in H. destruct H.
Qed.

Lemma brute_or_optimal : or_optimal brute_or_solve.
Proof.
  intros m flows other H Hother. unfold brute_or_solve in H.
  destruct (argmin _ _) as [f|] eqn:E; inversion H; subst.
  apply argmin_some in E. destruct E as [_ Hmin].
  apply Hmin. apply brute_candidates_feasible. exact Hother.
Qed.

Lemma edge_node_bound_edges g e :
  In e g -> (src e < edge_node_bound g)%nat /\ (dst e < edge_node_bound g)%nat.
Proof.
  unfold edge_node_bound.
  induction g as [|b l IH]; intros Hin; cbn [fold_right In] in *; [destruct Hin|].
  destruct Hin as [<-|Hin]; [lia|]. specialize (IH Hin). lia.
Qed.

Lemma st_conserves_true g s t flows :
  st_conserves g s t flows = true <->
  forall v, v <> s -> v <> t -> edge_outflow g flows v = edge_inflow g flows v.
Proof.
  unfold st_conserves. rewrite forallb_forall. split.
  - intros H v Hs Ht. destruct (Nat.lt_ge_cases v (edge_node_bound g)) as [Hlt|Hge].
    + assert (Hin : In v (seq 0 (edge_node_bound g))) by (apply in_seq; lia).
      specialize (H v Hin).
      apply Nat.eqb_neq in Hs. apply Nat.eqb_neq in Ht. rewrite Hs, Ht in H.
      simpl in H. apply Z.eqb_eq. exact H.
    + rewrite edge_outflow_sum_where, edge_inflow_sum_where.
      rewrite !sum_where_none; [reflexivity| |].
      * intros a x Hin. apply in_combine_l in Hin. apply edge_node_bound_edges in Hin.
        apply Nat.eqb_neq. lia.
      * intros a x Hin. apply in_combine_l in Hin. apply edge_node_bound_edges in Hin.
        apply Nat.eqb_neq. lia.
  - intros H v _. destruct (Nat.eqb v s) eqn:Es; [reflexivity|].
    destruct (Nat.eqb v t) eqn:Et; [reflexivity|]. simpl.
    apply Z.eqb_eq. apply H; apply Nat.eqb_neq; assumption.
Qed.

Lemma brute_candidates_st_flow g s t flows :
  In flows (filter (st_conserves g s t) (candidates (map capacity g))) <->
  st_flow g s t flows.
Proof.
  rewrite filter_In, candidates_In, Forall2_map_left_iff, st_conserves_true.
  unfold st_flow. split.
  - intros [Hc Hv]. split; [|split]; try assumption.
    symmetry. apply (Forall2_length Hc).
  - intros [_ [Hc Hv]]. split; assumption.
Qed.

Lemma zero_flow_st_flow g s t :
  Forall (fun e => 0 <= capacity e) g -> st_flow g s t (map (fun _ => 0) g).
Proof.
  intros Hcap. split; [|split].
  - apply length_map.
  - induction Hcap as [|e l He _ IH]; simpl; constructor; [lia | exact IH].
  - intros v _ _. rewrite edge_outflow_sum_where, edge_inflow_sum_where.
    clear. unfold sum_where. induction g as [|e l IH]; simpl; [reflexivity|].
    destruct (Nat.eqb (src e) v), (Nat.eqb (dst e) v); lia.
Qed.

(** The value and membership of what [brute_nx_solve] returns. *)
Lemma brute_nx_solve_spec g s t :
  Forall (fun e => 0 <= capacity e) g ->
  st_flow g s t (brute_nx_solve g s t) /\
  (forall other, st_flow g s t other ->
     flow_value g s other <= flow_value g s (brute_nx_solve g s t)) /\
  (forall other, st_flow g s t other ->
     flow_value g s other = flow_value g s (brute_nx_solve g s t) ->
     flow_cost g (brute_nx_solve g s t) <= flow_cost g other).
Proof.
  intros Hcap. unfold brute_nx_solve.
  set (flows := filter (st_conserves g s t) (candidates (map capacity g))).
  destruct (argmin (fun f => - flow_value g s f) flows) as [top|] eqn:Etop.
  - apply argmin_some in Etop. destruct Etop as [Hin Hmax].
    set (best := filter (fun f => flow_value g s f =? flow_value g s top) flows).
    destruct (argmin (flow_cost g) best) as [f|] eqn:Ef.
    + apply argmin_some in Ef. destruct Ef as [Hf Hmin].
      unfold best in Hf. apply filter_In in Hf. destruct Hf as [Hf Hv].
      apply Z.eqb_eq in Hv. split; [|split].
      * apply brute_candidates_st_flow. exact Hf.
      * intros other Ho. apply brute_candidates_st_flow in Ho.
        specialize (Hmax other Ho). lia.
      * intros other Ho Hval. apply Hmin. unfold best. apply filter_In.
        split; [apply brute_candidates_st_flow; exact Ho|].
        apply Z.eqb_eq. lia.
    + apply argmin_none in Ef. exfalso.
      assert (Htop : In top best)
        by (unfold best; apply filter_In; split; [exact Hin | apply Z.eqb_refl]).
      rewrite Ef in Htop. destruct Htop.
  - apply argmin_none in Etop. exfalso.
    pose proof (zero_flow_st_flow s t Hcap) as Hz.
    apply brute_candidates_st_flow in Hz. fold flows in Hz. rewrite Etop in Hz.
    destruct Hz.
Qed.

Lemma brute_nx_max_flow : nx_max_flow brute_nx_solve.
Proof.
  intros g s t _ _ _ Hcap. destruct (brute_nx_solve_spec s t Hcap) as [H1 [H2 _]].
  split; assumption.
Qed.

Lemma brute_nx_min_cost : nx_min_cost brute_nx_solve.
Proof.
  intros g s t other _ _ _ Hcap Ho Hv.
  destruct (brute_nx_solve_spec s t Hcap) as [_ [_ H3]]. apply H3; assumption.
Qed.

(** ** No edge is added twice

    [DiGraph.add_edge] would update an edge that exists already; the builder
    never meets that case, which is why [add_edge] is an append. *)

Lemma terminal_edges_keys source sink start l e :
  In e (terminal_edges source sink (enumerate_from start l)) ->
  (src e = source /\ (start <= dst e < start + length l)%nat) \/
  (dst e = sink /\ (start <= src e < start + length l)%nat).
Proof.
  unfold terminal_edges. rewrite in_flat_map. intros [[p c] [Hp Hin]].
  apply enumerate_from_In in Hp. destruct Hp as [Hp _].
  destruct (terminal_edge_cases source sink p c)
    as [[_ [E _]]|[[_ [E _]]|[_ [E _]]]]; rewrite E in Hin.
  - destruct Hin as [<-|[]]. left. simpl. auto.
  - destruct Hin as [<-|[]]. right. simpl. auto.
  - destruct Hin.
Qed.

Lemma terminal_edges_NoDup source sink start l :
  (start + length l <= source)%nat -> (start + length l <= sink)%nat ->
  NoDup (map edge_key (terminal_edges source sink (enumerate_from start l))).
Proof.
  revert start. induction l as [|x l IH]; intros start Hs Ht; [constructor|].
  change (enumerate_from start (x :: l))
    with ((start, x) :: enumerate_from (S start) l).
  unfold terminal_edges. cbn [flat_map]. fold (terminal_edges source sink).
  simpl in Hs, Ht.
  assert (Hrest : NoDup (map edge_key
                           (terminal_edges source sink (enumerate_from (S start) l))))
    by (apply IH; lia).
  assert (Hfresh : forall e,
             In e (terminal_edges source sink (enumerate_from (S start) l)) ->
             edge_key e <> (source, start) /\ edge_key e <> (start, sink)).
  { intros e He. apply terminal_edges_keys in He. unfold edge_key.
    destruct He as [[H1 H2]|[H1 H2]]; split; intros E; inversion E; lia. }
  destruct (terminal_edge_cases source sink start x)
    as [[_ [E _]]|[[_ [E _]]|[_ [E _]]]]; rewrite E; simpl; [| |exact Hrest].
  - constructor; [|exact Hrest]. intros Hin. apply in_map_iff in Hin.
    destruct Hin as [e [Hk He]]. apply Hfresh in He. tauto.
  - constructor; [|exact Hrest]. intros Hin. apply in_map_iff in Hin.
    destruct Hin as [e [Hk He]]. apply Hfresh in He. tauto.
Qed.

Lemma loop_pairs_NoDup ko ki a l b l' :
  NoDup (map (fun p : (nat * Z) * (nat * Z) => (fst (fst p), fst (snd p)))
             (loop_pairs ko ki (enumerate_from a l) (enumerate_from b l'))).
Proof.
  unfold loop_pairs.
  pose proof (NoDup_select_keys ko a l) as Hrows.
  pose proof (NoDup_select_keys ki b l') as Hcols.
  induction (select ko (enumerate_from a l)) as [|r rows IH]; simpl; [constructor|].
  inversion Hrows as [|? ? Hr Hrows']; subst.
  rewrite map_app, map_map. simpl. apply NoDup_app.
  - clear -Hcols. induction (select ki (enumerate_from b l')) as [|c cols IHc];
      simpl; [constructor|].
    inversion Hcols as [|? ? Hc Hcols']; subst. constructor; [|apply IHc; exact Hcols'].
    intros Hin. apply in_map_iff in Hin. destruct Hin as [c' [E Hc']].
    inversion E as [E']. apply Hc. rewrite <- E'. apply in_map. exact Hc'.
  - apply IH. exact Hrows'.
  - intros k Hk1 Hk2. apply in_map_iff in Hk1. destruct Hk1 as [c [<- _]].
    apply in_map_iff in Hk2. destruct Hk2 as [[r' c'] [E Hin]]. simpl in E.
    inversion E as [[E1 E2]]. apply in_flat_map in Hin.
    destruct Hin as [r'' [Hr'' Hin]]. apply in_map_iff in Hin.
    destruct Hin as [c'' [E'' _]]. inversion E''; subst.
    apply Hr. rewrite <- E1. apply in_map. exact Hr''.
Qed.

Lemma nx_edge_keys (ps : list ((nat * Z) * (nat * Z))) (ws : list Z) :
  length ws = length ps ->
  map edge_key (map nx_edge (combine ps ws))
  = map (fun p : (nat * Z) * (nat * Z) => (fst (fst p), fst (snd p))) ps.
Proof.
  revert ws. induction ps as [|[[i c1] [j c2]] ps IH]; intros [|w ws] H;
    simpl in *; try discriminate; [reflexivity|].
  rewrite IH by lia. reflexivity.
Qed.

(** The graph of [find_settlement_nx] has no two edges with the same
    endpoints. *)
Lemma nx_build_no_parallel_edges (rng : Type) (randint : Z -> Z -> rng -> Z * rng)
  cashouts g :
  NoDup (map edge_key (fst (nx_build randint cashouts g))).
Proof.
  rewrite nx_build_eq. simpl. rewrite map_app.
  rewrite nx_edge_keys by apply draws_length.
  apply NoDup_app.
  - unfold enumerate. apply terminal_edges_NoDup; simpl; lia.
  - apply loop_pairs_NoDup.
  - intros k Hk1 Hk2. apply in_map_iff in Hk1. destruct Hk1 as [e [<- He]].
    apply terminal_edges_In in He.
    apply in_map_iff in Hk2. destruct Hk2 as [[[i c1] [j c2]] [E Hin]].
    apply nx_pairs_In in Hin. destruct Hin as [[Hi _] [Hj _]].
    unfold edge_key in E. simpl in E. inversion E as [[E1 E2]].
    destruct He as [[H1 _]|[H1 _]]; lia.
Qed.

(** Neither has the graph of [find_settlement_or] two arcs with the same
    endpoints. *)
Lemma or_build_no_parallel_arcs (rng : Type) (randint : Z -> Z -> rng -> Z * rng)
  cashouts g :
  NoDup (map (fun a => (Tail a, Head a)) (arcs (fst (or_build randint cashouts g)))).
Proof.
  rewrite or_build_eq. simpl.
  assert (E : forall (ps : list ((nat * Z) * (nat * Z))) (ws : list Z),
             length ws = length ps ->
             map (fun a => (Tail a, Head a)) (map or_arc (combine ps ws))
             = map (fun p : (nat * Z) * (nat * Z) => (fst (fst p), fst (snd p))) ps).
  { induction ps as [|[[i c1] [j c2]] ps IH]; intros [|w ws] H;
      simpl in *; try discriminate; [reflexivity|].
    rewrite IH by lia. reflexivity. }
  rewrite E by apply draws_length. apply loop_pairs_NoDup.
Qed.

(** * The properties of the specification *)

(** ** C6: recorded amounts are strictly positive *)

(** C6.  Every payment entry (debtor, amount) of a settlement emitted by
    either extractor has a strictly positive amount, whatever flow the solver
    left behind: arcs and edges of zero (or negative) flow are skipped, never
    recorded as zero-amount payments. *)
Theorem extractors_emit_positive_amounts :
  (forall (arc_flows : list (Arc * Z)),
     amounts_positive (or_extract arc_flows [])) /\
  (forall (graph : DiGraph) (flows : list Z) (players : list (nat * Z)),
     amounts_positive (nx_extract graph flows players [])).
Proof.
  split.
  - intros afs.
    refine (@or_extract_every_entry (fun _ _ a => 0 < a) _ _ _ _).
    + apply every_entry_nil.
    + intros a f _ Hf. exact Hf.
  - intros graph flows players.
    refine (@nx_extract_every_entry (fun _ _ a => 0 < a) _ _ _ _ _ _).
    + apply every_entry_nil.
    + intros from c to f _ _ _ Hf. exact Hf.
Qed.

(** ** C7: payments only run between a debtor and a creditor *)

(** C7.  The OR-tools builder creates arcs only from a creditor to a debtor,
    the networkx builder creates, besides the source and sink edges, edges
    only from a debtor to a creditor; the two endpoints differ, a participant
    of balance zero is never an endpoint, and the capacity is the smaller of
    the two balance magnitudes.  Consequently every payment of a settlement
    returned by either backend joins a creditor (the key) and a debtor. *)
Theorem payments_join_debtor_and_creditor
  (rng : Type) (randint : Z -> Z -> rng -> Z * rng)
  (or_solve : SimpleMinCostFlow -> Status * list Z)
  (nx_solve : DiGraph -> nat -> nat -> list Z)
  (cashouts : list Z) (g : rng) :
  Forall (fun a =>
            payment_arc cashouts a /\ Tail a <> Head a /\
            cashout_at cashouts (Tail a) <> 0 /\ cashout_at cashouts (Head a) <> 0)
         (arcs (fst (or_build randint cashouts g))) /\
  Forall (fun e =>
            source_edge cashouts e \/ sink_edge cashouts e \/
            (payment_edge cashouts e /\ src e <> dst e /\
             cashout_at cashouts (src e) <> 0 /\ cashout_at cashouts (dst e) <> 0))
         (fst (nx_build randint cashouts g)) /\
  (forall t s g',
     find_settlement_or randint or_solve cashouts t g = (Returned s, g') ->
     debtor_to_creditor cashouts s) /\
  (forall t s g',
     find_settlement_nx randint nx_solve cashouts t g = (Returned s, g') ->
     debtor_to_creditor cashouts s).
Proof.
  split; [|split; [|split]].
  - apply Forall_forall. intros a Hin. apply or_build_arcs in Hin.
    split; [exact Hin|]. destruct Hin as [_ [_ [H1 [H2 _]]]].
    repeat split; try lia. intros E. rewrite E in H1. lia.
  - apply Forall_forall. intros e Hin. apply nx_build_edges in Hin.
    destruct Hin as [H|[H|H]]; [tauto | tauto |].
    right. right. split; [exact H|]. destruct H as [_ [_ [H1 [H2 _]]]].
    repeat split; try lia. intros E. rewrite E in H1. lia.
  - intros t s g' H. eapply find_settlement_or_debtor_to_creditor. exact H.
  - intros t s g' H. eapply find_settlement_nx_debtor_to_creditor. exact H.
Qed.

(** The ledger of the specification's first scenario, in units that keep the
    exhaustive solver small: A owes 5, B is owed 3 and C is owed 2. *)
Example payments_join_debtor_and_creditor_witness :
  debtor_to_creditor [-5; 3; 2] [(1%nat, [(0%nat, 3)]); (2%nat, [(0%nat, 2)])].
Proof.
  apply (proj1 (proj2 (proj2
           (@payments_join_debtor_and_creditor (list Z) tape_randint
              brute_or_solve brute_nx_solve [-5; 3; 2] [7; 4])))
         0%nat _ []).
  vm_compute. reflexivity.
Defined.

(** ** C9: trial costs *)

Section Costs.

Variable rng : Type.
Variable randint : Z -> Z -> rng -> Z * rng.
Hypothesis Hrange : randint_in_range randint.

Lemma edge_weight_range g :
  -1000000000 <= fst (edge_weight randint g) <= 1000000000.
Proof. unfold edge_weight. apply Hrange. lia. Qed.

Lemma draws_range n g :
  Forall (fun w => -1000000000 <= w <= 1000000000) (fst (draws randint n g)).
Proof.
  revert g. induction n as [|n IH]; intros g; simpl; [constructor|].
  pose proof (edge_weight_range g) as Hw.
  destruct (edge_weight randint g) as [w g1]. specialize (IH g1).
  destruct (draws randint n g1) as [ws g2]. simpl in *.
  constructor; assumption.
Qed.

End Costs.

Lemma unit_costs_of_arcs (ps : list ((nat * Z) * (nat * Z))) (ws : list Z) :
  length ws = length ps -> map UnitCost (map or_arc (combine ps ws)) = ws.
Proof.
  revert ws. induction ps as [|[[i c1] [j c2]] ps IH]; intros [|w ws] H;
    simpl in *; try discriminate; [reflexivity|].
  rewrite IH by lia. reflexivity.
Qed.

Lemma weights_of_edges (ps : list ((nat * Z) * (nat * Z))) (ws : list Z) :
  length ws = length ps -> map weight (map nx_edge (combine ps ws)) = map Some ws.
Proof.
  revert ws. induction ps as [|[[i c1] [j c2]] ps IH]; intros [|w ws] H;
    simpl in *; try discriminate; [reflexivity|].
  rewrite IH by lia. reflexivity.
Qed.

Lemma terminal_edges_weight source sink players :
  map weight (terminal_edges source sink players)
  = map (fun _ => None) (terminal_edges source sink players).
Proof.
  unfold terminal_edges. induction players as [|[p c] players IH]; simpl;
    [reflexivity|].
  rewrite !map_app, IH. f_equal.
  unfold terminal_edge. simpl.
  destruct (c <? 0); [reflexivity|]. destruct (c >? 0); reflexivity.
Qed.

Lemma find_settlement_or_state (rng : Type) (randint : Z -> Z -> rng -> Z * rng)
  or_solve cashouts t g :
  snd (find_settlement_or randint or_solve cashouts t g)
  = snd (or_build randint cashouts g).
Proof.
  unfold find_settlement_or. destruct (or_build randint cashouts g) as [m g1].
  destruct (or_solve m) as [status flows].
  destruct (Status_eqb status OPTIMAL); reflexivity.
Qed.

Lemma find_settlement_nx_state (rng : Type) (randint : Z -> Z -> rng -> Z * rng)
  nx_solve cashouts t g :
  snd (find_settlement_nx randint nx_solve cashouts t g)
  = snd (nx_build randint cashouts g).
Proof.
  unfold find_settlement_nx. destruct (nx_build randint cashouts g) as [graph g1].
  destruct (max_flow_min_cost nx_solve graph _ _); reflexivity.
Qed.

Lemma loop_pairs_length ko ki outer inner :
  length (loop_pairs ko ki outer inner)
  = (length (select ko outer) * length (select ki inner))%nat.
Proof.
  unfold loop_pairs. induction (select ko outer) as [|x l IH]; simpl; [reflexivity|].
  rewrite length_app, length_map, IH. reflexivity.
Qed.

(** C9.  Every cost returned by [edge_weight] lies in [-10^9, 10^9].  A trial
    draws exactly one cost per candidate edge: the costs of the graph it
    builds are, in order, the next draws of the generator, as many as there
    are (creditor, debtor) pairs, and nothing else is drawn.  The generator a
    trial leaves behind has advanced by exactly these draws, so the following
    trial of the same process builds its graph from the draws that come
    after: no cost of a trial is carried into the next one. *)
Theorem trial_costs_are_fresh_draws
  (rng : Type) (randint : Z -> Z -> rng -> Z * rng)
  (or_solve : SimpleMinCostFlow -> Status * list Z)
  (nx_solve : DiGraph -> nat -> nat -> list Z)
  (Hrange : randint_in_range randint)
  (cashouts : list Z) (t : nat) (g : rng) :
  let pairs := length (or_pairs cashouts) in
  let after_or := snd (find_settlement_or randint or_solve cashouts t g) in
  let after_nx := snd (find_settlement_nx randint nx_solve cashouts t g) in
  (-1000000000 <= fst (edge_weight randint g) <= 1000000000) /\
  (length (arcs (fst (or_build randint cashouts g))) = pairs /\
   map UnitCost (arcs (fst (or_build randint cashouts g)))
   = fst (draws randint pairs g) /\
   Forall (fun a => -1000000000 <= UnitCost a <= 1000000000)
          (arcs (fst (or_build randint cashouts g)))) /\
  (length (nx_pairs cashouts) = pairs /\
   map weight (fst (nx_build randint cashouts g))
   = map (fun _ => None) (nx_terminals cashouts)
     ++ map Some (fst (draws randint pairs g))) /\
  (after_or = snd (draws randint pairs g) /\
   after_nx = snd (draws randint pairs g) /\
   map UnitCost (arcs (fst (or_build randint cashouts after_or)))
   = skipn pairs (fst (draws randint (pairs + pairs) g)) /\
   fst (draws randint pairs g)
   = firstn pairs (fst (draws randint (pairs + pairs) g))).
Proof.
  intros pairs after_or after_nx.
  assert (Hnx : length (nx_pairs cashouts) = pairs).
  { unfold pairs, nx_pairs, or_pairs. rewrite !loop_pairs_length. apply Nat.mul_comm. }
  assert (Hor : forall g0,
             map UnitCost (arcs (fst (or_build randint cashouts g0)))
             = fst (draws randint pairs g0)).
  { intros g0. rewrite or_build_eq. simpl.
    apply unit_costs_of_arcs. apply draws_length. }
  assert (Hafter : after_or = snd (draws randint pairs g)).
  { unfold after_or. rewrite find_settlement_or_state, or_build_eq. reflexivity. }
  split; [apply edge_weight_range; exact Hrange|].
  split; [|split].
  - split; [|split].
    + rewrite <- (length_map UnitCost), Hor. apply draws_length.
    + apply Hor.
    + pose proof (draws_range Hrange pairs g) as Hd. rewrite <- Hor in Hd.
      apply Forall_forall. intros a Hin. rewrite Forall_forall in Hd.
      apply Hd. apply in_map. exact Hin.
  - split; [exact Hnx|].
    rewrite nx_build_eq. simpl. rewrite map_app.
    rewrite terminal_edges_weight. fold (nx_terminals cashouts).
    rewrite weights_of_edges by apply draws_length.
    rewrite Hnx. reflexivity.
  - split; [exact Hafter|]. split; [|split].
    + unfold after_nx. rewrite find_settlement_nx_state, nx_build_eq. simpl.
      rewrite Hnx. reflexivity.
    + rewrite Hor, Hafter, draws_app. simpl.
      rewrite skipn_app, draws_length, Nat.sub_diag. simpl.
      rewrite skipn_all2 by (rewrite draws_length; lia). reflexivity.
    + rewrite draws_app. simpl.
      rewrite firstn_app, draws_length, Nat.sub_diag. simpl.
      rewrite firstn_all2 by (rewrite draws_length; lia).
      rewrite app_nil_r. reflexivity.
Qed.

(** Two creditors and two debtors: four candidate edges, four draws. *)
Example trial_costs_are_fresh_draws_witness :
  map UnitCost
    (arcs (fst (or_build tape_randint [-2; -1; 1; 2] [1; 9; 1; 1; 9; 1; 1; 9])))
  = [1; 9; 1; 1].
Proof.
  exact (proj1 (proj2 (proj1 (proj2
           (@trial_costs_are_fresh_draws (list Z) tape_randint
              brute_or_solve brute_nx_solve tape_randint_in_range
              [-2; -1; 1; 2] 0%nat [1; 9; 1; 1; 9; 1; 1; 9]))))).
Defined.

(** ** Tasks and schedules *)

Lemma chunk_size_pos num_trials cpus :
  (1 <= num_trials)%nat -> (1 <= cpus)%nat -> (1 <= chunk_size num_trials cpus)%nat.
Proof.
  intros Hn Hc. unfold chunk_size.
  apply Nat.div_le_lower_bound; lia.
Qed.

Lemma chunk_size_zero cpus : chunk_size 0 cpus = 0%nat.
Proof.
  unfold chunk_size. destruct cpus as [|c]; [reflexivity|].
  apply Nat.div_small. lia.
Qed.

Lemma get_tasks_upto_nonempty fuel it size :
  Forall (fun task => task <> []) (get_tasks_upto fuel it size).
Proof.
  revert it. induction fuel as [|fuel IH]; intros it; simpl; [constructor|].
  destruct (firstn size it) as [|x task] eqn:E; constructor.
  - discriminate.
  - apply IH.
Qed.

Lemma pool_tasks_nonempty num_trials chunk :
  Forall (fun task => task <> []) (pool_tasks num_trials chunk).
Proof.
  unfold pool_tasks. destruct (Nat.eqb chunk 1).
  - apply Forall_forall. intros task Hin. apply in_map_iff in Hin.
    destruct Hin as [i [<- _]]. discriminate.
  - apply get_tasks_upto_nonempty.
Qed.

Lemma pool_tasks_exist num_trials chunk :
  (1 <= num_trials)%nat -> (1 <= chunk)%nat ->
  (1 <= length (pool_tasks num_trials chunk))%nat.
Proof.
  intros Hn Hc. unfold pool_tasks. destruct (Nat.eqb chunk 1).
  - rewrite length_map, length_seq. exact Hn.
  - unfold get_tasks. rewrite length_seq.
    destruct num_trials as [|n]; [lia|]. destruct chunk as [|c]; [lia|].
    simpl. lia.
Qed.

Lemma task_count_pool_tasks num_trials cpus :
  task_count num_trials cpus
  = length (pool_tasks num_trials (chunk_size num_trials cpus)).
Proof.
  unfold task_count, pool_tasks.
  destruct (Nat.eqb (chunk_size num_trials cpus) 1); [|reflexivity].
  rewrite length_map, length_seq. reflexivity.
Qed.

Lemma imap_unordered_pool_tasks (rng : Type) (env : PoolEnv rng) func num_trials chunk :
  (1 <= chunk)%nat ->
  imap_unordered env func num_trials chunk
  = Returned (run_schedule func (pool_tasks num_trials chunk)
                (schedule env) (worker_rng env)).
Proof.
  intros Hc. unfold imap_unordered, pool_tasks.
  destruct (Nat.eqb chunk 1) eqn:E; [reflexivity|].
  assert (E' : (chunk <? 1)%nat = false) by (apply Nat.ltb_ge; exact Hc).
  rewrite E'. reflexivity.
Qed.

Section Runs.

Variable rng : Type.
Variable func : nat -> rng -> outcome (list (nat * list (nat * Z))) * rng.

(** When every trial returns, so does every task. *)
Lemma mapstar_returns items g :
  (forall i g0, exists s g1, func i g0 = (Returned s, g1)) ->
  exists ss g', mapstar func items g = (Returned ss, g') /\
                length ss = length items.
Proof.
  intros Hf. revert g. induction items as [|i items IH]; intros g; simpl.
  - exists [], g. auto.
  - destruct (Hf i g) as [s [g1 E]]. rewrite E.
    destruct (IH g1) as [ss [g2 [E' Hl]]]. rewrite E'.
    exists (s :: ss), g2. simpl. auto.
Qed.

Lemma run_schedule_returns tasks sched st :
  (forall i g0, exists s g1, func i g0 = (Returned s, g1)) ->
  exists ss, arrived (run_schedule func tasks sched st) = Some ss /\
             (forall w k, In (w, k) sched -> nth k tasks [] <> [] -> ss <> []).
Proof.
  intros Hf. revert st. induction sched as [|[w k] sched IH]; intros st; simpl.
  - exists []. split; [reflexivity|]. intros w k [].
  - destruct (mapstar_returns (nth k tasks []) (st w) Hf) as [ss [g' [E Hl]]].
    rewrite E. destruct (IH (set_worker st w g')) as [ss' [E' Hne]].
    simpl. rewrite E'. exists (ss ++ ss'). split; [reflexivity|].
    intros w0 k0 [Heq|Hin] Hk.
    + inversion Heq; subst. destruct ss as [|s ss].
      * simpl in Hl. destruct (nth k0 tasks []); [contradiction | discriminate].
      * discriminate.
    + specialize (Hne w0 k0 Hin Hk). destruct ss; simpl; [exact Hne | discriminate].
Qed.

(** When every trial raises, the first task to complete raises. *)
Lemma mapstar_raises (Q : exn -> Prop) items g :
  (forall i g0, exists e g1, func i g0 = (Raised e, g1) /\ Q e) -> items <> [] ->
  exists e g', mapstar func items g = (Raised e, g') /\ Q e.
Proof.
  intros Hf Hne. destruct items as [|i items]; [contradiction|]. simpl.
  destruct (Hf i g) as [e [g1 [E HQ]]]. rewrite E. exists e, g1. auto.
Qed.

End Runs.

Lemma valid_schedule_tasks (rng : Type) (env : PoolEnv rng) ntasks w k :
  valid_schedule env ntasks -> In (w, k) (schedule env) -> (k < ntasks)%nat.
Proof.
  intros [Hperm _] Hin.
  assert (Hk : In k (map snd (schedule env))) by (apply in_map_iff; exists (w, k); auto).
  apply (Permutation_in _ Hperm) in Hk. apply in_seq in Hk. lia.
Qed.

Lemma valid_schedule_nonempty (rng : Type) (env : PoolEnv rng) ntasks :
  valid_schedule env ntasks -> (1 <= ntasks)%nat ->
  exists w k rest, schedule env = (w, k) :: rest.
Proof.
  intros [Hperm _] Hn. destruct (schedule env) as [|[w k] rest] eqn:E.
  - simpl in Hperm. apply Permutation_length in Hperm. rewrite length_seq in Hperm.
    simpl in Hperm. lia.
  - exists w, k, rest. reflexivity.
Qed.

Lemma nth_nonempty (tasks : list (list nat)) k :
  Forall (fun task => task <> []) tasks -> (k < length tasks)%nat ->
  nth k tasks [] <> [].
Proof.
  intros H Hk. rewrite Forall_forall in H. apply H. apply nth_In. exact Hk.
Qed.

Lemma fold_keep_best_none ss acc :
  snd (fold_left keep_best ss acc) = None ->
  fst (fold_left keep_best ss acc) = fst acc.
Proof.
  revert acc. induction ss as [|s ss IH]; intros acc H; simpl in *; [reflexivity|].
  destruct (keep_best_cases acc s) as [[E _]|[E _]]; rewrite E in *.
  - apply IH. exact H.
  - destruct (fold_keep_best_some ss (cost_of s, Some s) (s0 := s) eq_refl) as [s' Hs'].
    rewrite Hs' in H. discriminate.
Qed.

(** The search returns a settlement as soon as every trial returns one that
    is cheaper than the sentinel, at least one trial is asked for, and the
    schedule is well formed. *)
Lemma find_best_settlement_returns (rng : Type)
  (finder : list Z -> nat -> rng -> outcome (list (nat * list (nat * Z))) * rng)
  cashouts num_trials (env : PoolEnv rng) :
  (forall t g, exists s g', finder cashouts t g = (Returned s, g')) ->
  (forall t g s g', finder cashouts t g = (Returned s, g') ->
     (cost_of s <= length cashouts * length cashouts)%nat) ->
  (1 <= num_trials)%nat -> (1 <= cpu_count env)%nat ->
  valid_schedule env (task_count num_trials (cpu_count env)) ->
  exists s, find_best_settlement finder cashouts num_trials env = Returned (Some s).
Proof.
  intros Hret Hcost Hn Hc Hvalid. unfold find_best_settlement.
  pose proof (chunk_size_pos Hn Hc) as Hchunk.
  rewrite imap_unordered_pool_tasks by exact Hchunk.
  set (tasks := pool_tasks num_trials (chunk_size num_trials (cpu_count env))).
  destruct (run_schedule_returns (finder cashouts) tasks (schedule env)
              (worker_rng env) Hret) as [ss [Ess Hne]].
  rewrite (aggregate_arrived _ _ Ess).
  rewrite task_count_pool_tasks in Hvalid. fold tasks in Hvalid.
  pose proof (pool_tasks_exist Hn Hchunk) as Hex. fold tasks in Hex.
  destruct (valid_schedule_nonempty Hvalid Hex) as [w [k [rest Hsched]]].
  assert (Hk : (k < length tasks)%nat)
    by (eapply valid_schedule_tasks; [exact Hvalid | rewrite Hsched; left; reflexivity]).
  assert (Hss : ss <> []).
  { apply (Hne w k); [rewrite Hsched; left; reflexivity|].
    apply nth_nonempty; [apply pool_tasks_nonempty | exact Hk]. }
  destruct ss as [|s0 ss']; [contradiction|].
  set (start := ((length cashouts * length cashouts + 1)%nat,
                 @None (list (nat * list (nat * Z))))).
  destruct (fold_left keep_best (s0 :: ss') start) as [c [s|]] eqn:E.
  - exists s. reflexivity.
  - exfalso.
    pose proof (fold_keep_best_none (s0 :: ss') start) as Hnone.
    assert (Hlow : (fst (fold_left keep_best (s0 :: ss') start) <= cost_of s0)%nat)
      by (apply fold_keep_best_lower; left; reflexivity).
    rewrite E in Hnone, Hlow. simpl in Hnone, Hlow. specialize (Hnone eq_refl).
    destruct (arrived_In _ _ Ess (or_introl eq_refl)) as [chunk [Hchunk' Hs0]].
    assert (Horigin : exists t g g', finder cashouts t g = (Returned s0, g'))
      by (eapply run_schedule_origin; eassumption).
    destruct Horigin as [t [g [g' Horigin]]].
    specialize (Hcost _ _ _ _ Horigin). lia.
Qed.

(** ** When the OR-tools trial returns *)

Lemma outflow_sum_where_keys al flows (keys : list nat) :
  map (fun v => outflow al flows v) keys
  = map (fun v => sum_where (fun a => Nat.eqb (Tail a) v) (combine al flows)) keys.
Proof. reflexivity. Qed.

Lemma inflow_sum_where_keys al flows (keys : list nat) :
  map (fun v => inflow al flows v) keys
  = map (fun v => sum_where (fun a => Nat.eqb (Head a) v) (combine al flows)) keys.
Proof. reflexivity. Qed.

Lemma select_length_le keep cashouts :
  (length (select keep (enumerate cashouts)) <= length cashouts)%nat.
Proof.
  unfold select. etransitivity; [apply filter_length_le|].
  unfold enumerate, enumerate_from. rewrite length_combine, length_seq. lia.
Qed.

Lemma or_pairs_length_le cashouts :
  (length (or_pairs cashouts) <= length cashouts * length cashouts)%nat.
Proof.
  unfold or_pairs. rewrite loop_pairs_length.
  apply Nat.mul_le_mono; apply select_length_le.
Qed.

Section OrReturns.

Variable rng : Type.
Variable randint : Z -> Z -> rng -> Z * rng.
Variable or_solve : SimpleMinCostFlow -> Status * list Z.

Lemma find_settlement_or_cost cashouts t g s g' :
  find_settlement_or randint or_solve cashouts t g = (Returned s, g') ->
  (cost_of s <= length cashouts * length cashouts)%nat.
Proof.
  intros H. apply find_settlement_or_returned in H.
  destruct H as [flows [_ [-> _]]].
  etransitivity; [apply or_extract_cost|]. simpl.
  rewrite arcs_with_flow_length, or_build_eq. simpl.
  rewrite length_map, length_combine.
  pose proof (or_pairs_length_le cashouts). lia.
Qed.

Lemma find_settlement_or_returns cashouts t g :
  or_complete or_solve -> balanced cashouts ->
  exists s g', find_settlement_or randint or_solve cashouts t g = (Returned s, g').
Proof.
  intros Hcomplete Hbal. unfold find_settlement_or. rewrite or_build_eq.
  set (ws := fst (draws randint (length (or_pairs cashouts)) g)).
  assert (Hws : length ws = length (or_pairs cashouts)) by apply draws_length.
  pose proof (Hcomplete _ _ (@or_plan_feasible cashouts ws Hbal Hws)) as Hopt.
  destruct (or_solve _) as [status flows]. simpl in Hopt. subst status.
  simpl. eexists. eexists. reflexivity.
Qed.

(** A ledger that is not closed admits no feasible flow. *)
Lemma unbalanced_infeasible cashouts al flows :
  (forall a, In a al -> payment_arc cashouts a) ->
  feasible (mkMCF al cashouts) flows -> balanced cashouts.
Proof.
  intros Harcs Hfeas.
  destruct Hfeas as [Hlen [Hcap Hcons]]. simpl in *.
  assert (Hsum : forall start l,
             zsum (map (fun v => nth (v - start) l 0) (seq start (length l)))
             = sum_cashouts l).
  { intros start l. revert start. induction l as [|x l IH]; intros start; simpl;
      [reflexivity|].
    rewrite Nat.sub_diag. unfold zsum in *. simpl. f_equal.
    rewrite <- (IH (S start)). f_equal. apply map_ext_in. intros v Hv.
    apply in_seq in Hv. replace (v - start)%nat with (S (v - S start)) by lia.
    reflexivity. }
  unfold balanced. rewrite <- (Hsum 0%nat cashouts).
  rewrite (zsum_map_ext _ (fun v => outflow al flows v - inflow al flows v))
    by (intros v _; rewrite Nat.sub_0_r; symmetry; apply Hcons).
  rewrite (zsum_map_ext _ (fun v => outflow al flows v + (- inflow al flows v)))
    by (intros; lia).
  rewrite zsum_map_add.
  assert (Hneg : forall (F : nat -> Z) l,
             zsum (map (fun v => - F v) l) = - zsum (map F l)).
  { intros F l. unfold zsum. induction l as [|v l IH]; simpl; lia. }
  rewrite Hneg.
  rewrite !outflow_sum_where_keys, !inflow_sum_where_keys.
  rewrite !sum_by_key by apply seq_NoDup.
  rewrite (sum_where_ext (fun a => mem (Tail a) (seq 0 (length cashouts)))
             (fun a => mem (Head a) (seq 0 (length cashouts))) (combine al flows)).
  - lia.
  - intros a x Hin. apply in_combine_l in Hin. apply Harcs in Hin.
    destruct Hin as [H1 [H2 _]].
    apply mem_seq in H1. apply mem_seq in H2. congruence.
Qed.

End OrReturns.

(** ** C1: the returned settlement zeroes every balance *)

(** C1.  For every ledger whose balances sum to zero, whatever the number of
    trials and the pool's schedule, a settlement returned by the search
    zeroes every balance, with the OR-tools backend (whose solver answers
    OPTIMAL only with a feasible flow) as with the networkx backend (whose
    solver returns a maximum flow): every creditor receives exactly its
    balance, every debtor pays exactly the magnitude of its balance, and
    nobody else pays or receives anything.  A partial settlement is never
    returned. *)
Theorem returned_settlement_zeroes_ledger
  (rng : Type) (randint : Z -> Z -> rng -> Z * rng)
  (or_solve : SimpleMinCostFlow -> Status * list Z)
  (nx_solve : DiGraph -> nat -> nat -> list Z)
  (Hor : or_sound or_solve) (Hnx : nx_max_flow nx_solve)
  (cashouts : list Z) (Hbal : balanced cashouts)
  (num_trials : nat) (env : PoolEnv rng) (s : list (nat * list (nat * Z))) :
  find_best_settlement (find_settlement_or randint or_solve) cashouts num_trials env
    = Returned (Some s) \/
  find_best_settlement (find_settlement_nx randint nx_solve) cashouts num_trials env
    = Returned (Some s) ->
  forall p : nat,
    received s p = Z.max 0 (cashout_at cashouts p) /\
    paid s p = Z.max 0 (- cashout_at cashouts p).
Proof.
  intros [H|H]; apply find_best_settlement_origin in H;
    destruct H as [t [g [g' H]]].
  - eapply find_settlement_or_settles; eassumption.
  - eapply find_settlement_nx_settles; eassumption.
Qed.

Example returned_settlement_zeroes_ledger_witness :
  settles [-5; 3; 2] [(1%nat, [(0%nat, 3)]); (2%nat, [(0%nat, 2)])].
Proof.
  refine (@returned_settlement_zeroes_ledger (list Z) tape_randint
            brute_or_solve brute_nx_solve brute_or_sound brute_nx_max_flow
            [-5; 3; 2] eq_refl 1%nat (serial_env 1 [7; 4]) _ _).
  left. vm_compute. reflexivity.
Defined.

(** X25.  With a solver that answers OPTIMAL whenever a feasible flow exists,
    the search over the OR-tools backend does return a settlement for a
    closed ledger, as soon as it is asked for one trial. *)
Theorem closed_ledger_or_search_returns
  (rng : Type) (randint : Z -> Z -> rng -> Z * rng)
  (or_solve : SimpleMinCostFlow -> Status * list Z)
  (Hsound : or_sound or_solve) (Hcomplete : or_complete or_solve)
  (cashouts : list Z) (Hbal : balanced cashouts)
  (num_trials : nat) (env : PoolEnv rng) :
  (1 <= num_trials)%nat -> (1 <= cpu_count env)%nat ->
  valid_schedule env (task_count num_trials (cpu_count env)) ->
  exists s,
    find_best_settlement (find_settlement_or randint or_solve) cashouts num_trials env
    = Returned (Some s) /\ settles cashouts s.
Proof.
  intros Hn Hc Hvalid.
  destruct (@find_best_settlement_returns rng (find_settlement_or randint or_solve)
              cashouts num_trials env) as [s Hs]; try assumption.
  - intros t g. apply find_settlement_or_returns; assumption.
  - intros t g s g' H. eapply find_settlement_or_cost. exact H.
  - exists s. split; [exact Hs|].
    apply find_best_settlement_origin in Hs. destruct Hs as [t [g [g' H]]].
    eapply find_settlement_or_settles; eassumption.
Qed.

Example closed_ledger_or_search_returns_witness :
  exists s,
    find_best_settlement (find_settlement_or tape_randint brute_or_solve)
      [-5; 3; 2] 2 (serial_env 1 [7; 4; 1; 8]) = Returned (Some s)
    /\ settles [-5; 3; 2] s.
Proof.
  refine (@closed_ledger_or_search_returns (list Z) tape_randint brute_or_solve
            brute_or_sound brute_or_complete [-5; 3; 2] eq_refl 2%nat
            (serial_env 1 [7; 4; 1; 8]) _ _ _).
  - lia.
  - simpl. lia.
  - split; [|repeat constructor]. vm_compute. apply Permutation_refl.
Defined.

(** ** C2: ledgers that are not closed *)

Lemma Status_eqb_true a b : Status_eqb a b = true -> a = b.
Proof. destruct a, b; simpl; intros H; try discriminate; reflexivity. Qed.

Lemma find_settlement_or_raises (rng : Type) (randint : Z -> Z -> rng -> Z * rng)
  or_solve cashouts t g :
  or_sound or_solve -> ~ balanced cashouts ->
  exists e g', find_settlement_or randint or_solve cashouts t g = (Raised e, g') /\
               exists status, e = AssertionError status /\ status <> OPTIMAL.
Proof.
  intros Hsound Hunb. unfold find_settlement_or.
  pose proof (@or_build_arcs rng randint cashouts g) as Harcs. revert Harcs.
  rewrite or_build_eq. simpl. intros Harcs.
  destruct (or_solve _) as [status flows] eqn:E.
  destruct (Status_eqb status OPTIMAL) eqn:Es.
  - apply Status_eqb_true in Es. subst status. apply Hsound in E.
    exfalso. apply Hunb. eapply unbalanced_infeasible; eassumption.
  - eexists. eexists. split; [reflexivity|]. exists status. split; [reflexivity|].
    intros ->. discriminate.
Qed.

(** X26.  On the OR-tools backend a ledger that is not closed is fatal: the
    first task to complete re-raises the failed assertion in the caller, and
    no settlement is returned. *)
Theorem unbalanced_ledger_or_search_raises
  (rng : Type) (randint : Z -> Z -> rng -> Z * rng)
  (or_solve : SimpleMinCostFlow -> Status * list Z)
  (Hsound : or_sound or_solve)
  (cashouts : list Z) (Hunb : ~ balanced cashouts)
  (num_trials : nat) (env : PoolEnv rng) :
  (1 <= num_trials)%nat -> (1 <= cpu_count env)%nat ->
  valid_schedule env (task_count num_trials (cpu_count env)) ->
  exists status,
    find_best_settlement (find_settlement_or randint or_solve) cashouts num_trials env
    = Raised (AssertionError status) /\ status <> OPTIMAL.
Proof.
  intros Hn Hc Hvalid. unfold find_best_settlement.
  pose proof (chunk_size_pos Hn Hc) as Hchunk.
  rewrite imap_unordered_pool_tasks by exact Hchunk.
  set (tasks := pool_tasks num_trials (chunk_size num_trials (cpu_count env))).
  rewrite task_count_pool_tasks in Hvalid. fold tasks in Hvalid.
  pose proof (pool_tasks_exist Hn Hchunk) as Hex. fold tasks in Hex.
  destruct (valid_schedule_nonempty Hvalid Hex) as [w [k [rest Hsched]]].
  assert (Hk : (k < length tasks)%nat)
    by (eapply valid_schedule_tasks; [exact Hvalid | rewrite Hsched; left; reflexivity]).
  rewrite Hsched. simpl.
  destruct (@mapstar_raises rng (find_settlement_or randint or_solve cashouts)
              (fun e => exists status, e = AssertionError status /\ status <> OPTIMAL)
              (nth k tasks []) (worker_rng env w))
    as [e [g' [E [status [-> Hst]]]]].
  - intros i g0. apply find_settlement_or_raises; assumption.
  - apply nth_nonempty; [apply pool_tasks_nonempty | exact Hk].
  - rewrite E. simpl. exists status. split; [reflexivity | exact Hst].
Qed.

Example unbalanced_ledger_or_search_raises_witness :
  exists status,
    find_best_settlement (find_settlement_or tape_randint brute_or_solve)
      [-100; 50] 2 (serial_env 1 [7]) = Raised (AssertionError status)
    /\ status <> OPTIMAL.
Proof.
  refine (@unbalanced_ledger_or_search_raises (list Z) tape_randint brute_or_solve
            brute_or_sound [-100; 50] _ 2%nat (serial_env 1 [7]) _ _ _).
  - vm_compute. discriminate.
  - lia.
  - simpl. lia.
  - split; [|repeat constructor]. vm_compute. apply Permutation_refl.
Defined.

Lemma nx_flow_on_unbalanced_example (w : Z) (flows : list Z) :
  let graph := [mkEdge 2 0 100 None; mkEdge 1 3 50 None; mkEdge 0 1 50 (Some w)] in
  st_flow graph 2 3 flows ->
  (forall other, st_flow graph 2 3 other ->
     flow_value graph 2 other <= flow_value graph 2 flows) ->
  flows = [50; 50; 50].
Proof.
  intros graph [Hlen [Hcap Hcons]] Hmax.
  destruct flows as [|a [|b [|c [|d flows]]]]; try discriminate.
  inversion Hcap as [|? ? ? ? Ha Hcap1]; subst.
  inversion Hcap1 as [|? ? ? ? Hb Hcap2]; subst.
  inversion Hcap2 as [|? ? ? ? Hc _]; subst. simpl in Ha, Hb, Hc.
  pose proof (Hcons 0%nat ltac:(lia) ltac:(lia)) as H0.
  pose proof (Hcons 1%nat ltac:(lia) ltac:(lia)) as H1.
  unfold graph, edge_outflow, edge_inflow in H0, H1. simpl in H0, H1.
  assert (Hother : st_flow graph 2 3 [50; 50; 50]).
  { split; [reflexivity|]. split.
    - repeat constructor; simpl; lia.
    - intros v Hs Ht. unfold graph, edge_outflow, edge_inflow. simpl.
      destruct v as [|[|[|[|v]]]]; simpl; try lia. }
  specialize (Hmax _ Hother).
  unfold graph, flow_value, edge_outflow, edge_inflow in Hmax. simpl in Hmax.
  f_equal; [lia|]. f_equal; [lia|]. f_equal. lia.
Qed.

(** C2 (where the code departs from it).  On the networkx backend the ledger
    [(A, -100), (B, 50)], whose balances do not sum to zero, raises nothing:
    the maximum flow moves 50 from A to B, so the trial, and with it the
    search, returns the partial settlement "A pays B 50", which leaves A
    with a debt of 50. *)
Theorem unbalanced_ledger_nx_returns_partial_settlement
  (rng : Type) (randint : Z -> Z -> rng -> Z * rng)
  (nx_solve : DiGraph -> nat -> nat -> list Z)
  (Hnx : nx_max_flow nx_solve) (t : nat) (g : rng) :
  ~ balanced [-100; 50] /\
  fst (find_settlement_nx randint nx_solve [-100; 50] t g)
  = Returned [(1%nat, [(0%nat, 50)])] /\
  find_best_settlement (find_settlement_nx randint nx_solve) [-100; 50] 1
    (serial_env 1 g)
  = Returned (Some [(1%nat, [(0%nat, 50)])]) /\
  paid [(1%nat, [(0%nat, 50)])] 0 = 50 /\
  ~ settles [-100; 50] [(1%nat, [(0%nat, 50)])].
Proof.
  assert (Htrial : forall t0 g0,
             fst (find_settlement_nx randint nx_solve [-100; 50] t0 g0)
             = Returned [(1%nat, [(0%nat, 50)])]).
  { intros t0 g0. unfold find_settlement_nx, nx_build. simpl.
    destruct (edge_weight randint g0) as [w g1]. simpl.
    unfold max_flow_min_cost. simpl.
    set (graph := [mkEdge 2 0 100 None; mkEdge 1 3 50 None; mkEdge 0 1 50 (Some w)]).
    assert (Hcaps : Forall (fun e => 0 <= capacity e) graph)
      by (repeat constructor; simpl; lia).
    destruct (Hnx graph 2%nat 3%nat eq_refl eq_refl ltac:(lia) Hcaps) as [Hflow Hmax].
    change (add_edge 0 1 (Z.min 100 50) (Some w)
              (add_edge 1 3 50 None (add_edge 2 0 100 None []))) with graph.
    rewrite (nx_flow_on_unbalanced_example Hflow Hmax). reflexivity. }
  split; [|split; [|split; [|split]]].
  - unfold balanced. simpl. lia.
  - apply Htrial.
  - unfold find_best_settlement, serial_env. simpl.
    pose proof (Htrial 0%nat g) as H.
    destruct (find_settlement_nx randint nx_solve [-100; 50] 0 g) as [r g1].
    simpl in H. subst r. reflexivity.
  - reflexivity.
  - intros H. destruct (H 0%nat) as [_ Hp]. vm_compute in Hp. discriminate.
Qed.

Example unbalanced_ledger_nx_returns_partial_settlement_witness :
  fst (find_settlement_nx tape_randint brute_nx_solve [-100; 50] 0 [7])
  = Returned [(1%nat, [(0%nat, 50)])].
Proof.
  exact (proj1 (proj2
           (@unbalanced_ledger_nx_returns_partial_settlement (list Z) tape_randint
              brute_nx_solve brute_nx_max_flow 0%nat [7]))).
Defined.

(** ** C3 and C4: the aggregation *)

Lemma find_best_settlement_fold (rng : Type) (env : PoolEnv rng) finder cashouts
  num_trials ss :
  trial_results env finder cashouts num_trials = Some ss ->
  find_best_settlement finder cashouts num_trials env
  = Returned (snd (fold_left keep_best ss (start_of cashouts))).
Proof.
  unfold trial_results, find_best_settlement.
  destruct (imap_unordered env (finder cashouts) num_trials _) as [arrivals|e];
    [|discriminate].
  intros H. rewrite (aggregate_arrived _ _ H). unfold start_of.
  destruct (fold_left keep_best ss _). reflexivity.
Qed.

Lemma find_best_settlement_results (rng : Type) (env : PoolEnv rng) finder cashouts
  num_trials r :
  find_best_settlement finder cashouts num_trials env = Returned r ->
  exists ss, trial_results env finder cashouts num_trials = Some ss.
Proof.
  unfold trial_results, find_best_settlement.
  destruct (imap_unordered env (finder cashouts) num_trials _) as [arrivals|e];
    [|discriminate].
  destruct (aggregate arrivals _) as [[c b]|e] eqn:E; [|discriminate].
  intros _. eapply aggregate_returned. exact E.
Qed.

Lemma best_of_prefix (rng : Type)
  (finder : list Z -> nat -> rng -> outcome (list (nat * list (nat * Z))) * rng)
  (cashouts : list Z) (n nm : nat) (env_n env_nm : PoolEnv rng)
  (first more : list (list (nat * list (nat * Z))))
  (s1 : list (nat * list (nat * Z))) :
  trial_results env_n finder cashouts n = Some first ->
  trial_results env_nm finder cashouts nm = Some (first ++ more) ->
  find_best_settlement finder cashouts n env_n = Returned (Some s1) ->
  exists s2,
    find_best_settlement finder cashouts nm env_nm = Returned (Some s2) /\
    (cost_of s2 <= cost_of s1)%nat.
Proof.
  intros Hn Hnm Hbest.
  rewrite (find_best_settlement_fold _ _ _ _ Hn) in Hbest.
  rewrite (find_best_settlement_fold _ _ _ _ Hnm).
  rewrite fold_left_app.
  set (acc := fold_left keep_best first (start_of cashouts)) in *.
  assert (Hs1 : snd acc = Some s1) by (inversion Hbest; reflexivity).
  assert (Hcoh : coherent acc)
    by (apply fold_keep_best_coherent; unfold coherent, start_of; simpl; exact I).
  destruct (fold_keep_best_some more acc Hs1) as [s2 Hs2].
  exists s2. split; [rewrite Hs2; reflexivity|].
  pose proof (fold_keep_best_le more acc) as Hle.
  pose proof (@fold_keep_best_coherent more acc Hcoh) as Hcoh2.
  unfold coherent in Hcoh, Hcoh2. rewrite Hs1 in Hcoh. rewrite Hs2 in Hcoh2. lia.
Qed.

(** Without trials the chunk size is zero, which [imap_unordered] refuses. *)
Lemma zero_trials_raise (rng : Type)
  (finder : list Z -> nat -> rng -> outcome (list (nat * list (nat * Z))) * rng)
  (cashouts : list Z) (env : PoolEnv rng) :
  find_best_settlement finder cashouts 0 env = Raised ValueError.
Proof.
  unfold find_best_settlement, imap_unordered. rewrite chunk_size_zero. reflexivity.
Qed.

(** *** The single worker

    On a pool of one worker the N + M run is literally the N run continued:
    the worker runs the trials in order on one generator. *)

Lemma chunk_size_one_cpu n : chunk_size n 1 = n.
Proof. unfold chunk_size. rewrite Nat.add_sub. apply Nat.div_1_r. Qed.

Lemma pool_tasks_single n : (1 <= n)%nat -> pool_tasks n n = [seq 0 n].
Proof.
  intros Hn. unfold pool_tasks. destruct (Nat.eqb n 1) eqn:E.
  - apply Nat.eqb_eq in E. subst n. reflexivity.
  - unfold get_tasks. rewrite length_seq.
    destruct n as [|n]; [lia|]. cbn [get_tasks_upto].
    rewrite firstn_all2 by (rewrite length_seq; lia).
    rewrite skipn_all2 by (rewrite length_seq; lia).
    cbn [seq]. f_equal.
    destruct n as [|n]; [reflexivity|]. reflexivity.
Qed.

Lemma mapstar_app (rng : Type)
  (func : nat -> rng -> outcome (list (nat * list (nat * Z))) * rng)
  (l1 l2 : list nat) (g : rng) :
  mapstar func (l1 ++ l2) g
  = match mapstar func l1 g with
    | (Raised e, g1) => (Raised e, g1)
    | (Returned ss1, g1) =>
        match mapstar func l2 g1 with
        | (Raised e, g2) => (Raised e, g2)
        | (Returned ss2, g2) => (Returned (ss1 ++ ss2), g2)
        end
    end.
Proof.
  revert g. induction l1 as [|i l1 IH]; intros g; simpl.
  - destruct (mapstar func l2 g) as [[ss|e] g2]; reflexivity.
  - destruct (func i g) as [[s|e] g1]; [|reflexivity].
    rewrite IH. destruct (mapstar func l1 g1) as [[ss1|e] g2]; [|reflexivity].
    destruct (mapstar func l2 g2) as [[ss2|e] g3]; reflexivity.
Qed.

Lemma trial_results_serial (rng : Type)
  (finder : list Z -> nat -> rng -> outcome (list (nat * list (nat * Z))) * rng)
  (cashouts : list Z) (n : nat) (g : rng) :
  (1 <= n)%nat ->
  trial_results (serial_env 1 g) finder cashouts n
  = match fst (mapstar (finder cashouts) (seq 0 n) g) with
    | Returned ss => Some ss
    | Raised _ => None
    end.
Proof.
  intros Hn. unfold trial_results. simpl cpu_count. rewrite chunk_size_one_cpu.
  rewrite imap_unordered_pool_tasks by exact Hn.
  rewrite pool_tasks_single by exact Hn. simpl.
  destruct (mapstar (finder cashouts) (seq 0 n) g) as [[ss|e] g1]; simpl;
    [rewrite app_nil_r|]; reflexivity.
Qed.









(** X28.  With one worker, N + M trials never return more edges than N
    trials. *)
Theorem single_worker_more_trials_never_more_edges
  (rng : Type)
  (finder : list Z -> nat -> rng -> outcome (list (nat * list (nat * Z))) * rng)
  (cashouts : list Z) (n m : nat) (g : rng)
  (s1 : list (nat * list (nat * Z))) (r : option (list (nat * list (nat * Z)))) :
  find_best_settlement finder cashouts n (serial_env 1 g) = Returned (Some s1) ->
  find_best_settlement finder cashouts (n + m) (serial_env 1 g) = Returned r ->
  exists s2, r = Some s2 /\ (cost_of s2 <= cost_of s1)%nat.
Proof.
  intros Hbest Hmore.
  assert (Hn : (1 <= n)%nat).
  { destruct n as [|n]; [|lia]. rewrite zero_trials_raise in Hbest. discriminate. }
  destruct (find_best_settlement_results _ _ _ _ Hmore) as [ss Hss].
  pose proof Hss as Hss'.
  rewrite trial_results_serial in Hss' by lia.
  rewrite seq_app, mapstar_app in Hss'. simpl in Hss'.
  destruct (mapstar (finder cashouts) (seq 0 n) g) as [[ss1|e] g1] eqn:E1;
    [|discriminate].
  destruct (mapstar (finder cashouts) (seq n m) g1) as [[ss2|e] g2] eqn:E2;
    [|discriminate].
  simpl in Hss'. inversion Hss'; subst ss.
  assert (Hfirst : trial_results (serial_env 1 g) finder cashouts n = Some ss1)
    by (rewrite trial_results_serial by exact Hn; rewrite E1; reflexivity).
  destruct (@best_of_prefix rng finder cashouts n (n + m) (serial_env 1 g)
              (serial_env 1 g) ss1 ss2 s1 Hfirst Hss Hbest) as [s2 [Hs2 Hle]].
  exists s2. split; [|exact Hle]. rewrite Hs2 in Hmore. inversion Hmore. reflexivity.
Qed.

Example single_worker_more_trials_never_more_edges_witness :
  exists s2,
    Some [(2%nat, [(1%nat, 1)]); (3%nat, [(0%nat, 2)])] = Some s2
    /\ Nat.le (cost_of s2)
         (cost_of [(2%nat, [(0%nat, 1)]); (3%nat, [(0%nat, 1); (1%nat, 1)])]).
Proof.
  refine (@single_worker_more_trials_never_more_edges (list Z)
            (find_settlement_or tape_randint brute_or_solve) [-2; -1; 1; 2]
            1%nat 1%nat [1; 9; 1; 1; 9; 1; 1; 9]
            [(2%nat, [(0%nat, 1)]); (3%nat, [(0%nat, 1); (1%nat, 1)])]
            (Some [(2%nat, [(1%nat, 1)]); (3%nat, [(0%nat, 2)])]) _ _).
  - vm_compute. reflexivity.
  - vm_compute. reflexivity.
Defined.

(** C3 (as the code has it).  Ties are broken by arrival: among the
    settlements the search compares, the first to arrive with the least edge
    count is returned; settlements that arrived before it cost strictly more,
    and a later arrival of equal cost never replaces it. *)
Theorem first_arrival_of_least_cost_wins
  (rng : Type)
  (finder : list Z -> nat -> rng -> outcome (list (nat * list (nat * Z))) * rng)
  (cashouts : list Z) (num_trials : nat) (env : PoolEnv rng)
  (before after : list (list (nat * list (nat * Z))))
  (s : list (nat * list (nat * Z))) :
  trial_results env finder cashouts num_trials = Some (before ++ s :: after) ->
  (cost_of s <= length cashouts * length cashouts)%nat ->
  (forall x, In x before -> (cost_of s < cost_of x)%nat) ->
  (forall x, In x after -> (cost_of s <= cost_of x)%nat) ->
  find_best_settlement finder cashouts num_trials env = Returned (Some s).
Proof.
  intros Hres Hs Hbefore Hafter.
  rewrite (find_best_settlement_fold _ _ _ _ Hres).
  rewrite fold_keep_best_first_min; try assumption; [reflexivity|].
  unfold start_of. simpl. lia.
Qed.

(** Two workers, two trials of equal score; trial 1 completes first. *)
Example first_arrival_of_least_cost_wins_witness :
  find_best_settlement (find_settlement_or tape_randint brute_or_solve)
    [-1; -1; 1; 1] 2
    (mkPoolEnv 2 (fun w => if Nat.eqb w 0 then [1; 9; 9; 1] else [9; 1; 1; 9])
       [(1, 1); (0, 0)]%nat)
  = Returned (Some [(2%nat, [(1%nat, 1)]); (3%nat, [(0%nat, 1)])]).
Proof.
  apply (@first_arrival_of_least_cost_wins (list Z)
           (find_settlement_or tape_randint brute_or_solve) [-1; -1; 1; 1] 2%nat
           (mkPoolEnv 2 (fun w => if Nat.eqb w 0 then [1; 9; 9; 1] else [9; 1; 1; 9])
              [(1, 1); (0, 0)]%nat)
           [] [[(2%nat, [(0%nat, 1)]); (3%nat, [(1%nat, 1)])]]).
  - vm_compute. reflexivity.
  - vm_compute. lia.
  - intros x [].
  - intros x [<-|[]]. vm_compute. lia.
Defined.

(** C3 (as stated) fails.  Two workers run one trial each, worker 0 trial 0
    and worker 1 trial 1, and the two trials find different settlements of
    two edges.  When trial 0 completes first its settlement is returned; when
    trial 1 completes first, the settlement of trial 1 is returned although
    trial 0, of lower index, reached the same score: the result follows the
    order of arrival, not the trial index. *)
Lemma tie_is_broken_by_arrival_not_by_trial_index :
  let finder := find_settlement_or tape_randint brute_or_solve in
  let seeds := fun w : nat => if Nat.eqb w 0 then [1; 9; 9; 1] else [9; 1; 1; 9] in
  let of_trial_0 := [(2%nat, [(0%nat, 1)]); (3%nat, [(1%nat, 1)])] in
  let of_trial_1 := [(2%nat, [(1%nat, 1)]); (3%nat, [(0%nat, 1)])] in
  fst (finder [-1; -1; 1; 1] 0%nat (seeds 0%nat)) = Returned of_trial_0 /\
  fst (finder [-1; -1; 1; 1] 1%nat (seeds 1%nat)) = Returned of_trial_1 /\
  cost_of of_trial_0 = cost_of of_trial_1 /\
  find_best_settlement finder [-1; -1; 1; 1] 2
    (mkPoolEnv 2 seeds [(0, 0); (1, 1)]%nat) = Returned (Some of_trial_0) /\
  find_best_settlement finder [-1; -1; 1; 1] 2
    (mkPoolEnv 2 seeds [(1, 1); (0, 0)]%nat) = Returned (Some of_trial_1) /\
  find_best_settlement finder [-1; -1; 1; 1] 2
    (mkPoolEnv 2 seeds [(1, 1); (0, 0)]%nat)
  <> find_best_settlement finder [-1; -1; 1; 1] 2
       (mkPoolEnv 2 seeds [(0, 0); (1, 1)]%nat).
Proof.
  repeat split; try (vm_compute; reflexivity).
  vm_compute. discriminate.
Qed.

(** ** C8: no trials, no participants *)

(** C8 (as stated) fails.  With [num_trials = 0] the search returns no
    settlement at all, empty or not: it raises. *)
Lemma zero_trials_return_no_settlement :
  find_best_settlement (find_settlement_or tape_randint brute_or_solve)
    [-5; 3; 2] 0 (serial_env 0 [7; 4])
  = Raised ValueError /\
  find_best_settlement (find_settlement_or tape_randint brute_or_solve)
    [-5; 3; 2] 0 (serial_env 0 [7; 4])
  <> Returned (Some []).
Proof.
  split; [vm_compute; reflexivity | vm_compute; discriminate].
Qed.

(** C8 (as the code has it).  With zero participants and at least one trial,
    the search over the OR-tools backend returns the empty settlement and
    raises nothing. *)
Theorem no_participants_or_search_returns_empty
  (rng : Type) (randint : Z -> Z -> rng -> Z * rng)
  (or_solve : SimpleMinCostFlow -> Status * list Z)
  (Hcomplete : or_complete or_solve)
  (num_trials : nat) (env : PoolEnv rng) :
  (1 <= num_trials)%nat -> (1 <= cpu_count env)%nat ->
  valid_schedule env (task_count num_trials (cpu_count env)) ->
  find_best_settlement (find_settlement_or randint or_solve) [] num_trials env
  = Returned (Some []).
Proof.
  intros Hn Hc Hvalid.
  destruct (@find_best_settlement_returns rng (find_settlement_or randint or_solve)
              [] num_trials env) as [s Hs]; try assumption.
  - intros t g. apply find_settlement_or_returns; [assumption | reflexivity].
  - intros t g s g' H. eapply find_settlement_or_cost. exact H.
  - rewrite Hs. f_equal. f_equal.
    apply find_best_settlement_origin in Hs. destruct Hs as [t [g [g' H]]].
    apply find_settlement_or_returned in H. destruct H as [flows [_ [-> _]]].
    reflexivity.
Qed.

Example no_participants_or_search_returns_empty_witness :
  find_best_settlement (find_settlement_or tape_randint brute_or_solve) [] 3
    (mkPoolEnv 2 (fun _ => [7; 4]) [(1, 1); (0, 0)]%nat)
  = Returned (Some []).
Proof.
  apply (@no_participants_or_search_returns_empty (list Z) tape_randint
           brute_or_solve brute_or_complete 3%nat
           (mkPoolEnv 2 (fun _ => [7; 4]) [(1, 1); (0, 0)]%nat)).
  - lia.
  - simpl. lia.
  - split.
    + vm_compute. apply perm_swap.
    + repeat constructor.
Defined.

(** ** C5: reproducibility *)

Lemma fold_keep_best_min ss acc :
  fst (fold_left keep_best ss acc)
  = fold_left (fun c s => Nat.min c (cost_of s)) ss (fst acc).
Proof.
  revert acc. induction ss as [|s ss IH]; intros acc; simpl; [reflexivity|].
  rewrite IH. f_equal.
  destruct (keep_best_cases acc s) as [[E H]|[E H]]; rewrite E; simpl; lia.
Qed.

(** X27.  The least edge count does not depend on the order of arrival (the
    settlement that carries it does). *)
Theorem least_cost_independent_of_arrival_order
  (ss ss' : list (list (nat * list (nat * Z))))
  (acc : nat * option (list (nat * list (nat * Z)))) :
  Permutation ss ss' ->
  fst (fold_left keep_best ss acc) = fst (fold_left keep_best ss' acc).
Proof.
  intros Hperm. rewrite !fold_keep_best_min. generalize (fst acc) as c.
  induction Hperm as [|x l l' _ IH|x y l|l l' l'' _ IH1 _ IH2]; intros c; simpl.
  - reflexivity.
  - apply IH.
  - f_equal. lia.
  - rewrite IH1. apply IH2.
Qed.

Example least_cost_independent_of_arrival_order_witness :
  let two := [(2%nat, [(1%nat, 1)]); (3%nat, [(0%nat, 2)])] in
  let three := [(2%nat, [(0%nat, 1)]); (3%nat, [(0%nat, 1); (1%nat, 1)])] in
  fst (fold_left keep_best [three; two] (start_of [-2; -1; 1; 2]))
  = fst (fold_left keep_best [two; three] (start_of [-2; -1; 1; 2])).
Proof.
  exact (@least_cost_independent_of_arrival_order
           [[(2%nat, [(0%nat, 1)]); (3%nat, [(0%nat, 1); (1%nat, 1)])];
            [(2%nat, [(1%nat, 1)]); (3%nat, [(0%nat, 2)])]]
           [[(2%nat, [(1%nat, 1)]); (3%nat, [(0%nat, 2)])];
            [(2%nat, [(0%nat, 1)]); (3%nat, [(0%nat, 1); (1%nat, 1)])]]
           (start_of [-2; -1; 1; 2]) (perm_swap _ _ _)).
Defined.


(** ** C10: the two backends *)

Lemma select_all_zero keep start cashouts :
  keep 0 = false -> Forall (fun c => c = 0) cashouts ->
  select keep (enumerate_from start cashouts) = [].
Proof.
  intros Hk H. unfold select, enumerate_from. revert start.
  induction H as [|c l Hc _ IH]; intros start; simpl; [reflexivity|].
  subst c. rewrite Hk. apply IH.
Qed.

Lemma terminal_edges_all_zero source sink start cashouts :
  Forall (fun c => c = 0) cashouts ->
  terminal_edges source sink (enumerate_from start cashouts) = [].
Proof.
  intros H. unfold terminal_edges, enumerate_from. revert start.
  induction H as [|c l Hc _ IH]; intros start; simpl; [reflexivity|].
  subst c. apply IH.
Qed.

Lemma sum_cashouts_all_zero cashouts :
  Forall (fun c => c = 0) cashouts -> sum_cashouts cashouts = 0.
Proof.
  unfold sum_cashouts. induction 1 as [|c l Hc _ IH]; simpl; [reflexivity|]. lia.
Qed.

(** C10 (where the code departs from it).  On a closed ledger in which every
    balance is zero (the empty ledger among them) the backends are not
    interchangeable: the OR-tools trial returns the empty mapping, whereas
    the networkx trial raises, because its graph has no edge and so neither
    the source nor the sink is a node of it. *)
Theorem backends_differ_on_ledger_of_zero_balances
  (rng : Type) (randint : Z -> Z -> rng -> Z * rng)
  (or_solve : SimpleMinCostFlow -> Status * list Z)
  (nx_solve : DiGraph -> nat -> nat -> list Z)
  (Hcomplete : or_complete or_solve)
  (cashouts : list Z) (t : nat) (g : rng) :
  Forall (fun c => c = 0) cashouts ->
  balanced cashouts /\
  find_settlement_or randint or_solve cashouts t g = (Returned [], g) /\
  find_settlement_nx randint nx_solve cashouts t g = (Raised NetworkXError, g).
Proof.
  intros Hzero.
  assert (Hbal : balanced cashouts) by (apply sum_cashouts_all_zero; exact Hzero).
  assert (Hcred : select is_creditor (enumerate cashouts) = [])
    by (apply select_all_zero; [reflexivity | exact Hzero]).
  assert (Hdebt : select is_debtor (enumerate cashouts) = [])
    by (apply select_all_zero; [reflexivity | exact Hzero]).
  split; [exact Hbal|]. split.
  - destruct (@find_settlement_or_returns rng randint or_solve cashouts t g
                Hcomplete Hbal) as [s [g' H]].
    rewrite H. apply find_settlement_or_returned in H.
    destruct H as [flows [_ [-> ->]]].
    rewrite or_build_eq. unfold or_pairs, loop_pairs. rewrite Hcred. reflexivity.
  - unfold find_settlement_nx. rewrite nx_build_eq.
    unfold nx_pairs, loop_pairs. rewrite Hdebt.
    unfold enumerate. rewrite terminal_edges_all_zero by exact Hzero.
    reflexivity.
Qed.

Example backends_differ_on_ledger_of_zero_balances_witness :
  balanced [0; 0] /\
  find_settlement_or tape_randint brute_or_solve [0; 0] 0 [7; 4] = (Returned [], [7; 4]) /\
  find_settlement_nx tape_randint brute_nx_solve [0; 0] 0 [7; 4]
  = (Raised NetworkXError, [7; 4]).
Proof.
  apply (@backends_differ_on_ledger_of_zero_balances (list Z) tape_randint
           brute_or_solve brute_nx_solve brute_or_complete [0; 0] 0%nat [7; 4]).
  repeat constructor.
Defined.

Lemma terminal_edges_source source sink players p c :
  In (p, c) players -> c < 0 ->
  In (mkEdge source p (- c) None) (terminal_edges source sink players).
Proof.
  intros Hin Hc. unfold terminal_edges. apply in_flat_map. exists (p, c).
  split; [exact Hin|].
  destruct (terminal_edge_cases source sink p c)
    as [[_ [-> _]]|[[H _]|[H _]]]; [left; reflexivity | lia | lia].
Qed.

Lemma terminal_edges_sink source sink players p c :
  In (p, c) players -> 0 < c ->
  In (mkEdge p sink c None) (terminal_edges source sink players).
Proof.
  intros Hin Hc. unfold terminal_edges. apply in_flat_map. exists (p, c).
  split; [exact Hin|].
  destruct (terminal_edge_cases source sink p c)
    as [[H _]|[[_ [-> _]]|[H _]]]; [lia | left; reflexivity | lia].
Qed.

Lemma has_node_src g e : In e g -> has_node g (src e) = true.
Proof.
  intros Hin. unfold has_node. apply existsb_exists. exists e.
  split; [exact Hin|]. rewrite Nat.eqb_refl. reflexivity.
Qed.

Lemma has_node_dst g e : In e g -> has_node g (dst e) = true.
Proof.
  intros Hin. unfold has_node. apply existsb_exists. exists e.
  split; [exact Hin|]. rewrite Nat.eqb_refl. apply orb_true_r.
Qed.

Lemma closed_ledger_has_both cashouts :
  balanced cashouts -> Exists (fun c => c <> 0) cashouts ->
  (exists c, In c cashouts /\ c < 0) /\ (exists c, In c cashouts /\ 0 < c).
Proof.
  unfold balanced, sum_cashouts. intros Hbal Hnz.
  assert (Hzero : Forall (fun c => c = 0) cashouts -> False).
  { intros Hz. apply Exists_exists in Hnz. destruct Hnz as [c [Hin Hc]].
    rewrite Forall_forall in Hz. apply Hc. apply Hz. exact Hin. }
  split.
  - destruct (Forall_Exists_dec (fun c => 0 <= c) (fun c => Z_le_dec 0 c) cashouts)
      as [Hall|Hex].
    + exfalso. apply Hzero. apply zsum_zero; assumption.
    + apply Exists_exists in Hex. destruct Hex as [c [Hin Hc]].
      exists c. split; [exact Hin | lia].
  - destruct (Forall_Exists_dec (fun c => c <= 0) (fun c => Z_le_dec c 0) cashouts)
      as [Hall|Hex].
    + exfalso. apply Hzero.
      assert (Hneg : Forall (fun x => 0 <= x) (map Z.opp cashouts)).
      { apply Forall_forall. intros x Hx. apply in_map_iff in Hx.
        destruct Hx as [c [<- Hc]]. rewrite Forall_forall in Hall.
        specialize (Hall c Hc). lia. }
      assert (Hsum : zsum (map Z.opp cashouts) = 0).
      { assert (Hl : forall l, zsum (map Z.opp l) = - fold_right Z.add 0 l)
          by (unfold zsum; induction l as [|x l IH]; simpl; lia).
        rewrite Hl. lia. }
      pose proof (zsum_zero Hneg Hsum) as Hz.
      apply Forall_forall. intros c Hc. rewrite Forall_forall in Hz.
      specialize (Hz (- c) (in_map Z.opp _ _ Hc)). lia.
    + apply Exists_exists in Hex. destruct Hex as [c [Hin Hc]].
      exists c. split; [exact Hin | lia].
Qed.

Lemma In_enumerate cashouts c :
  In c cashouts -> exists i, In (i, c) (enumerate cashouts).
Proof.
  intros Hin. destruct (In_nth _ _ 0 Hin) as [i [Hi Hnth]].
  exists i. apply enumerate_In. unfold cashout_at. auto.
Qed.

Lemma find_settlement_nx_returns (rng : Type) (randint : Z -> Z -> rng -> Z * rng)
  nx_solve cashouts t g :
  balanced cashouts -> Exists (fun c => c <> 0) cashouts ->
  exists s g', find_settlement_nx randint nx_solve cashouts t g = (Returned s, g').
Proof.
  intros Hbal Hnz.
  destruct (closed_ledger_has_both Hbal Hnz) as [[d [Hd Hdneg]] [c [Hc Hcpos]]].
  destruct (In_enumerate _ _ Hd) as [i Hi]. destruct (In_enumerate _ _ Hc) as [j Hj].
  unfold find_settlement_nx, max_flow_min_cost. rewrite nx_build_eq.
  set (graph := terminal_edges _ _ _ ++ _).
  assert (Hs : has_node graph (length cashouts) = true).
  { apply (has_node_src graph (mkEdge (length cashouts) i (- d) None)).
    unfold graph. apply in_or_app. left. apply terminal_edges_source; assumption. }
  assert (Ht : has_node graph (length cashouts + 1) = true).
  { apply (has_node_dst graph (mkEdge j (length cashouts + 1) c None)).
    unfold graph. apply in_or_app. left. apply terminal_edges_sink; assumption. }
  rewrite Hs, Ht. simpl.
  assert (Hne : Nat.eqb (length cashouts) (length cashouts + 1) = false)
    by (apply Nat.eqb_neq; lia).
  rewrite Hne. eexists. eexists. reflexivity.
Qed.

(** On closed ledgers with at least one balance that is not zero both
    backends return, and what they return meets one and the same contract. *)
Theorem closed_ledger_backends_meet_one_contract
  (rng : Type) (randint : Z -> Z -> rng -> Z * rng)
  (or_solve : SimpleMinCostFlow -> Status * list Z)
  (nx_solve : DiGraph -> nat -> nat -> list Z)
  (Hsound : or_sound or_solve) (Hcomplete : or_complete or_solve)
  (Hnx : nx_max_flow nx_solve)
  (cashouts : list Z) (t : nat) (g : rng) :
  balanced cashouts -> Exists (fun c => c <> 0) cashouts ->
  exists s_or s_nx,
    fst (find_settlement_or randint or_solve cashouts t g) = Returned s_or /\
    fst (find_settlement_nx randint nx_solve cashouts t g) = Returned s_nx /\
    (settles cashouts s_or /\ amounts_positive s_or /\ debtor_to_creditor cashouts s_or) /\
    (settles cashouts s_nx /\ amounts_positive s_nx /\ debtor_to_creditor cashouts s_nx).
Proof.
  intros Hbal Hnz.
  destruct (@find_settlement_or_returns rng randint or_solve cashouts t g
              Hcomplete Hbal) as [s_or [g1 Hor]].
  destruct (@find_settlement_nx_returns rng randint nx_solve cashouts t g
              Hbal Hnz) as [s_nx [g2 Hnxr]].
  exists s_or, s_nx. rewrite Hor, Hnxr. simpl.
  split; [reflexivity|]. split; [reflexivity|]. split; split.
  - eapply find_settlement_or_settles; eassumption.
  - split; [eapply find_settlement_or_positive
           | eapply find_settlement_or_debtor_to_creditor]; eassumption.
  - eapply find_settlement_nx_settles; eassumption.
  - split; [eapply find_settlement_nx_positive
           | eapply find_settlement_nx_debtor_to_creditor]; eassumption.
Qed.

(** * Further properties of the code *)

(** ** The graphs of a trial *)

Lemma or_arc_shapes (ps : list ((nat * Z) * (nat * Z))) (ws : list Z) :
  length ws = length ps ->
  map arc_shape (map or_arc (combine ps ws))
  = map (fun p : (nat * Z) * (nat * Z) =>
           (fst (fst p), fst (snd p), Z.min (snd (fst p)) (- snd (snd p)))) ps.
Proof.
  revert ws. induction ps as [|[[i c1] [j c2]] ps IH]; intros [|w ws] H;
    simpl in *; try discriminate; [reflexivity|].
  rewrite IH by lia. reflexivity.
Qed.

Lemma nx_edge_shapes (ps : list ((nat * Z) * (nat * Z))) (ws : list Z) :
  length ws = length ps ->
  map edge_shape (map nx_edge (combine ps ws))
  = map (fun p : (nat * Z) * (nat * Z) =>
           (fst (fst p), fst (snd p), Z.min (- snd (fst p)) (snd (snd p)))) ps.
Proof.
  revert ws. induction ps as [|[[i c1] [j c2]] ps IH]; intros [|w ws] H;
    simpl in *; try discriminate; [reflexivity|].
  rewrite IH by lia. reflexivity.
Qed.

(** X1.  The graph a trial builds depends on the ledger only, not on the
    generator: two trials on the same ledger, whatever generators and states
    they draw their costs from, build arcs (and edges) with the same
    endpoints and capacities in the same order, and the supplies of the
    OR-tools graph are the balances. *)
Theorem graph_shape_is_fixed_by_the_ledger
  (rng rng' : Type) (randint : Z -> Z -> rng -> Z * rng)
  (randint' : Z -> Z -> rng' -> Z * rng')
  (cashouts : list Z) (g : rng) (g' : rng') :
  map arc_shape (arcs (fst (or_build randint cashouts g)))
  = map arc_shape (arcs (fst (or_build randint' cashouts g')))
  /\ node_supply (fst (or_build randint cashouts g)) = cashouts
  /\ map edge_shape (fst (nx_build randint cashouts g))
     = map edge_shape (fst (nx_build randint' cashouts g')).
Proof.
  rewrite !or_build_eq, !nx_build_eq. simpl. split; [|split].
  - rewrite !or_arc_shapes by apply draws_length. reflexivity.
  - reflexivity.
  - rewrite !map_app. rewrite !nx_edge_shapes by apply draws_length. reflexivity.
Qed.

Lemma or_arc_ends (ps : list ((nat * Z) * (nat * Z))) (ws : list Z) :
  length ws = length ps ->
  map arc_ends (map or_arc (combine ps ws))
  = map (fun p : (nat * Z) * (nat * Z) => (fst (fst p), fst (snd p))) ps.
Proof.
  revert ws. induction ps as [|[[i c1] [j c2]] ps IH]; intros [|w ws] H;
    simpl in *; try discriminate; [reflexivity|].
  rewrite IH by lia. reflexivity.
Qed.

Lemma or_build_ends (rng : Type) (randint : Z -> Z -> rng -> Z * rng) cashouts g :
  map arc_ends (arcs (fst (or_build randint cashouts g)))
  = map (fun p : (nat * Z) * (nat * Z) => (fst (fst p), fst (snd p)))
        (or_pairs cashouts).
Proof.
  rewrite or_build_eq. simpl. apply or_arc_ends. apply draws_length.
Qed.

(** X2.  The OR-tools graph is the complete bipartite graph from the
    creditors to the debtors: there is an arc from [i] to [j] exactly when
    [i] has a positive and [j] a negative balance, no pair has two arcs, and
    so there are (number of creditors) x (number of debtors) arcs. *)
Theorem or_graph_joins_every_creditor_to_every_debtor
  (rng : Type) (randint : Z -> Z -> rng -> Z * rng) (cashouts : list Z) (g : rng) :
  let ends := map arc_ends (arcs (fst (or_build randint cashouts g))) in
  (forall i j : nat,
     In (i, j) ends <->
     (i < length cashouts)%nat /\ (j < length cashouts)%nat /\
     0 < cashout_at cashouts i /\ cashout_at cashouts j < 0)
  /\ NoDup ends
  /\ length ends
     = (length (select is_creditor (enumerate cashouts))
        * length (select is_debtor (enumerate cashouts)))%nat.
Proof.
  intros ends. unfold ends. rewrite or_build_ends. split; [|split].
  - intros i j. rewrite in_map_iff. split.
    + intros [[[i' c1] [j' c2]] [E Hin]]. simpl in E. inversion E; subst.
      apply or_pairs_In in Hin. destruct Hin as [[Hi [-> H1]] [Hj [-> H2]]]. auto.
    + intros (Hi & Hj & H1 & H2).
      exists ((i, cashout_at cashouts i), (j, cashout_at cashouts j)).
      split; [reflexivity|]. apply or_pairs_In. auto.
  - apply loop_pairs_NoDup.
  - rewrite length_map. apply loop_pairs_length.
Qed.

(** X3.  The networkx graph has an edge from the source to every debtor, from
    every creditor to the sink, from every debtor to every creditor, and no
    other edge; no two edges share their endpoints. *)
Theorem nx_graph_has_exactly_the_ledger_edges
  (rng : Type) (randint : Z -> Z -> rng -> Z * rng) (cashouts : list Z) (g : rng) :
  let n := length cashouts in
  let keys := map edge_key (fst (nx_build randint cashouts g)) in
  (forall u v : nat,
     In (u, v) keys <->
     (u = n /\ (v < n)%nat /\ cashout_at cashouts v < 0)
     \/ ((u < n)%nat /\ 0 < cashout_at cashouts u /\ v = (n + 1)%nat)
     \/ ((u < n)%nat /\ (v < n)%nat /\
         cashout_at cashouts u < 0 /\ 0 < cashout_at cashouts v))
  /\ NoDup keys.
Proof.
  intros n keys. split; [|apply nx_build_no_parallel_edges].
  intros u v. unfold keys. split.
  - rewrite in_map_iff. intros [e [E He]]. unfold edge_key in E. inversion E; subst.
    apply nx_build_edges in He.
    destruct He as [(H1 & H2 & H3 & _)|[(H1 & H2 & H3 & _)|(H1 & H2 & H3 & H4 & _)]].
    + left. auto.
    + right. left. auto.
    + right. right. auto.
  - rewrite nx_build_eq. simpl. rewrite map_app, in_app_iff.
    intros [(-> & Hv & Hneg)|[(Hu & Hpos & ->)|(Hu & Hv & Hneg & Hpos)]].
    + left. apply in_map_iff.
      exists (mkEdge n v (- cashout_at cashouts v) None). split; [reflexivity|].
      apply terminal_edges_source; [|exact Hneg]. apply enumerate_In. auto.
    + left. apply in_map_iff.
      exists (mkEdge u (n + 1) (cashout_at cashouts u) None). split; [reflexivity|].
      apply terminal_edges_sink; [|exact Hpos]. apply enumerate_In. auto.
    + right. rewrite nx_edge_keys by apply draws_length. apply in_map_iff.
      exists ((u, cashout_at cashouts u), (v, cashout_at cashouts v)).
      split; [reflexivity|]. apply nx_pairs_In. auto.
Qed.

Lemma existsb_cashouts (keep : Z -> bool) (cashouts : list Z) :
  existsb keep cashouts = true <->
  exists i, (i < length cashouts)%nat /\ keep (cashout_at cashouts i) = true.
Proof.
  rewrite existsb_exists. split.
  - intros [c [Hin Hc]]. destruct (In_nth _ _ 0 Hin) as [i [Hi E]].
    exists i. unfold cashout_at. rewrite E. auto.
  - intros [i [Hi Hc]]. exists (cashout_at cashouts i). split; [|exact Hc].
    apply nth_In. exact Hi.
Qed.

Lemma nx_build_has_source (rng : Type) (randint : Z -> Z -> rng -> Z * rng)
  cashouts g :
  has_node (fst (nx_build randint cashouts g)) (length cashouts)
  = existsb (fun c => c <? 0) cashouts.
Proof.
  apply eq_iff_eq_true. rewrite existsb_cashouts. unfold has_node.
  rewrite existsb_exists. split.
  - intros [e [He Hn]]. apply nx_build_edges in He.
    apply orb_true_iff in Hn. rewrite !Nat.eqb_eq in Hn.
    destruct He as [(H1 & H2 & H3 & _)|[(H1 & H2 & H3 & _)|(H1 & H2 & H3 & H4 & _)]].
    + exists (dst e). split; [exact H2|]. apply Z.ltb_lt. exact H3.
    + lia.
    + lia.
  - intros [i [Hi Hneg]]. apply Z.ltb_lt in Hneg.
    exists (mkEdge (length cashouts) i (- cashout_at cashouts i) None). split.
    + rewrite nx_build_eq. simpl. apply in_or_app. left.
      apply terminal_edges_source; [|exact Hneg]. apply enumerate_In. auto.
    + simpl. rewrite Nat.eqb_refl. reflexivity.
Qed.

Lemma nx_build_has_sink (rng : Type) (randint : Z -> Z -> rng -> Z * rng)
  cashouts g :
  has_node (fst (nx_build randint cashouts g)) (length cashouts + 1)
  = existsb (fun c => 0 <? c) cashouts.
Proof.
  apply eq_iff_eq_true. rewrite existsb_cashouts. unfold has_node.
  rewrite existsb_exists. split.
  - intros [e [He Hn]]. apply nx_build_edges in He.
    apply orb_true_iff in Hn. rewrite !Nat.eqb_eq in Hn.
    destruct He as [(H1 & H2 & H3 & _)|[(H1 & H2 & H3 & _)|(H1 & H2 & H3 & H4 & _)]].
    + lia.
    + exists (src e). split; [exact H2|]. apply Z.ltb_lt. exact H3.
    + lia.
  - intros [i [Hi Hpos]]. apply Z.ltb_lt in Hpos.
    exists (mkEdge i (length cashouts + 1) (cashout_at cashouts i) None). split.
    + rewrite nx_build_eq. simpl. apply in_or_app. left.
      apply terminal_edges_sink; [|exact Hpos]. apply enumerate_In. auto.
    + simpl. rewrite Nat.eqb_refl. apply orb_true_r.
Qed.

(** X4.  A networkx trial returns exactly when the ledger has at least one
    negative and at least one positive balance, whether or not the ledger is
    closed; on every other ledger the source or the sink is missing from the
    graph and the trial raises NetworkXError, whatever the solver. *)
Theorem nx_trial_returns_iff_a_debtor_and_a_creditor
  (rng : Type) (randint : Z -> Z -> rng -> Z * rng)
  (nx_solve : DiGraph -> nat -> nat -> list Z)
  (cashouts : list Z) (t : nat) (g : rng) :
  let graph := fst (nx_build randint cashouts g) in
  let n := length cashouts in
  fst (find_settlement_nx randint nx_solve cashouts t g)
  = if existsb (fun c => c <? 0) cashouts && existsb (fun c => 0 <? c) cashouts
    then Returned (nx_extract graph (nx_solve graph n (n + 1)%nat)
                     (enumerate cashouts) [])
    else Raised NetworkXError.
Proof.
  intros graph n. unfold find_settlement_nx, max_flow_min_cost.
  pose proof (nx_build_has_source randint cashouts g) as Hs.
  pose proof (nx_build_has_sink randint cashouts g) as Ht.
  fold graph in Hs, Ht. fold n in Hs, Ht.
  destruct (nx_build randint cashouts g) as [graph' g1] eqn:E.
  simpl in graph. subst graph. fold n. rewrite Hs, Ht.
  assert (Hne : Nat.eqb n (n + 1) = false) by (apply Nat.eqb_neq; lia).
  rewrite Hne.
  destruct (existsb (fun c => c <? 0) cashouts);
    destruct (existsb (fun c => 0 <? c) cashouts); reflexivity.
Qed.

(** ** The settlement of a trial *)

Lemma append_payment_keys key p s x :
  In x (map fst (append_payment key p s)) -> x = key \/ In x (map fst s).
Proof.
  induction s as [|[k al] rest IH]; simpl.
  - intros [<-|[]]. left. reflexivity.
  - destruct (Nat.eqb k key) eqn:E; simpl.
    + intros H. right. exact H.
    + intros [<-|H]; [right; left; reflexivity|].
      destruct (IH H) as [->|H']; [left; reflexivity | right; right; exact H'].
Qed.

Lemma append_payment_mapping key p s :
  is_mapping s -> is_mapping (append_payment key p s).
Proof.
  unfold is_mapping. induction s as [|[k al] rest IH]; simpl; intros [Hnd Hne].
  - split; [constructor; [intros [] | constructor] | constructor; [discriminate | constructor]].
  - inversion Hnd as [|? ? Hk Hnd']; subst. inversion Hne as [|? ? Hal Hne']; subst.
    destruct (Nat.eqb k key) eqn:E; simpl.
    + split; [constructor; assumption|]. constructor; [|exact Hne'].
      simpl. destruct al; discriminate.
    + destruct (IH (conj Hnd' Hne')) as [IH1 IH2]. split.
      * constructor; [|exact IH1]. intros Hin.
        apply append_payment_keys in Hin. apply Nat.eqb_neq in E.
        destruct Hin as [->|Hin]; [apply E; reflexivity | apply Hk; exact Hin].
      * constructor; [exact Hal | exact IH2].
Qed.

Lemma or_extract_mapping afs acc : is_mapping acc -> is_mapping (or_extract afs acc).
Proof.
  revert acc. induction afs as [|[a f] afs IH]; intros acc H; simpl; [exact H|].
  destruct (f <=? 0); apply IH; [exact H | apply append_payment_mapping; exact H].
Qed.

Lemma nx_extract_from_mapping from items acc :
  is_mapping acc -> is_mapping (nx_extract_from from items acc).
Proof.
  revert acc. induction items as [|[to f] items IH]; intros acc H; simpl; [exact H|].
  destruct (f <=? 0); apply IH; [exact H | apply append_payment_mapping; exact H].
Qed.

Lemma nx_extract_mapping graph flows players acc :
  is_mapping acc -> is_mapping (nx_extract graph flows players acc).
Proof.
  revert acc. induction players as [|[p c] players IH]; intros acc H; simpl; [exact H|].
  destruct (c >=? 0); apply IH; [exact H | apply nx_extract_from_mapping; exact H].
Qed.

Lemma nil_mapping : is_mapping [].
Proof. split; constructor. Qed.

(** X5.  Whatever flows the solver reports, the settlement an extractor
    builds lists every creditor once, and only creditors that are paid at
    least once: no key is repeated and no key has an empty list of
    payments. *)
Theorem extracted_settlement_is_a_mapping :
  (forall arc_flows : list (Arc * Z), is_mapping (or_extract arc_flows []))
  /\ (forall (graph : DiGraph) (flows : list Z) (players : list (nat * Z)),
        is_mapping (nx_extract graph flows players [])).
Proof.
  split; intros.
  - apply or_extract_mapping, nil_mapping.
  - apply nx_extract_mapping, nil_mapping.
Qed.

(** *** The score counts the positive flows *)

Lemma or_extract_cost_eq afs acc :
  cost_of (or_extract afs acc) = (cost_of acc + positive_flows afs)%nat.
Proof.
  unfold positive_flows. revert acc.
  induction afs as [|[a f] afs IH]; intros acc; simpl; [lia|].
  destruct (f <=? 0) eqn:E.
  - apply Z.leb_le in E. replace (0 <? f) with false by (symmetry; apply Z.ltb_ge; lia).
    apply IH.
  - apply Z.leb_gt in E. replace (0 <? f) with true by (symmetry; apply Z.ltb_lt; lia).
    rewrite IH, cost_of_append. simpl. lia.
Qed.

Lemma nx_extract_from_cost_eq from items acc :
  cost_of (nx_extract_from from items acc) = (cost_of acc + positive_flows items)%nat.
Proof.
  unfold positive_flows. revert acc.
  induction items as [|[to f] items IH]; intros acc; simpl; [lia|].
  destruct (f <=? 0) eqn:E.
  - apply Z.leb_le in E. replace (0 <? f) with false by (symmetry; apply Z.ltb_ge; lia).
    apply IH.
  - apply Z.leb_gt in E. replace (0 <? f) with true by (symmetry; apply Z.ltb_lt; lia).
    rewrite IH, cost_of_append. simpl. lia.
Qed.

(** The positive flows leaving [u] are the positive flows on the edges with
    source [u]. *)
Lemma positive_flows_items graph flows u :
  positive_flows (flow_items graph flows u)
  = length (filter (fun ef : Edge * Z => Nat.eqb (src (fst ef)) u && (0 <? snd ef))
              (combine graph flows)).
Proof.
  unfold positive_flows, flow_items.
  induction (combine graph flows) as [|[e f] l IH]; simpl; [reflexivity|].
  destruct (Nat.eqb (src e) u); simpl; [|exact IH].
  destruct (0 <? f); simpl; rewrite IH; reflexivity.
Qed.

Lemma filter_or_length {A : Type} (p1 p2 : A -> bool) (l : list A) :
  (forall a, In a l -> p1 a = true -> p2 a = false) ->
  length (filter (fun a => p1 a || p2 a) l)
  = (length (filter p1 l) + length (filter p2 l))%nat.
Proof.
  induction l as [|a l IH]; intros H; simpl; [reflexivity|].
  assert (IH' := IH (fun x Hx => H x (or_intror Hx))).
  destruct (p1 a) eqn:E1; simpl.
  - rewrite (H a (or_introl eq_refl) E1). simpl. rewrite IH'. reflexivity.
  - destruct (p2 a); simpl; rewrite IH'; lia.
Qed.

(** Counting by key: over keys without repetition, the counts per key add up
    to the count of the elements whose key is one of them. *)
Lemma count_by_key {A : Type} (key : A -> nat) (q : A -> bool) (keys : list nat)
  (l : list A) :
  NoDup keys ->
  fold_right (fun d n => (length (filter (fun a => Nat.eqb (key a) d && q a) l) + n)%nat)
    0%nat keys
  = length (filter (fun a => mem (key a) keys && q a) l).
Proof.
  induction keys as [|d keys IH]; intros Hnd; simpl.
  - induction l as [|a l IHl]; simpl; [reflexivity | exact IHl].
  - inversion Hnd as [|? ? Hd Hnd']; subst. rewrite (IH Hnd').
    rewrite <- filter_or_length.
    + apply f_equal. apply filter_ext. intros a. unfold mem. simpl.
      destruct (Nat.eqb (key a) d); destruct (existsb (Nat.eqb (key a)) keys);
        destruct (q a); reflexivity.
    + intros a _ H1. apply andb_true_iff in H1. destruct H1 as [H1 _].
      apply Nat.eqb_eq in H1. subst d.
      replace (mem (key a) keys) with false; [reflexivity|].
      symmetry. apply not_true_is_false. intros Hm. apply mem_true in Hm.
      contradiction.
Qed.

Lemma nx_extract_cost_eq graph flows players acc :
  cost_of (nx_extract graph flows players acc)
  = (cost_of acc
     + fold_right
         (fun d n =>
            (length (filter (fun ef : Edge * Z =>
                               Nat.eqb (src (fst ef)) d && (0 <? snd ef)%Z)
                       (combine graph flows)) + n)%nat)
         0%nat (map fst (select is_debtor players)))%nat.
Proof.
  revert acc. induction players as [|[p c] players IH]; intros acc; simpl; [lia|].
  unfold is_debtor at 1. destruct (c >=? 0) eqn:E; simpl.
  - apply IH.
  - rewrite IH, nx_extract_from_cost_eq, positive_flows_items. lia.
Qed.

Lemma filter_filter_length {A : Type} (p q : A -> bool) (l : list A) :
  length (filter q (filter p l)) = length (filter (fun a => p a && q a) l).
Proof.
  induction l as [|a l IH]; simpl; [reflexivity|].
  destruct (p a); simpl; [destruct (q a); simpl; rewrite IH; reflexivity | exact IH].
Qed.

(** The edges that leave a debtor are the edges between two players. *)
Lemma nx_build_between (rng : Type) (randint : Z -> Z -> rng -> Z * rng)
  cashouts g e :
  In e (fst (nx_build randint cashouts g)) ->
  mem (src e) (map fst (select is_debtor (enumerate cashouts)))
  = between_players (length cashouts) e.
Proof.
  intros He. apply nx_build_edges in He. apply eq_iff_eq_true.
  rewrite mem_debtors. unfold between_players.
  rewrite andb_true_iff, !Nat.ltb_lt.
  destruct He as [(H1 & H2 & H3 & _)|[(H1 & H2 & H3 & _)|(H1 & H2 & H3 & H4 & _)]];
    lia.
Qed.

(** The score of a networkx extraction: the number of edges between two
    players that carry a positive flow. *)
Lemma nx_extract_counts_positive_flows (rng : Type)
  (randint : Z -> Z -> rng -> Z * rng) cashouts g flows :
  let graph := fst (nx_build randint cashouts g) in
  cost_of (nx_extract graph flows (enumerate cashouts) [])
  = positive_flows
      (filter (fun ef : Edge * Z => between_players (length cashouts) (fst ef))
         (combine graph flows)).
Proof.
  intros graph. rewrite nx_extract_cost_eq. simpl.
  rewrite (count_by_key (fun ef : Edge * Z => src (fst ef))
             (fun ef : Edge * Z => 0 <? snd ef))
    by (unfold enumerate; apply NoDup_select_keys).
  unfold positive_flows. rewrite filter_filter_length.
  apply f_equal. apply filter_ext_in. intros [e f] Hin. simpl.
  apply in_combine_l in Hin. unfold graph in Hin.
  rewrite (nx_build_between _ _ _ _ Hin). reflexivity.
Qed.

(** X6.  The score of a settlement is the number of strictly positive flows:
    over all arcs for the OR-tools extractor, and over the edges between two
    players for the networkx extractor (the flows on the source and sink
    edges are not payments). *)
Theorem score_counts_the_positive_flows :
  (forall arc_flows : list (Arc * Z),
     cost_of (or_extract arc_flows []) = positive_flows arc_flows)
  /\ (forall (rng : Type) (randint : Z -> Z -> rng -> Z * rng)
        (cashouts : list Z) (g : rng) (flows : list Z),
        let graph := fst (nx_build randint cashouts g) in
        cost_of (nx_extract graph flows (enumerate cashouts) [])
        = positive_flows
            (filter (fun ef : Edge * Z => between_players (length cashouts) (fst ef))
               (combine graph flows))).
Proof.
  split.
  - intros afs. rewrite or_extract_cost_eq. reflexivity.
  - intros. apply nx_extract_counts_positive_flows.
Qed.

(** *** One payment per pair *)

Lemma pairs_paid_append key p s :
  Permutation (pairs_paid (append_payment key p s)) ((key, fst p) :: pairs_paid s).
Proof.
  unfold pairs_paid. induction s as [|[k al] rest IH]; simpl.
  - apply Permutation_refl.
  - destruct (Nat.eqb k key) eqn:E; simpl.
    + apply Nat.eqb_eq in E. subst k. rewrite map_app. simpl.
      rewrite <- app_assoc. simpl. apply Permutation_sym, Permutation_middle.
    + eapply perm_trans; [apply Permutation_app_head; exact IH|].
      apply Permutation_sym, Permutation_middle.
Qed.

Lemma pairs_paid_or_extract afs acc :
  Permutation (pairs_paid (or_extract afs acc))
    (map (fun af : Arc * Z => arc_ends (fst af)) (filter (fun af => 0 <? snd af) afs)
     ++ pairs_paid acc).
Proof.
  revert acc. induction afs as [|[a f] afs IH]; intros acc; simpl.
  - apply Permutation_refl.
  - destruct (f <=? 0) eqn:E.
    + apply Z.leb_le in E. replace (0 <? f) with false by (symmetry; apply Z.ltb_ge; lia).
      apply IH.
    + apply Z.leb_gt in E. replace (0 <? f) with true by (symmetry; apply Z.ltb_lt; lia).
      simpl. eapply perm_trans; [apply IH|].
      eapply perm_trans; [apply Permutation_app_head, pairs_paid_append|].
      apply Permutation_sym, Permutation_middle.
Qed.

Lemma pairs_paid_nx_extract_from from items acc :
  Permutation (pairs_paid (nx_extract_from from items acc))
    (map (fun tf : nat * Z => (fst tf, from)) (filter (fun tf => 0 <? snd tf) items)
     ++ pairs_paid acc).
Proof.
  revert acc. induction items as [|[to f] items IH]; intros acc; simpl.
  - apply Permutation_refl.
  - destruct (f <=? 0) eqn:E.
    + apply Z.leb_le in E. replace (0 <? f) with false by (symmetry; apply Z.ltb_ge; lia).
      apply IH.
    + apply Z.leb_gt in E. replace (0 <? f) with true by (symmetry; apply Z.ltb_lt; lia).
      simpl. eapply perm_trans; [apply IH|].
      eapply perm_trans; [apply Permutation_app_head, pairs_paid_append|].
      apply Permutation_sym, Permutation_middle.
Qed.

Lemma pairs_paid_nx_extract graph flows players acc :
  Permutation (pairs_paid (nx_extract graph flows players acc))
    (flat_map
       (fun d => map (fun tf : nat * Z => (fst tf, d))
                   (filter (fun tf => 0 <? snd tf) (flow_items graph flows d)))
       (map fst (select is_debtor players))
     ++ pairs_paid acc).
Proof.
  revert acc. induction players as [|[p c] players IH]; intros acc; simpl.
  - apply Permutation_refl.
  - unfold is_debtor at 1. destruct (c >=? 0) eqn:E; simpl.
    + apply IH.
    + eapply perm_trans; [apply IH|].
      eapply perm_trans; [apply Permutation_app_head, pairs_paid_nx_extract_from|].
      rewrite <- app_assoc. rewrite !app_assoc. apply Permutation_app_tail.
      apply Permutation_app_comm.
Qed.

(** Selecting from a list whose images are distinct, and mapping through a
    function that separates whatever the first one separates. *)
Lemma NoDup_map_filter {A B C : Type} (f : A -> B) (h : A -> C) (p : A -> bool)
  (l : list A) :
  NoDup (map f l) ->
  (forall a b, In a l -> In b l -> p a = true -> p b = true -> h a = h b -> f a = f b) ->
  NoDup (map h (filter p l)).
Proof.
  induction l as [|a l IH]; intros Hnd Hsep; simpl; [constructor|].
  inversion Hnd as [|? ? Ha Hnd']; subst.
  assert (IH' : NoDup (map h (filter p l))).
  { apply IH; [exact Hnd'|]. intros x y Hx Hy. apply Hsep; right; assumption. }
  destruct (p a) eqn:E; [|exact IH']. simpl. constructor; [|exact IH'].
  intros Hin. apply in_map_iff in Hin. destruct Hin as [b [Hb Hin]].
  apply filter_In in Hin. destruct Hin as [Hin Hpb].
  apply Ha. rewrite (Hsep a b (or_introl eq_refl) (or_intror Hin) E Hpb (eq_sym Hb)).
  apply in_map. exact Hin.
Qed.

Lemma NoDup_map_combine {A B C : Type} (f : A -> C) (l : list A) (r : list B) :
  NoDup (map f l) -> NoDup (map (fun ab : A * B => f (fst ab)) (combine l r)).
Proof.
  revert r. induction l as [|a l IH]; intros r Hnd; simpl; [constructor|].
  destruct r as [|b r]; simpl; [constructor|].
  inversion Hnd as [|? ? Ha Hnd']; subst. constructor; [|apply IH; exact Hnd'].
  intros Hin. apply in_map_iff in Hin. destruct Hin as [[a' b'] [E Hin]].
  simpl in E. apply in_combine_l in Hin. apply Ha. rewrite <- E.
  apply in_map. exact Hin.
Qed.

Lemma NoDup_flat_map {A B : Type} (F : A -> list B) (keys : list A) :
  NoDup keys -> (forall k, NoDup (F k)) ->
  (forall k k' x, In x (F k) -> In x (F k') -> k = k') ->
  NoDup (flat_map F keys).
Proof.
  intros Hnd HF Hsep. induction keys as [|k keys IH]; simpl; [constructor|].
  inversion Hnd as [|? ? Hk Hnd']; subst. apply NoDup_app.
  - apply HF.
  - apply IH. exact Hnd'.
  - intros x Hx Hx'. apply in_flat_map in Hx'. destruct Hx' as [k' [Hk' Hx']].
    rewrite (Hsep _ _ _ Hx Hx') in Hk. contradiction.
Qed.

Lemma arcs_with_flow_fst (m : SimpleMinCostFlow) (flows : list Z) :
  map fst (arcs_with_flow m flows) = arcs m.
Proof.
  unfold arcs_with_flow. rewrite map_map. simpl.
  generalize 0%nat. induction (arcs m) as [|a al IH]; intros start; simpl;
    [reflexivity|]. rewrite IH. reflexivity.
Qed.

Lemma positive_flows_le {A : Type} (l : list (A * Z)) :
  (positive_flows l <= length l)%nat.
Proof. unfold positive_flows. apply filter_length_le. Qed.

Lemma or_build_length (rng : Type) (randint : Z -> Z -> rng -> Z * rng) cashouts g :
  length (arcs (fst (or_build randint cashouts g))) = length (or_pairs cashouts).
Proof.
  rewrite <- (length_map arc_ends), or_build_ends, length_map. reflexivity.
Qed.

Lemma filter_combine_length {A B : Type} (p : A -> bool) (l : list A) (r : list B) :
  (length (filter (fun ab : A * B => p (fst ab)) (combine l r))
   <= length (filter p l))%nat.
Proof.
  revert r. induction l as [|a l IH]; intros r; simpl; [lia|].
  destruct r as [|b r]; simpl; [lia|].
  specialize (IH r). destruct (p a); simpl; lia.
Qed.

Lemma filter_none {A : Type} (p : A -> bool) (l : list A) :
  (forall a, In a l -> p a = false) -> filter p l = [].
Proof.
  induction l as [|a l IH]; intros H; simpl; [reflexivity|].
  rewrite (H a (or_introl eq_refl)). apply IH. intros x Hx. apply H. right. exact Hx.
Qed.

Lemma nx_build_between_length (rng : Type) (randint : Z -> Z -> rng -> Z * rng)
  cashouts g :
  (length (filter (between_players (length cashouts))
             (fst (nx_build randint cashouts g)))
   <= length (nx_pairs cashouts))%nat.
Proof.
  rewrite nx_build_eq. simpl. rewrite filter_app, length_app.
  assert (H0 : filter (between_players (length cashouts))
                 (terminal_edges (length cashouts) (length cashouts + 1)
                    (enumerate cashouts)) = []).
  { apply filter_none. intros e He.
    apply terminal_edges_In in He. unfold between_players.
    destruct He as [(H1 & _)|(H1 & _)]; apply andb_false_iff.
    - left. apply Nat.ltb_ge. lia.
    - right. apply Nat.ltb_ge. lia. }
  rewrite H0. simpl.
  eapply Nat.le_trans; [apply filter_length_le|].
  rewrite length_map, length_combine, draws_length. lia.
Qed.

Lemma pairs_length (cashouts : list Z) :
  length (or_pairs cashouts)
  = (length (select is_creditor (enumerate cashouts))
     * length (select is_debtor (enumerate cashouts)))%nat
  /\ length (nx_pairs cashouts)
     = (length (select is_creditor (enumerate cashouts))
        * length (select is_debtor (enumerate cashouts)))%nat.
Proof.
  unfold or_pairs, nx_pairs. rewrite !loop_pairs_length. lia.
Qed.

Section TrialShape.

Variable rng : Type.
Variable randint : Z -> Z -> rng -> Z * rng.
Variable or_solve : SimpleMinCostFlow -> Status * list Z.
Variable nx_solve : DiGraph -> nat -> nat -> list Z.

Lemma find_settlement_or_pairs cashouts t g s g' :
  find_settlement_or randint or_solve cashouts t g = (Returned s, g') ->
  NoDup (pairs_paid s) /\ (cost_of s <= length (or_pairs cashouts))%nat.
Proof.
  intros H. apply find_settlement_or_returned in H.
  destruct H as [flows [_ [-> _]]]. split.
  - eapply Permutation_NoDup; [apply Permutation_sym, pairs_paid_or_extract|].
    simpl. rewrite app_nil_r.
    apply NoDup_map_filter with (f := fun af : Arc * Z => arc_ends (fst af)).
    + rewrite <- (map_map fst arc_ends), arcs_with_flow_fst.
      apply (or_build_no_parallel_arcs randint cashouts g).
    + intros a b _ _ _ _ E. exact E.
  - rewrite or_extract_cost_eq. simpl.
    eapply Nat.le_trans; [apply positive_flows_le|].
    rewrite arcs_with_flow_length, or_build_length. lia.
Qed.

Lemma find_settlement_nx_pairs cashouts t g s g' :
  find_settlement_nx randint nx_solve cashouts t g = (Returned s, g') ->
  NoDup (pairs_paid s) /\ (cost_of s <= length (nx_pairs cashouts))%nat.
Proof.
  intros H. apply find_settlement_nx_returned in H. simpl in H.
  destruct H as (_ & _ & -> & _). split.
  - eapply Permutation_NoDup; [apply Permutation_sym, pairs_paid_nx_extract|].
    rewrite app_nil_r.
    set (graph := fst (nx_build randint cashouts g)).
    set (flows := nx_solve graph (length cashouts) (length cashouts + 1)%nat).
    assert (Hkeys : NoDup (map (fun ef : Edge * Z => edge_key (fst ef))
                             (combine graph flows)))
      by (apply NoDup_map_combine, nx_build_no_parallel_edges).
    apply NoDup_flat_map.
    + unfold enumerate. apply NoDup_select_keys.
    + intros d. unfold flow_items.
      assert (E : forall l : list (Edge * Z),
                 map (fun tf : nat * Z => (fst tf, d))
                   (filter (fun tf => 0 <? snd tf)
                      (map (fun ef : Edge * Z => (dst (fst ef), snd ef))
                         (filter (fun ef => Nat.eqb (src (fst ef)) d) l)))
                 = map (fun ef : Edge * Z => (dst (fst ef), d))
                     (filter (fun ef => Nat.eqb (src (fst ef)) d && (0 <? snd ef)) l)).
      { induction l as [|[e f] l IHl]; simpl; [reflexivity|].
        destruct (Nat.eqb (src e) d); simpl; [|exact IHl].
        destruct (0 <? f); simpl; rewrite IHl; reflexivity. }
      rewrite E.
      apply NoDup_map_filter with (f := fun ef : Edge * Z => edge_key (fst ef));
        [exact Hkeys|].
      intros [e1 f1] [e2 f2] _ _ H1 H2 Heq. simpl in *.
      apply andb_true_iff in H1, H2. destruct H1 as [H1 _], H2 as [H2 _].
      apply Nat.eqb_eq in H1, H2. unfold edge_key. inversion Heq. congruence.
    + intros k k' x Hx Hx'. apply in_map_iff in Hx, Hx'.
      destruct Hx as [tf [<- _]], Hx' as [tf' [E _]]. inversion E. reflexivity.
  - pose proof (nx_extract_counts_positive_flows randint cashouts g
                  (nx_solve (fst (nx_build randint cashouts g)) (length cashouts)
                     (length cashouts + 1)%nat)) as Hc.
    simpl in Hc. rewrite Hc.
    eapply Nat.le_trans; [apply positive_flows_le|].
    eapply Nat.le_trans; [apply filter_combine_length|].
    apply nx_build_between_length.
Qed.

End TrialShape.

(** X7.  In the settlement of a trial no debtor pays the same creditor
    twice, so a settlement has at most (number of creditors) x (number of
    debtors) payments: every score stays below the sentinel
    [len(cashouts) ** 2 + 1] the search starts from. *)
Theorem trial_pays_each_pair_at_most_once
  (rng : Type) (randint : Z -> Z -> rng -> Z * rng)
  (or_solve : SimpleMinCostFlow -> Status * list Z)
  (nx_solve : DiGraph -> nat -> nat -> list Z)
  (cashouts : list Z) (t : nat) (g : rng) (s : list (nat * list (nat * Z))) :
  fst (find_settlement_or randint or_solve cashouts t g) = Returned s
  \/ fst (find_settlement_nx randint nx_solve cashouts t g) = Returned s ->
  NoDup (pairs_paid s)
  /\ (cost_of s <= length (select is_creditor (enumerate cashouts))
                   * length (select is_debtor (enumerate cashouts)))%nat
  /\ (cost_of s < length cashouts * length cashouts + 1)%nat.
Proof.
  intros H.
  assert (Hb : NoDup (pairs_paid s) /\
               (cost_of s <= length (select is_creditor (enumerate cashouts))
                             * length (select is_debtor (enumerate cashouts)))%nat).
  { destruct (pairs_length cashouts) as [Eor Enx]. destruct H as [H|H].
    - destruct (find_settlement_or randint or_solve cashouts t g) as [r g'] eqn:E.
      simpl in H. subst r. rewrite <- Eor. eapply find_settlement_or_pairs. exact E.
    - destruct (find_settlement_nx randint nx_solve cashouts t g) as [r g'] eqn:E.
      simpl in H. subst r. rewrite <- Enx. eapply find_settlement_nx_pairs. exact E. }
  destruct Hb as [Hnd Hc]. split; [exact Hnd|]. split; [exact Hc|].
  pose proof (select_length_le is_creditor cashouts) as H1.
  pose proof (select_length_le is_debtor cashouts) as H2. nia.
Qed.

Example trial_pays_each_pair_at_most_once_witness :
  NoDup (pairs_paid [(2%nat, [(1%nat, 1)]); (3%nat, [(0%nat, 2)])])
  /\ Nat.le (cost_of [(2%nat, [(1%nat, 1)]); (3%nat, [(0%nat, 2)])])
       (length (select is_creditor (enumerate [-2; -1; 1; 2]))
        * length (select is_debtor (enumerate [-2; -1; 1; 2])))
  /\ Nat.lt (cost_of [(2%nat, [(1%nat, 1)]); (3%nat, [(0%nat, 2)])])
       (length [-2; -1; 1; 2] * length [-2; -1; 1; 2] + 1).
Proof.
  refine (@trial_pays_each_pair_at_most_once (list Z) tape_randint brute_or_solve
            brute_nx_solve [-2; -1; 1; 2] 0%nat [9; 1; 1; 9] _ _).
  left. vm_compute. reflexivity.
Defined.

(** ** The search over the pool *)

(** *** Every trial is run and compared once *)

Lemma get_tasks_upto_concat fuel it size :
  (1 <= size)%nat -> (length it <= fuel)%nat ->
  concat (get_tasks_upto fuel it size) = it.
Proof.
  intros Hsize. revert it. induction fuel as [|fuel IH]; intros it Hfuel; simpl.
  - destruct it; [reflexivity | simpl in Hfuel; lia].
  - destruct (firstn size it) as [|x xs] eqn:E.
    + destruct it as [|y it]; [reflexivity|].
      destruct size; [lia | discriminate].
    + rewrite <- E. rewrite concat_cons. rewrite IH.
      * apply firstn_skipn.
      * rewrite length_skipn. destruct it as [|y it]; [destruct size; discriminate|].
        cbn [length] in *. lia.
Qed.

Lemma pool_tasks_concat num_trials chunk :
  (1 <= chunk)%nat -> concat (pool_tasks num_trials chunk) = seq 0 num_trials.
Proof.
  intros Hc. unfold pool_tasks. destruct (Nat.eqb chunk 1).
  - induction (seq 0 num_trials) as [|i l IH]; simpl; [reflexivity|].
    rewrite IH. reflexivity.
  - unfold get_tasks. apply get_tasks_upto_concat; [exact Hc | lia].
Qed.

Section Counting.

Variable rng : Type.
Variable func : nat -> rng -> outcome (list (nat * list (nat * Z))) * rng.

Lemma mapstar_length items g ss g' :
  mapstar func items g = (Returned ss, g') -> length ss = length items.
Proof.
  revert g ss. induction items as [|i items IH]; intros g ss; simpl.
  - intros H. inversion H. reflexivity.
  - destruct (func i g) as [[s|e] g1]; [|discriminate].
    destruct (mapstar func items g1) as [[ss'|e] g2] eqn:E; [|discriminate].
    intros H. inversion H; subst. simpl. rewrite (IH _ _ E). reflexivity.
Qed.

Lemma run_schedule_length tasks sched st ss :
  arrived (run_schedule func tasks sched st) = Some ss ->
  length ss
  = fold_right (fun k n => (length (nth k tasks []) + n)%nat) 0%nat (map snd sched).
Proof.
  revert st ss. induction sched as [|[w k] sched IH]; intros st ss; simpl.
  - intros H. inversion H. reflexivity.
  - destruct (mapstar func (nth k tasks []) (st w)) as [[chunk|e] g1] eqn:E;
      simpl; [|discriminate].
    destruct (arrived (run_schedule func tasks sched (set_worker st w g1)))
      as [ss'|] eqn:E'; [|discriminate].
    intros H. inversion H; subst. rewrite length_app.
    rewrite (mapstar_length _ _ E), (IH _ _ E'). reflexivity.
Qed.

End Counting.

Lemma sum_lengths_perm (tasks : list (list nat)) (ks ks' : list nat) :
  Permutation ks ks' ->
  fold_right (fun k n => (length (nth k tasks []) + n)%nat) 0%nat ks
  = fold_right (fun k n => (length (nth k tasks []) + n)%nat) 0%nat ks'.
Proof.
  induction 1; simpl; lia.
Qed.

Lemma sum_lengths_seq (tasks : list (list nat)) :
  fold_right (fun k n => (length (nth k tasks []) + n)%nat) 0%nat
    (seq 0 (length tasks))
  = length (concat tasks).
Proof.
  assert (H : forall (pre : list (list nat)),
             fold_right (fun k n => (length (nth k (pre ++ tasks) []) + n)%nat) 0%nat
               (seq (length pre) (length tasks))
             = length (concat tasks)).
  { induction tasks as [|task tasks IH]; intros pre; simpl; [reflexivity|].
    rewrite length_app. rewrite app_nth2 by lia. rewrite Nat.sub_diag. simpl.
    specialize (IH (pre ++ [task])). rewrite <- app_assoc in IH. simpl in IH.
    rewrite length_app in IH. simpl in IH. rewrite Nat.add_1_r in IH.
    rewrite IH. reflexivity. }
  apply (H []).
Qed.

Lemma trial_results_length (rng : Type) (env : PoolEnv rng)
  (finder : list Z -> nat -> rng -> outcome (list (nat * list (nat * Z))) * rng)
  (cashouts : list Z) (num_trials : nat) (ss : list (list (nat * list (nat * Z)))) :
  (1 <= num_trials)%nat -> (1 <= cpu_count env)%nat ->
  valid_schedule env (task_count num_trials (cpu_count env)) ->
  trial_results env finder cashouts num_trials = Some ss ->
  length ss = num_trials.
Proof.
  intros Hn Hc [Hperm _]. unfold trial_results.
  pose proof (chunk_size_pos Hn Hc) as Hchunk.
  rewrite imap_unordered_pool_tasks by exact Hchunk.
  rewrite task_count_pool_tasks in Hperm.
  intros H. rewrite (run_schedule_length _ _ _ _ H).
  rewrite (sum_lengths_perm _ Hperm), sum_lengths_seq.
  rewrite pool_tasks_concat by exact Hchunk. apply length_seq.
Qed.

(** X8.  With a well-formed schedule, a search for [num_trials >= 1] trials
    in which no trial raises compares exactly [num_trials] settlements: the
    chunks cover the range of trials, and every trial of every chunk
    contributes one settlement. *)
Theorem search_compares_one_settlement_per_trial
  (rng : Type) (env : PoolEnv rng)
  (finder : list Z -> nat -> rng -> outcome (list (nat * list (nat * Z))) * rng)
  (cashouts : list Z) (num_trials : nat) (r : option (list (nat * list (nat * Z)))) :
  (1 <= num_trials)%nat -> (1 <= cpu_count env)%nat ->
  valid_schedule env (task_count num_trials (cpu_count env)) ->
  find_best_settlement finder cashouts num_trials env = Returned r ->
  exists ss, trial_results env finder cashouts num_trials = Some ss
             /\ length ss = num_trials.
Proof.
  intros Hn Hc Hvalid H. destruct (find_best_settlement_results _ _ _ _ H) as [ss Hss].
  exists ss. split; [exact Hss|]. eapply trial_results_length; eassumption.
Qed.

Example search_compares_one_settlement_per_trial_witness :
  exists ss,
    trial_results (mkPoolEnv 2 (fun _ => [1; 9; 1; 1; 9; 1; 1; 9; 4; 4; 4; 4])
                     [(1, 1); (0, 0)]%nat)
      (find_settlement_or tape_randint brute_or_solve) [-2; -1; 1; 2] 3 = Some ss
    /\ length ss = 3%nat.
Proof.
  refine (@search_compares_one_settlement_per_trial (list Z)
            (mkPoolEnv 2 (fun _ => [1; 9; 1; 1; 9; 1; 1; 9; 4; 4; 4; 4])
               [(1, 1); (0, 0)]%nat)
            (find_settlement_or tape_randint brute_or_solve) [-2; -1; 1; 2] 3
            (Some [(2%nat, [(1%nat, 1)]); (3%nat, [(0%nat, 2)])]) _ _ _ _).
  - lia.
  - simpl. lia.
  - split; [|repeat constructor].
    vm_compute. apply perm_swap.
  - vm_compute. reflexivity.
Defined.

(** *** The settlement that is kept *)

Lemma trial_results_origin (rng : Type) (env : PoolEnv rng)
  (finder : list Z -> nat -> rng -> outcome (list (nat * list (nat * Z))) * rng)
  cashouts num_trials ss s :
  trial_results env finder cashouts num_trials = Some ss -> In s ss ->
  exists t g g', finder cashouts t g = (Returned s, g').
Proof.
  unfold trial_results.
  destruct (imap_unordered env (finder cashouts) num_trials _) as [arrivals|e] eqn:E;
    [|discriminate].
  intros Harr Hin. destruct (arrived_In _ _ Harr Hin) as [chunk [Hchunk Hs]].
  eapply imap_unordered_origin; eassumption.
Qed.

(** X9.  The settlement the search returns is one of the settlements it
    compared, and none of them has fewer payments. *)
Theorem search_returns_a_least_score
  (rng : Type) (env : PoolEnv rng)
  (finder : list Z -> nat -> rng -> outcome (list (nat * list (nat * Z))) * rng)
  (cashouts : list Z) (num_trials : nat) (s : list (nat * list (nat * Z))) :
  find_best_settlement finder cashouts num_trials env = Returned (Some s) ->
  exists ss,
    trial_results env finder cashouts num_trials = Some ss /\ In s ss /\
    forall x, In x ss -> (cost_of s <= cost_of x)%nat.
Proof.
  intros H. destruct (find_best_settlement_results _ _ _ _ H) as [ss Hss].
  exists ss. split; [exact Hss|].
  rewrite (find_best_settlement_fold _ _ _ _ Hss) in H.
  inversion H as [Hbest]. clear H.
  pose proof (@fold_keep_best_coherent ss (start_of cashouts) I) as Hcoh.
  unfold coherent in Hcoh. rewrite Hbest in Hcoh. split.
  - destruct (fold_keep_best_origin ss (start_of cashouts)) as [E|[s' [Hin E]]].
    + rewrite Hbest in E. discriminate.
    + rewrite Hbest in E. inversion E. subst. exact Hin.
  - intros x Hx. rewrite Hcoh. apply fold_keep_best_lower. exact Hx.
Qed.

Example search_returns_a_least_score_witness :
  exists ss,
    trial_results (serial_env 1 [1; 9; 1; 1; 9; 1; 1; 9])
      (find_settlement_or tape_randint brute_or_solve) [-2; -1; 1; 2] 2 = Some ss
    /\ In [(2%nat, [(1%nat, 1)]); (3%nat, [(0%nat, 2)])] ss
    /\ forall x, In x ss ->
         Nat.le (cost_of [(2%nat, [(1%nat, 1)]); (3%nat, [(0%nat, 2)])]) (cost_of x).
Proof.
  refine (@search_returns_a_least_score (list Z)
            (serial_env 1 [1; 9; 1; 1; 9; 1; 1; 9])
            (find_settlement_or tape_randint brute_or_solve) [-2; -1; 1; 2] 2
            [(2%nat, [(1%nat, 1)]); (3%nat, [(0%nat, 2)])] _).
  vm_compute. reflexivity.
Defined.

Lemma search_keeps_a_settlement (rng : Type) (env : PoolEnv rng)
  (finder : list Z -> nat -> rng -> outcome (list (nat * list (nat * Z))) * rng)
  (cashouts : list Z) (num_trials : nat) (r : option (list (nat * list (nat * Z)))) :
  (forall t g s g', finder cashouts t g = (Returned s, g') ->
     (cost_of s <= length cashouts * length cashouts)%nat) ->
  (1 <= num_trials)%nat -> (1 <= cpu_count env)%nat ->
  valid_schedule env (task_count num_trials (cpu_count env)) ->
  find_best_settlement finder cashouts num_trials env = Returned r ->
  exists s, r = Some s.
Proof.
  intros Hcost Hn Hc Hvalid H.
  destruct (find_best_settlement_results _ _ _ _ H) as [ss Hss].
  pose proof (@trial_results_length rng env finder cashouts num_trials ss
                Hn Hc Hvalid Hss) as Hlen.
  rewrite (find_best_settlement_fold _ _ _ _ Hss) in H. inversion H as [Hbest].
  destruct ss as [|s0 ss']; [simpl in Hlen; lia|].
  destruct (snd (fold_left keep_best (s0 :: ss') (start_of cashouts))) as [s|] eqn:E.
  - exists s. reflexivity.
  - exfalso. pose proof (fold_keep_best_none _ _ E) as Hnone.
    pose proof (@fold_keep_best_lower (s0 :: ss') (start_of cashouts) s0
                  (or_introl eq_refl)) as Hlow.
    destruct (@trial_results_origin rng env finder cashouts num_trials
                (s0 :: ss') s0 Hss (or_introl eq_refl)) as [t [g [g' Ho]]].
    specialize (Hcost _ _ _ _ Ho). rewrite Hnone in Hlow. simpl in Hlow. lia.
Qed.

(** X10.  With a well-formed schedule and [num_trials >= 1], a search that
    returns never returns [None]: on either backend the first settlement to
    arrive has fewer payments than the sentinel, so a best settlement is
    always kept. *)
Theorem search_that_returns_keeps_a_settlement
  (rng : Type) (randint : Z -> Z -> rng -> Z * rng)
  (or_solve : SimpleMinCostFlow -> Status * list Z)
  (nx_solve : DiGraph -> nat -> nat -> list Z)
  (cashouts : list Z) (num_trials : nat) (env : PoolEnv rng)
  (r : option (list (nat * list (nat * Z)))) :
  (1 <= num_trials)%nat -> (1 <= cpu_count env)%nat ->
  valid_schedule env (task_count num_trials (cpu_count env)) ->
  find_best_settlement (find_settlement_or randint or_solve) cashouts num_trials env
  = Returned r
  \/ find_best_settlement (find_settlement_nx randint nx_solve) cashouts num_trials env
     = Returned r ->
  exists s, r = Some s.
Proof.
  intros Hn Hc Hvalid [H|H].
  - eapply search_keeps_a_settlement; [| exact Hn | exact Hc | exact Hvalid | exact H].
    intros t g s g' Hs. apply find_settlement_or_pairs in Hs. destruct Hs as [_ Hs].
    destruct (pairs_length cashouts) as [E _]. rewrite E in Hs.
    pose proof (select_length_le is_creditor cashouts).
    pose proof (select_length_le is_debtor cashouts). nia.
  - eapply search_keeps_a_settlement; [| exact Hn | exact Hc | exact Hvalid | exact H].
    intros t g s g' Hs. apply find_settlement_nx_pairs in Hs. destruct Hs as [_ Hs].
    destruct (pairs_length cashouts) as [_ E]. rewrite E in Hs.
    pose proof (select_length_le is_creditor cashouts).
    pose proof (select_length_le is_debtor cashouts). nia.
Qed.

Example search_that_returns_keeps_a_settlement_witness :
  exists s, Some [(1%nat, [(0%nat, 50)])] = Some s.
Proof.
  refine (@search_that_returns_keeps_a_settlement (list Z) tape_randint
            brute_or_solve brute_nx_solve [-100; 50] 1 (serial_env 1 [7])
            (Some [(1%nat, [(0%nat, 50)])]) _ _ _ _).
  - lia.
  - simpl. lia.
  - split; [|repeat constructor]. vm_compute. apply Permutation_refl.
  - right. vm_compute. reflexivity.
Defined.

(** ** Amounts and links *)

Lemma string_length_append (s t : string) :
  String.length (s ++ t) = (String.length s + String.length t)%nat.
Proof. induction s as [|c s IH]; simpl; [reflexivity | rewrite IH; reflexivity]. Qed.

Lemma string_append_assoc (s t u : string) :
  ((s ++ t) ++ u = s ++ (t ++ u))%string.
Proof. induction s as [|c s IH]; simpl; [reflexivity | rewrite IH; reflexivity]. Qed.

(** Two texts that end in suffixes of the same length agree part by part. *)
Lemma string_append_inj (s1 s2 t1 t2 : string) :
  String.length t1 = String.length t2 ->
  (s1 ++ t1 = s2 ++ t2)%string -> s1 = s2 /\ t1 = t2.
Proof.
  intros Hl. revert s2. induction s1 as [|c s1 IH]; intros [|c' s2] H; simpl in H.
  - auto.
  - exfalso. apply (f_equal String.length) in H. simpl in H.
    rewrite string_length_append in H. lia.
  - exfalso. apply (f_equal String.length) in H. simpl in H.
    rewrite string_length_append in H. lia.
  - inversion H as [[Hc Hs]]. destruct (IH _ Hs) as [-> ->]. auto.
Qed.

Lemma str_of_int_inj (a b : Z) : str_of_int a = str_of_int b -> a = b.
Proof.
  unfold str_of_int. intros H.
  assert (Hnil : forall z, Z.to_int z <> Decimal.Pos Decimal.Nil
                           /\ Z.to_int z <> Decimal.Neg Decimal.Nil).
  { intros [|p|p]; simpl; split; try discriminate;
      intros E; inversion E as [E']; exact (DecimalPos.Unsigned.to_uint_nonnil _ E'). }
  apply (f_equal NilZero.int_of_string) in H.
  rewrite !NilZero.isi in H by apply Hnil.
  inversion H as [H']. apply (f_equal Z.of_int) in H'.
  rewrite !DecimalZ.of_to in H'. exact H'.
Qed.

(** Below one hundred, [:02] gives exactly the two decimal digits. *)
Lemma format_02_two_digits (r : Z) :
  0 <= r < 100 ->
  format_02 r
  = String (ascii_of_nat (48 + Z.to_nat (r / 10)))
      (String (ascii_of_nat (48 + Z.to_nat (r mod 10))) EmptyString).
Proof.
  intros Hr.
  assert (H : forallb
                (fun k => String.eqb (format_02 (Z.of_nat k))
                            (String (ascii_of_nat (48 + Z.to_nat (Z.of_nat k / 10)))
                               (String (ascii_of_nat (48 + Z.to_nat (Z.of_nat k mod 10)))
                                  EmptyString)))
                (seq 0 100) = true) by (vm_compute; reflexivity).
  rewrite forallb_forall in H.
  specialize (H (Z.to_nat r)). rewrite Z2Nat.id in H by lia.
  apply String.eqb_eq. apply H. apply in_seq. lia.
Qed.

Lemma format_02_length (r : Z) : 0 <= r < 100 -> String.length (format_02 r) = 2%nat.
Proof. intros Hr. rewrite format_02_two_digits by exact Hr. reflexivity. Qed.

Lemma format_02_inj (r r' : Z) :
  0 <= r < 100 -> 0 <= r' < 100 -> format_02 r = format_02 r' -> r = r'.
Proof.
  intros Hr Hr' H.
  assert (Hd : forall q q', (q < 10)%nat -> (q' < 10)%nat ->
             ascii_of_nat (48 + q) = ascii_of_nat (48 + q') -> q = q').
  { intros q q' Hq Hq' E. apply (f_equal nat_of_ascii) in E.
    rewrite !nat_ascii_embedding in E by lia. lia. }
  rewrite !format_02_two_digits in H by assumption.
  inversion H as [[H1 H2]].
  apply Hd in H1; [| apply Nat2Z.inj_lt; rewrite Z2Nat.id;
                      [apply Z.div_lt_upper_bound | apply Z.div_pos]; lia ..].
  apply Hd in H2; [| apply Nat2Z.inj_lt; rewrite Z2Nat.id;
                      [apply Z.mod_pos_bound | apply Z.mod_pos_bound]; lia ..].
  apply Z2Nat.inj in H1; [| apply Z.div_pos; lia ..].
  apply Z2Nat.inj in H2; [| apply Z.mod_pos_bound; lia ..].
  rewrite (Z.div_mod r 10), (Z.div_mod r' 10) by lia. rewrite H1, H2. reflexivity.
Qed.

(** X11.  Two amounts are printed alike only when they are equal: the cents
    always take exactly two digits after the point, so the text determines
    the dollars and the cents. *)
Theorem print_amount_tells_amounts_apart (a b : Z) :
  print_amount a = print_amount b <-> a = b.
Proof.
  split; [|intros ->; reflexivity].
  unfold print_amount. intros H. simpl in H. inversion H as [H'].
  assert (Ha : 0 <= a mod 100 < 100) by (apply Z.mod_pos_bound; lia).
  assert (Hb : 0 <= b mod 100 < 100) by (apply Z.mod_pos_bound; lia).
  change (str_of_int (a / 100) ++ String "." (format_02 (a mod 100))
          = str_of_int (b / 100) ++ String "." (format_02 (b mod 100)))%string in H'.
  apply string_append_inj in H'.
  2:{ simpl. rewrite !format_02_length by assumption. reflexivity. }
  destruct H' as [Hq Hr]. apply str_of_int_inj in Hq.
  inversion Hr as [Hr']. apply format_02_inj in Hr'; [|assumption ..].
  rewrite (Z.div_mod a 100), (Z.div_mod b 100) by lia. rewrite Hq, Hr'. reflexivity.
Qed.

Lemma str_of_int_neg (n : Z) :
  0 < n -> str_of_int (- n) = String "-" (str_of_int n).
Proof. destruct n as [|p|p]; intros H; try lia. reflexivity. Qed.

(** X12.  Dollars and cents come from the floor division by 100, also below
    zero: an amount of [-n] cents that is not a whole number of dollars is
    printed with one dollar more than [n] has and with the complement of its
    cents, so that -150 reads [$-2.50]. *)
Theorem print_amount_floors_negative_amounts (n : Z) :
  0 < n -> n mod 100 <> 0 ->
  print_amount (- n)
  = ("$-" ++ str_of_int (n / 100 + 1) ++ "." ++ format_02 (100 - n mod 100))%string.
Proof.
  intros Hn Hm. unfold print_amount.
  assert (Hr : 0 <= n mod 100 < 100) by (apply Z.mod_pos_bound; lia).
  assert (Hq : 0 <= n / 100) by (apply Z.div_pos; lia).
  assert (E1 : - n / 100 = - (n / 100 + 1)).
  { symmetry. apply (Z.div_unique _ _ _ (100 - n mod 100)); [lia|].
    pose proof (Z.div_mod n 100). lia. }
  assert (E2 : - n mod 100 = 100 - n mod 100).
  { symmetry. apply (Z.mod_unique _ _ (- (n / 100 + 1))); [lia|].
    pose proof (Z.div_mod n 100). lia. }
  rewrite E1, E2, str_of_int_neg by lia. reflexivity.
Qed.

Example print_amount_floors_negative_amounts_witness :
  print_amount (- 150) = "$-2.50"%string.
Proof.
  exact (@print_amount_floors_negative_amounts 150 ltac:(lia)
           ltac:(vm_compute; discriminate)).
Defined.

(** X13.  The link of a non-zero amount charges what [print_amount] shows:
    the text after [&amount=] is the printed amount without its dollar
    sign. *)
Theorem href_charges_the_printed_amount (name : string) (num : Z) :
  num <> 0 ->
  exists amount : string,
    print_amount num = String "$" amount /\
    href name (Some num)
    = ("<a href=" ++ dquote
       ++ "https://venmo.com/?txn=charge&audience=private&recipients="
       ++ drop_first name ++ "&amount=" ++ amount ++ dquote ++ ">" ++ name
       ++ "<a>")%string.
Proof.
  intros Hnum.
  exists (str_of_int (num / 100) ++ "." ++ format_02 (num mod 100))%string.
  split; [reflexivity|]. unfold href.
  replace (num =? 0) with false by (symmetry; apply Z.eqb_neq; exact Hnum).
  cbv zeta. repeat (rewrite <- ?string_append_assoc). 
  rewrite !string_append_assoc. reflexivity.
Qed.

Example href_charges_the_printed_amount_witness :
  exists amount : string,
    print_amount 1250 = String "$" amount /\
    href "@bob" (Some 1250)
    = ("<a href=" ++ dquote
       ++ "https://venmo.com/?txn=charge&audience=private&recipients="
       ++ drop_first "@bob" ++ "&amount=" ++ amount ++ dquote ++ ">" ++ "@bob"
       ++ "<a>")%string.
Proof.
  exact (@href_charges_the_printed_amount "@bob" 1250 ltac:(lia)).
Defined.

(** ** Sorting *)

Lemma insert_sorted_perm {A : Type} (lt : A -> A -> bool) (x : A) (l : list A) :
  Permutation (insert_sorted lt x l) (x :: l).
Proof.
  induction l as [|y l IH]; simpl; [apply Permutation_refl|].
  destruct (lt y x); [|apply Permutation_refl].
  eapply perm_trans; [apply perm_skip; exact IH | apply perm_swap].
Qed.

Lemma sort_stable_perm {A : Type} (lt : A -> A -> bool) (l : list A) :
  Permutation (sort_stable lt l) l.
Proof.
  unfold sort_stable. induction l as [|x l IH]; simpl; [apply Permutation_refl|].
  eapply perm_trans; [apply insert_sorted_perm | apply perm_skip; exact IH].
Qed.

Lemma insert_sorted_Sorted {A : Type} (lt : A -> A -> bool) (x : A) (l : list A) :
  (forall a b, lt a b = true -> lt b a = false) ->
  Sorted (fun a b => lt b a = false) l ->
  Sorted (fun a b => lt b a = false) (insert_sorted lt x l).
Proof.
  intros Hasym. induction l as [|y l IH]; intros Hs; simpl.
  - constructor; constructor.
  - destruct (lt y x) eqn:E.
    + inversion Hs as [|? ? Hs' Hhd]; subst. constructor; [apply IH; exact Hs'|].
      destruct l as [|z l]; simpl.
      * constructor. apply Hasym. exact E.
      * destruct (lt z x) eqn:E'.
        -- inversion Hhd; subst. constructor. assumption.
        -- constructor. apply Hasym. exact E.
    + constructor; [exact Hs|]. constructor. exact E.
Qed.

Lemma sort_stable_Sorted {A : Type} (lt : A -> A -> bool) (l : list A) :
  (forall a b, lt a b = true -> lt b a = false) ->
  Sorted (fun a b => lt b a = false) (sort_stable lt l).
Proof.
  intros Hasym. unfold sort_stable. induction l as [|x l IH]; simpl.
  - constructor.
  - apply insert_sorted_Sorted; assumption.
Qed.

Lemma keys_of_Forall2 {A K : Type} (key : A -> option K) (l : list A) (ks : list K) :
  keys_of key l = Some ks -> Forall2 (fun x k => key x = Some k) l ks.
Proof.
  revert ks. induction l as [|x l IH]; intros ks; simpl.
  - intros H. inversion H. constructor.
  - destruct (key x) as [k|] eqn:E; [|discriminate].
    destruct (keys_of key l) as [ks'|]; [|discriminate].
    intros H. inversion H; subst. constructor; [exact E | apply IH; reflexivity].
Qed.

Lemma keys_of_total {A K : Type} (key : A -> option K) (l : list A) :
  (forall x, In x l -> key x <> None) -> exists ks, keys_of key l = Some ks.
Proof.
  induction l as [|x l IH]; intros H; simpl.
  - exists []. reflexivity.
  - destruct (key x) as [k|] eqn:E; [|exfalso; apply (H x); [left; reflexivity | exact E]].
    destruct IH as [ks Hks]; [intros y Hy; apply H; right; exact Hy|].
    rewrite Hks. exists (k :: ks). reflexivity.
Qed.

Lemma keys_of_none {A K : Type} (key : A -> option K) (l : list A) (x : A) :
  In x l -> key x = None -> keys_of key l = None.
Proof.
  induction l as [|y l IH]; intros Hin Hx; simpl; [destruct Hin|].
  destruct Hin as [->|Hin].
  - rewrite Hx. reflexivity.
  - destruct (key y); [|reflexivity]. rewrite (IH Hin Hx). reflexivity.
Qed.

Lemma combine_Forall2 {A K : Type} (P : A -> K -> Prop) (l : list A) (ks : list K) :
  Forall2 P l ks ->
  map snd (combine ks l) = l /\ Forall (fun d : K * A => P (snd d) (fst d)) (combine ks l).
Proof.
  induction 1 as [|x k l ks Hxk _ [IH1 IH2]]; simpl.
  - split; [reflexivity | constructor].
  - rewrite IH1. split; [reflexivity | constructor; assumption].
Qed.

(** What [sorted] returns: the same elements, in an order in which no
    element has a smaller key than the one before it. *)
Lemma sorted_spec {A K : Type} (lt : K -> K -> bool) (key : A -> option K)
  (l l' : list A) :
  (forall a b, lt a b = true -> lt b a = false) ->
  sorted lt key l = Some l' ->
  Permutation l' l /\
  Sorted (fun x y => forall kx ky, key x = Some kx -> key y = Some ky ->
                       lt ky kx = false) l'.
Proof.
  intros Hasym. unfold sorted.
  destruct (keys_of key l) as [ks|] eqn:E; [|discriminate].
  intros H. inversion H as [H']. clear H.
  apply keys_of_Forall2 in E. destruct (combine_Forall2 E) as [Hsnd Hall].
  set (lt' := fun a b : K * A => lt (fst a) (fst b)).
  pose proof (sort_stable_perm lt' (combine ks l)) as Hperm.
  split.
  - rewrite <- Hsnd at 2. apply Permutation_map. exact Hperm.
  - assert (Hall' : Forall (fun d : K * A => key (snd d) = Some (fst d))
                      (sort_stable lt' (combine ks l))).
    { apply Forall_forall. intros d Hd. rewrite Forall_forall in Hall.
      apply Hall. eapply Permutation_in; [exact Hperm | exact Hd]. }
    assert (Hs : Sorted (fun a b => lt' b a = false) (sort_stable lt' (combine ks l))).
    { apply sort_stable_Sorted. intros a b. unfold lt'. apply Hasym. }
    clear -Hall' Hs.
    induction (sort_stable lt' (combine ks l)) as [|d dl IH]; simpl; [constructor|].
    inversion Hs as [|? ? Hs' Hhd]; subst. inversion Hall' as [|? ? Hd Hdl]; subst.
    constructor; [apply IH; assumption|].
    destruct dl as [|d' dl']; simpl; constructor.
    inversion Hhd as [|? ? Hlt]; subst. inversion Hdl as [|? ? Hd' _]; subst.
    intros kx ky Hx Hy. rewrite Hd in Hx. rewrite Hd' in Hy.
    inversion Hx; inversion Hy; subst. exact Hlt.
Qed.

Lemma sorted_total {A K : Type} (lt : K -> K -> bool) (key : A -> option K)
  (l : list A) :
  (forall x, In x l -> key x <> None) -> exists l', sorted lt key l = Some l'.
Proof.
  intros H. unfold sorted. destruct (keys_of_total key l H) as [ks ->].
  eexists. reflexivity.
Qed.

Lemma sorted_none {A K : Type} (lt : K -> K -> bool) (key : A -> option K)
  (l : list A) (x : A) :
  In x l -> key x = None -> sorted lt key l = None.
Proof.
  intros Hin Hx. unfold sorted. rewrite (keys_of_none key l x Hin Hx). reflexivity.
Qed.

Lemma string_ltb_asym (a b : string) :
  String.ltb a b = true -> String.ltb b a = false.
Proof.
  unfold String.ltb. rewrite (String.compare_antisym a b).
  destruct (String.compare b a); simpl; intros H; try discriminate; reflexivity.
Qed.

Lemma tuple_ltb_asym (a b : Z * string) :
  tuple_ltb a b = true -> tuple_ltb b a = false.
Proof.
  unfold tuple_ltb. intros H. apply orb_true_iff in H.
  apply orb_false_iff. destruct H as [H|H].
  - apply Z.ltb_lt in H. split; [apply Z.ltb_ge; lia|].
    apply andb_false_iff. left. apply Z.eqb_neq. lia.
  - apply andb_true_iff in H. destruct H as [H1 H2]. apply Z.eqb_eq in H1.
    split; [apply Z.ltb_ge; lia|]. apply andb_false_iff. right.
    apply string_ltb_asym. exact H2.
Qed.

(** ** The printed report *)

Lemma nth_error_known (players : list (string * Z)) (i : nat) :
  (i < length players)%nat ->
  nth_error players i = Some (name_at players i, balance_at players i).
Proof.
  intros Hi. unfold name_at, balance_at.
  destruct (nth_error players i) as [[name c]|] eqn:E; [reflexivity|].
  apply nth_error_None in E. lia.
Qed.

Lemma print_payers_known (players : list (string * Z)) (payers : list (nat * Z))
  (out : list string) :
  (forall p, In p payers -> (fst p < length players)%nat) ->
  print_payers players payers out
  = (out ++ map (fun p : nat * Z => payer_line (name_at players (fst p)) (snd p)) payers,
     None).
Proof.
  revert out. induction payers as [|p payers IH]; intros out H; simpl.
  - rewrite app_nil_r. reflexivity.
  - rewrite (nth_error_known players (H p (or_introl eq_refl))).
    rewrite IH by (intros q Hq; apply H; right; exact Hq).
    rewrite <- app_assoc. reflexivity.
Qed.

Lemma payments_to_In (key : nat) (s : list (nat * list (nat * Z))) :
  In key (map fst s) -> In (key, payments_to key s) s.
Proof.
  induction s as [|[k al] s IH]; simpl; [intros []|].
  destruct (Nat.eqb k key) eqn:E.
  - apply Nat.eqb_eq in E. subst k. intros _. left. reflexivity.
  - intros [H|H]; [apply Nat.eqb_neq in E; contradiction|]. right. apply IH. exact H.
Qed.

Section Report.

Variable lower : string -> string.
Variable players : list (string * Z).
Variable s : list (nat * list (nat * Z)).
Hypothesis Hknown : known_players players s.

Lemma creditor_key_known key :
  In key (map fst s) ->
  creditor_key lower players key = Some (lower (name_at players key)).
Proof.
  intros Hin. apply payments_to_In in Hin. destruct (Hknown _ _ Hin) as [Hk _].
  unfold creditor_key. rewrite (nth_error_known players Hk). reflexivity.
Qed.

Lemma payer_key_known key p :
  In key (map fst s) -> In p (payments_to key s) ->
  payer_key lower players p = Some (- snd p, lower (name_at players (fst p))).
Proof.
  intros Hin Hp. apply payments_to_In in Hin. destruct (Hknown _ _ Hin) as [_ Hd].
  destruct p as [d a]. unfold payer_key. simpl.
  rewrite (nth_error_known players (Hd d a Hp)). reflexivity.
Qed.

Lemma sorted_creditors_eq :
  sorted String.ltb (creditor_key lower players) (map fst s)
  = Some (sorted_creditors lower players s).
Proof.
  unfold sorted_creditors.
  destruct (sorted_total String.ltb (creditor_key lower players) (map fst s))
    as [ids E].
  - intros k Hk. rewrite (creditor_key_known _ Hk). discriminate.
  - rewrite E. reflexivity.
Qed.

Lemma sorted_payers_eq key :
  In key (map fst s) ->
  sorted tuple_ltb (payer_key lower players) (payments_to key s)
  = Some (sorted_payers lower players s key).
Proof.
  intros Hin. unfold sorted_payers.
  destruct (sorted_total tuple_ltb (payer_key lower players) (payments_to key s))
    as [l E].
  - intros p Hp. rewrite (payer_key_known _ _ Hin Hp). discriminate.
  - rewrite E. reflexivity.
Qed.

Lemma sorted_creditors_perm :
  Permutation (sorted_creditors lower players s) (map fst s).
Proof.
  apply (sorted_spec String.ltb (creditor_key lower players) (map fst s)
           string_ltb_asym sorted_creditors_eq).
Qed.

Lemma sorted_payers_perm key :
  In key (map fst s) ->
  Permutation (sorted_payers lower players s key) (payments_to key s).
Proof.
  intros Hin.
  apply (sorted_spec tuple_ltb (payer_key lower players) (payments_to key s)
           tuple_ltb_asym (sorted_payers_eq _ Hin)).
Qed.

Lemma print_creditors_known (ids : list nat) (out : list string) :
  (forall key, In key ids -> In key (map fst s)) ->
  print_creditors lower players s ids out
  = (out ++ flat_map (fun key => block players key (sorted_payers lower players s key))
              ids,
     None).
Proof.
  revert out. induction ids as [|key ids IH]; intros out H; simpl.
  - rewrite app_nil_r. reflexivity.
  - assert (Hin : In key (map fst s)) by (apply H; left; reflexivity).
    pose proof (payments_to_In _ _ Hin) as Hentry.
    destruct (Hknown _ _ Hentry) as [Hk Hd].
    rewrite (nth_error_known players Hk), (sorted_payers_eq _ Hin).
    rewrite print_payers_known.
    + rewrite IH by (intros k Hk'; apply H; right; exact Hk').
      unfold block. rewrite <- !app_assoc. reflexivity.
    + intros [d a] Hp.
      apply (Permutation_in _ (sorted_payers_perm _ Hin)) in Hp.
      simpl. eapply Hd. exact Hp.
Qed.

Lemma print_settlement_known :
  print_settlement lower (Some s) players
  = (["<pre>"%string]
     ++ flat_map (fun key => block players key (sorted_payers lower players s key))
          (sorted_creditors lower players s)
     ++ ["</pre>"%string],
     None).
Proof.
  unfold print_settlement. rewrite sorted_creditors_eq.
  rewrite print_creditors_known.
  - rewrite <- app_assoc. reflexivity.
  - intros key Hkey. apply (Permutation_in _ sorted_creditors_perm). exact Hkey.
Qed.

End Report.

(** X14.  When every creditor and payer of the settlement is a player of the
    ledger, [print_settlement] raises nothing and prints, between [<pre>] and
    [</pre>], one block per creditor: the request with the creditor's name
    and balance, one line per payment with the payer's name and the amount,
    and an empty line. *)
Theorem print_settlement_prints_one_block_per_creditor
  (lower : string -> string) (players : list (string * Z))
  (s : list (nat * list (nat * Z))) :
  known_players players s ->
  print_settlement lower (Some s) players
  = (["<pre>"%string]
     ++ flat_map (fun key => block players key (sorted_payers lower players s key))
          (sorted_creditors lower players s)
     ++ ["</pre>"%string],
     None).
Proof. intros Hknown. exact (@print_settlement_known lower players s Hknown). Qed.

Lemma Sorted_weaken {A : Type} (R R' : A -> A -> Prop) (P : A -> Prop) (l : list A) :
  (forall x y, P x -> P y -> R x y -> R' x y) ->
  Forall P l -> Sorted R l -> Sorted R' l.
Proof.
  intros H HP Hs. induction Hs as [|x l Hs IH Hhd]; [constructor|].
  inversion HP as [|? ? Hx Hl]; subst. constructor; [apply IH; exact Hl|].
  destruct Hhd as [|y l' Hxy]; constructor.
  inversion Hl; subst. apply H; assumption.
Qed.

(** X15.  The report lists every creditor of the settlement once, in the
    order of the lower-cased names, and under a creditor each of its
    payments once, from the largest amount to the smallest. *)
Theorem report_lists_creditors_by_name_and_payers_by_amount
  (lower : string -> string) (players : list (string * Z))
  (s : list (nat * list (nat * Z))) :
  known_players players s ->
  Permutation (sorted_creditors lower players s) (map fst s)
  /\ Sorted (fun i j => String.ltb (lower (name_at players j))
                          (lower (name_at players i)) = false)
       (sorted_creditors lower players s)
  /\ forall key, In key (map fst s) ->
       Permutation (sorted_payers lower players s key) (payments_to key s)
       /\ Sorted (fun p q : nat * Z => snd q <= snd p)
            (sorted_payers lower players s key).
Proof.
  intros Hknown. split; [exact (@sorted_creditors_perm lower players s Hknown)|]. split.
  - destruct (sorted_spec String.ltb (creditor_key lower players) (map fst s)
                string_ltb_asym (@sorted_creditors_eq lower players s Hknown))
      as [Hperm Hs].
    eapply Sorted_weaken with (P := fun k => In k (map fst s)); [| |exact Hs].
    + intros i j Hi Hj HR.
      apply HR; apply (@creditor_key_known lower players s Hknown); assumption.
    + apply Forall_forall. intros k Hk. eapply Permutation_in; eassumption.
  - intros key Hkey. split; [exact (@sorted_payers_perm lower players s Hknown key Hkey)|].
    destruct (sorted_spec tuple_ltb (payer_key lower players) (payments_to key s)
                tuple_ltb_asym (@sorted_payers_eq lower players s Hknown key Hkey))
      as [Hperm Hs].
    eapply Sorted_weaken with (P := fun p => In p (payments_to key s)); [| |exact Hs].
    + intros p q Hp Hq HR.
      specialize (HR _ _ (@payer_key_known lower players s Hknown key p Hkey Hp)
                    (@payer_key_known lower players s Hknown key q Hkey Hq)).
      unfold tuple_ltb in HR. simpl in HR. apply orb_false_iff in HR.
      destruct HR as [HR _]. apply Z.ltb_ge in HR. lia.
    + apply Forall_forall. intros p Hp. eapply Permutation_in; eassumption.
Qed.

Lemma known_playersb_true players s :
  known_playersb players s = true -> known_players players s.
Proof.
  unfold known_playersb, known_players. rewrite forallb_forall.
  intros H key al Hin. specialize (H _ Hin). simpl in H.
  apply andb_true_iff in H. destruct H as [H1 H2]. apply Nat.ltb_lt in H1.
  split; [exact H1|]. intros d a Hd. rewrite forallb_forall in H2.
  specialize (H2 _ Hd). apply Nat.ltb_lt in H2. exact H2.
Qed.

Example print_settlement_prints_one_block_per_creditor_witness :
  let players := [("@dan", -5); ("@Bob", 10); ("@al", 2); ("@eve", -7)]%string in
  let s := [(1%nat, [(0%nat, 3); (3%nat, 7)]); (2%nat, [(0%nat, 2)])] in
  print_settlement ascii_lower (Some s) players
  = (["<pre>"%string]
     ++ flat_map (fun key => block players key (sorted_payers ascii_lower players s key))
          (sorted_creditors ascii_lower players s)
     ++ ["</pre>"%string],
     None).
Proof.
  exact (@print_settlement_prints_one_block_per_creditor ascii_lower
           [("@dan", -5); ("@Bob", 10); ("@al", 2); ("@eve", -7)]%string
           [(1%nat, [(0%nat, 3); (3%nat, 7)]); (2%nat, [(0%nat, 2)])]
           (@known_playersb_true
              [("@dan", -5); ("@Bob", 10); ("@al", 2); ("@eve", -7)]%string
              [(1%nat, [(0%nat, 3); (3%nat, 7)]); (2%nat, [(0%nat, 2)])] eq_refl)).
Defined.

Example report_lists_creditors_by_name_and_payers_by_amount_witness :
  let players := [("@dan", -5); ("@Bob", 10); ("@al", 2); ("@eve", -7)]%string in
  let s := [(1%nat, [(0%nat, 3); (3%nat, 7)]); (2%nat, [(0%nat, 2)])] in
  Permutation (sorted_creditors ascii_lower players s) (map fst s)
  /\ Sorted (fun i j => String.ltb (ascii_lower (name_at players j))
                          (ascii_lower (name_at players i)) = false)
       (sorted_creditors ascii_lower players s)
  /\ forall key, In key (map fst s) ->
       Permutation (sorted_payers ascii_lower players s key) (payments_to key s)
       /\ Sorted (fun p q : nat * Z => snd q <= snd p)
            (sorted_payers ascii_lower players s key).
Proof.
  exact (@report_lists_creditors_by_name_and_payers_by_amount ascii_lower
           [("@dan", -5); ("@Bob", 10); ("@al", 2); ("@eve", -7)]%string
           [(1%nat, [(0%nat, 3); (3%nat, 7)]); (2%nat, [(0%nat, 2)])]
           (@known_playersb_true
              [("@dan", -5); ("@Bob", 10); ("@al", 2); ("@eve", -7)]%string
              [(1%nat, [(0%nat, 3); (3%nat, 7)]); (2%nat, [(0%nat, 2)])] eq_refl)).
Defined.

(** *** The number of lines *)

Lemma length_flat_map_sum {A B : Type} (F : A -> list B) (l : list A) :
  length (flat_map F l) = fold_right (fun a n => (length (F a) + n)%nat) 0%nat l.
Proof.
  induction l as [|a l IH]; simpl; [reflexivity|].
  rewrite length_app, IH. reflexivity.
Qed.

Lemma fold_right_sum_ext {A : Type} (F G : A -> nat) (l : list A) :
  (forall a, In a l -> F a = G a) ->
  fold_right (fun a n => (F a + n)%nat) 0%nat l
  = fold_right (fun a n => (G a + n)%nat) 0%nat l.
Proof.
  induction l as [|a l IH]; intros H; simpl; [reflexivity|].
  rewrite (H a (or_introl eq_refl)), IH; [reflexivity|].
  intros x Hx. apply H. right. exact Hx.
Qed.

Lemma fold_right_sum_perm {A : Type} (F : A -> nat) (l l' : list A) :
  Permutation l l' ->
  fold_right (fun a n => (F a + n)%nat) 0%nat l
  = fold_right (fun a n => (F a + n)%nat) 0%nat l'.
Proof. induction 1; simpl; lia. Qed.

Lemma payments_to_other key al rest k :
  k <> key -> payments_to k ((key, al) :: rest) = payments_to k rest.
Proof.
  intros H. simpl. destruct (Nat.eqb key k) eqn:E; [|reflexivity].
  apply Nat.eqb_eq in E. congruence.
Qed.

Lemma sum_payments_cost (s : list (nat * list (nat * Z))) :
  NoDup (map fst s) ->
  fold_right (fun k n => (2 + length (payments_to k s) + n)%nat) 0%nat (map fst s)
  = (2 * length s + cost_of s)%nat.
Proof.
  induction s as [|[key al] rest IH]; intros Hnd; [reflexivity|].
  inversion Hnd as [|? ? Hkey Hnd']; subst.
  cbn [map fst fold_right length cost_of snd].
  replace (payments_to key ((key, al) :: rest)) with al
    by (simpl; rewrite Nat.eqb_refl; reflexivity).
  rewrite (fold_right_sum_ext
             (fun k => (2 + length (payments_to k ((key, al) :: rest)))%nat)
             (fun k => (2 + length (payments_to k rest))%nat)).
  - rewrite (IH Hnd'). unfold cost_of. lia.
  - intros k Hk. rewrite payments_to_other; [reflexivity|].
    intros ->. contradiction.
Qed.

(** X16.  For a settlement without a repeated creditor, the report has two
    lines around it, two lines per creditor and one line per payment:
    2 + 2 x (number of creditors) + (score of the settlement) lines. *)
Theorem report_has_one_line_per_payment
  (lower : string -> string) (players : list (string * Z))
  (s : list (nat * list (nat * Z))) :
  known_players players s -> NoDup (map fst s) ->
  length (fst (print_settlement lower (Some s) players))
  = (2 + 2 * length s + cost_of s)%nat.
Proof.
  intros Hknown Hnd. rewrite (@print_settlement_known lower players s Hknown).
  cbn [fst]. rewrite !length_app, length_flat_map_sum. cbn [length].
  rewrite (fold_right_sum_ext
             (fun key => length (block players key (sorted_payers lower players s key)))
             (fun key => (2 + length (payments_to key s))%nat)).
  - rewrite (fold_right_sum_perm _ (@sorted_creditors_perm lower players s Hknown)).
    rewrite (@sum_payments_cost s Hnd). lia.
  - intros key Hkey.
    apply (Permutation_in _ (@sorted_creditors_perm lower players s Hknown)) in Hkey.
    unfold block. cbn [length]. rewrite length_app, length_map. cbn [length].
    rewrite (Permutation_length (@sorted_payers_perm lower players s Hknown key Hkey)).
    lia.
Qed.

Example report_has_one_line_per_payment_witness :
  let players := [("@dan", -5); ("@Bob", 10); ("@al", 2); ("@eve", -7)]%string in
  let s := [(1%nat, [(0%nat, 3); (3%nat, 7)]); (2%nat, [(0%nat, 2)])] in
  length (fst (print_settlement ascii_lower (Some s) players))
  = (2 + 2 * length s + cost_of s)%nat.
Proof.
  refine (@report_has_one_line_per_payment ascii_lower
            [("@dan", -5); ("@Bob", 10); ("@al", 2); ("@eve", -7)]%string
            [(1%nat, [(0%nat, 3); (3%nat, 7)]); (2%nat, [(0%nat, 2)])]
            (@known_playersb_true
              [("@dan", -5); ("@Bob", 10); ("@al", 2); ("@eve", -7)]%string
              [(1%nat, [(0%nat, 3); (3%nat, 7)]); (2%nat, [(0%nat, 2)])] eq_refl) _).
  simpl. repeat constructor; simpl; intuition lia.
Defined.

(** X17.  A settlement with a creditor that is not a player of the ledger
    cannot be printed: the keys of all creditors are computed before the
    first block, so [<pre>] is the only line that is printed before the
    IndexError, also when other creditors are known. *)
Theorem unknown_creditor_stops_the_report
  (lower : string -> string) (players : list (string * Z))
  (s : list (nat * list (nat * Z))) (key : nat) :
  In key (map fst s) -> (length players <= key)%nat ->
  print_settlement lower (Some s) players = (["<pre>"%string], Some IndexError).
Proof.
  intros Hin Hkey. unfold print_settlement.
  rewrite (sorted_none String.ltb (creditor_key lower players) (map fst s) key Hin);
    [reflexivity|].
  unfold creditor_key. replace (nth_error players key) with (@None (string * Z));
    [reflexivity|]. symmetry. apply nth_error_None. exact Hkey.
Qed.

Example unknown_creditor_stops_the_report_witness :
  print_settlement ascii_lower
    (Some [(1%nat, [(0%nat, 3)]); (5%nat, [(0%nat, 2)])])
    [("@dan", -5); ("@Bob", 3)]%string
  = (["<pre>"%string], Some IndexError).
Proof.
  refine (@unknown_creditor_stops_the_report ascii_lower
            [("@dan", -5); ("@Bob", 3)]%string
            [(1%nat, [(0%nat, 3)]); (5%nat, [(0%nat, 2)])] 5%nat _ _).
  - simpl. right. left. reflexivity.
  - simpl. lia.
Defined.

(** ** Reading the ledger *)

Lemma add_cashout_names name cashout players x :
  In x (map fst (add_cashout name cashout players))
  <-> x = name \/ In x (map fst players).
Proof.
  induction players as [|[n c] rest IH]; simpl.
  - split; [intros [<-|[]]; left; reflexivity | intros [->|[]]; left; reflexivity].
  - destruct (String.eqb n name) eqn:E; simpl.
    + apply String.eqb_eq in E. subst n. intuition congruence.
    + rewrite IH. intuition congruence.
Qed.

Lemma add_cashout_NoDup name cashout players :
  NoDup (map fst players) -> NoDup (map fst (add_cashout name cashout players)).
Proof.
  induction players as [|[n c] rest IH]; simpl; intros Hnd.
  - constructor; [intros [] | constructor].
  - inversion Hnd as [|? ? Hn Hnd']; subst.
    destruct (String.eqb n name) eqn:E; simpl.
    + constructor; assumption.
    + constructor; [|apply IH; exact Hnd'].
      rewrite add_cashout_names. apply String.eqb_neq in E.
      intros [->|H]; [apply E; reflexivity | contradiction].
Qed.

Lemma add_cashout_total name cashout players x :
  total_of x (add_cashout name cashout players)
  = total_of x players + (if String.eqb name x then cashout else 0).
Proof.
  unfold total_of. induction players as [|[n c] rest IH]; simpl.
  - destruct (String.eqb name x); simpl; lia.
  - destruct (String.eqb n name) eqn:E; simpl.
    + apply String.eqb_eq in E. subst n.
      destruct (String.eqb name x); simpl; lia.
    + destruct (String.eqb n x) eqn:E'; simpl.
      * rewrite IH. lia.
      * exact IH.
Qed.

Lemma add_cashout_sum name cashout players :
  sum_cashouts (map snd (add_cashout name cashout players))
  = sum_cashouts (map snd players) + cashout.
Proof.
  unfold sum_cashouts. induction players as [|[n c] rest IH]; simpl; [lia|].
  destruct (String.eqb n name); simpl; [lia | rewrite IH; lia].
Qed.

Lemma total_of_app x (l1 l2 : list (string * Z)) :
  total_of x (l1 ++ l2) = total_of x l1 + total_of x l2.
Proof. unfold total_of. rewrite filter_app, map_app. apply zsum_app. Qed.

Lemma total_of_nil x : total_of x [] = 0.
Proof. reflexivity. Qed.

Lemma total_of_cons x (e : string * Z) (l : list (string * Z)) :
  total_of x (e :: l) = (if String.eqb (fst e) x then snd e else 0) + total_of x l.
Proof. unfold total_of. simpl. destruct (String.eqb (fst e) x); simpl; lia. Qed.

Lemma fold_add_cashout_NoDup (es : list (string * Z)) acc :
  NoDup (map fst acc) ->
  NoDup (map fst (fold_left (fun a e => add_cashout (fst e) (snd e) a) es acc)).
Proof.
  revert acc. induction es as [|e es IH]; intros acc H; simpl; [exact H|].
  apply IH, add_cashout_NoDup, H.
Qed.

Lemma fold_add_cashout_names (es : list (string * Z)) acc x :
  In x (map fst (fold_left (fun a e => add_cashout (fst e) (snd e) a) es acc))
  <-> In x (map fst acc) \/ In x (map fst es).
Proof.
  revert acc. induction es as [|e es IH]; intros acc; simpl; [tauto|].
  rewrite IH, add_cashout_names. intuition congruence.
Qed.

Lemma fold_add_cashout_total (es : list (string * Z)) acc x :
  total_of x (fold_left (fun a e => add_cashout (fst e) (snd e) a) es acc)
  = total_of x acc + total_of x es.
Proof.
  revert acc. induction es as [|e es IH]; intros acc; simpl.
  - rewrite total_of_nil. lia.
  - rewrite IH, add_cashout_total, total_of_cons. lia.
Qed.

Lemma fold_add_cashout_sum (es : list (string * Z)) acc :
  sum_cashouts (map snd (fold_left (fun a e => add_cashout (fst e) (snd e) a) es acc))
  = sum_cashouts (map snd acc) + zsum (map snd es).
Proof.
  revert acc. induction es as [|e es IH]; intros acc; simpl; [lia|].
  rewrite IH, add_cashout_sum. lia.
Qed.

Section ReadRows.

Variable py_int : string -> option Z.
Variable headers : list string.

(** The loop folds [players[name] += cashout] over the pairs of the rows. *)
Lemma read_rows_fold rows acc players :
  read_rows py_int headers rows acc = Done players ->
  players = fold_left (fun a e => add_cashout (fst e) (snd e) a)
              (entries py_int headers rows) acc.
Proof.
  unfold entries. revert acc.
  induction rows as [|row rows IH]; intros acc; simpl.
  - intros H. inversion H. reflexivity.
  - unfold entry_of.
    destruct (zip_lookup "Balance" headers row) as [b|]; [|discriminate].
    destruct (py_int (remove_dots b)) as [c|]; [|apply IH].
    destruct (zip_lookup "Venmo" headers row) as [v|]; [|discriminate].
    simpl. apply IH.
Qed.

Lemma read_rows_skip before row after acc b :
  zip_lookup "Balance" headers row = Some b -> py_int (remove_dots b) = None ->
  read_rows py_int headers (before ++ row :: after) acc
  = read_rows py_int headers (before ++ after) acc.
Proof.
  intros Hb Hint. revert acc. induction before as [|r before IH]; intros acc; simpl.
  - rewrite Hb, Hint. reflexivity.
  - destruct (zip_lookup "Balance" headers r) as [b'|]; [|reflexivity].
    destruct (py_int (remove_dots b')) as [c|]; [|apply IH].
    destruct (zip_lookup "Venmo" headers r) as [v|]; [|reflexivity].
    apply IH.
Qed.

End ReadRows.

Lemma total_of_unique name c (players : list (string * Z)) :
  NoDup (map fst players) -> In (name, c) players -> total_of name players = c.
Proof.
  unfold total_of. induction players as [|[n c'] rest IH]; simpl; intros Hnd Hin;
    [destruct Hin|].
  inversion Hnd as [|? ? Hn Hnd']; subst. destruct Hin as [E|Hin].
  - inversion E; subst. rewrite String.eqb_refl. simpl.
    replace (filter (fun e : string * Z => String.eqb (fst e) name) rest) with
      (@nil (string * Z)); [simpl; lia|].
    symmetry. apply filter_none. intros [n' c''] Hin'. simpl.
    apply String.eqb_neq. intros ->. apply Hn. apply in_map_iff.
    exists (name, c''). auto.
  - destruct (String.eqb n name) eqn:E.
    + apply String.eqb_eq in E. subst n. exfalso. apply Hn. apply in_map_iff.
      exists (name, c). auto.
    + apply IH; assumption.
Qed.

(** X18.  The ledger [read_cashouts] returns has one entry per player: no
    name appears twice, and the names are exactly those of the rows that are
    kept. *)
Theorem read_cashouts_lists_each_player_once
  (py_int : string -> option Z) (headers : list string)
  (rows : list (list string)) (players : list (string * Z)) :
  read_cashouts py_int (headers :: rows) = Done players ->
  NoDup (map fst players)
  /\ forall name, In name (map fst players)
                  <-> In name (map fst (entries py_int headers rows)).
Proof.
  unfold read_cashouts. intros H. apply read_rows_fold in H. subst players. split.
  - apply fold_add_cashout_NoDup. constructor.
  - intros name. rewrite fold_add_cashout_names. simpl. tauto.
Qed.

(** X19.  The balance of a player is the sum of the cashouts of all its
    rows, and so the ledger sums to what the kept rows sum to. *)
Theorem read_cashouts_adds_up_the_rows_of_a_player
  (py_int : string -> option Z) (headers : list string)
  (rows : list (list string)) (players : list (string * Z)) :
  read_cashouts py_int (headers :: rows) = Done players ->
  (forall name cashout, In (name, cashout) players ->
     cashout = total_of name (entries py_int headers rows))
  /\ sum_cashouts (map snd players) = zsum (map snd (entries py_int headers rows)).
Proof.
  unfold read_cashouts. intros H. apply read_rows_fold in H. split.
  - intros name cashout Hin.
    assert (Hnd : NoDup (map fst players))
      by (subst players; apply fold_add_cashout_NoDup; constructor).
    rewrite <- (@total_of_unique name cashout players Hnd Hin). subst players.
    rewrite fold_add_cashout_total, total_of_nil. lia.
  - subst players. rewrite fold_add_cashout_sum. simpl. lia.
Qed.

(** X20.  A row whose balance is not an integer once its dots are removed is
    skipped: the file reads as it does without that row, also when the row
    has no Venmo cell. *)
Theorem read_cashouts_skips_rows_without_a_number
  (py_int : string -> option Z) (headers : list string)
  (before after : list (list string)) (row : list string) (balance : string) :
  zip_lookup "Balance" headers row = Some balance ->
  py_int (remove_dots balance) = None ->
  read_cashouts py_int (headers :: before ++ row :: after)
  = read_cashouts py_int (headers :: before ++ after).
Proof.
  intros Hb Hint. unfold read_cashouts. eapply read_rows_skip; eassumption.
Qed.

Lemma zip_lookup_absent key headers row :
  ~ In key headers -> zip_lookup key headers row = None.
Proof.
  revert row. induction headers as [|h headers IH]; intros row H; simpl;
    [reflexivity|].
  destruct row as [|v row]; [reflexivity|].
  rewrite IH by (intros Hin; apply H; right; exact Hin).
  replace (String.eqb h key) with false; [reflexivity|].
  symmetry. apply String.eqb_neq. intros ->. apply H. left. reflexivity.
Qed.

(** X21.  The columns are looked up row by row, never on the header row: a
    file with a header row only is read as the empty ledger whatever its
    columns are, and without a Balance column the first data row raises
    KeyError. *)
Theorem read_cashouts_needs_the_columns_per_row
  (py_int : string -> option Z) (headers : list string) :
  read_cashouts py_int [headers] = Done []
  /\ forall (row : list string) (rows : list (list string)),
       ~ In "Balance"%string headers ->
       read_cashouts py_int (headers :: row :: rows) = Failed (KeyError "Balance").
Proof.
  split; [reflexivity|]. intros row rows H. simpl.
  rewrite (@zip_lookup_absent "Balance" headers row H). reflexivity.
Qed.

Example read_cashouts_lists_each_player_once_witness :
  let headers := ["Venmo"; "Balance"]%string in
  let rows := [["@a"; "12.50"]; ["@b"; "-12.50"]; ["@a"; "x"]; ["@a"; "1"]]%string in
  NoDup (map fst [("@a"%string, 1251); ("@b"%string, -1250)])
  /\ forall name, In name (map fst [("@a"%string, 1251); ("@b"%string, -1250)])
                  <-> In name (map fst (entries dec_int headers rows)).
Proof.
  exact (@read_cashouts_lists_each_player_once dec_int
           ["Venmo"; "Balance"]%string
           [["@a"; "12.50"]; ["@b"; "-12.50"]; ["@a"; "x"]; ["@a"; "1"]]%string
           [("@a"%string, 1251); ("@b"%string, -1250)]
           ltac:(vm_compute; reflexivity)).
Defined.

Example read_cashouts_adds_up_the_rows_of_a_player_witness :
  let headers := ["Venmo"; "Balance"]%string in
  let rows := [["@a"; "12.50"]; ["@b"; "-12.50"]; ["@a"; "x"]; ["@a"; "1"]]%string in
  (forall name cashout,
     In (name, cashout) [("@a"%string, 1251); ("@b"%string, -1250)] ->
     cashout = total_of name (entries dec_int headers rows))
  /\ sum_cashouts (map snd [("@a"%string, 1251); ("@b"%string, -1250)])
     = zsum (map snd (entries dec_int headers rows)).
Proof.
  exact (@read_cashouts_adds_up_the_rows_of_a_player dec_int
           ["Venmo"; "Balance"]%string
           [["@a"; "12.50"]; ["@b"; "-12.50"]; ["@a"; "x"]; ["@a"; "1"]]%string
           [("@a"%string, 1251); ("@b"%string, -1250)]
           ltac:(vm_compute; reflexivity)).
Defined.

Example read_cashouts_skips_rows_without_a_number_witness :
  read_cashouts dec_int
    (["Balance"%string; "Venmo"%string]
     :: [["12.50"%string; "@a"%string]]
        ++ ["n/a"%string] :: [["-12.50"%string; "@b"%string]])
  = read_cashouts dec_int
      (["Balance"%string; "Venmo"%string]
       :: [["12.50"%string; "@a"%string]] ++ [["-12.50"%string; "@b"%string]]).
Proof.
  exact (@read_cashouts_skips_rows_without_a_number dec_int
           ["Balance"%string; "Venmo"%string] [["12.50"%string; "@a"%string]]
           [["-12.50"%string; "@b"%string]] ["n/a"%string] "n/a"%string
           ltac:(vm_compute; reflexivity) ltac:(vm_compute; reflexivity)).
Defined.

(** ** From the file to the report *)

Lemma balance_at_cashout (players : list (string * Z)) (i : nat) :
  balance_at players i = cashout_at (map snd players) i.
Proof.
  unfold balance_at, cashout_at. revert i.
  induction players as [|[name c] players IH]; intros [|i]; simpl;
    try reflexivity. apply IH.
Qed.

Lemma debtor_to_creditor_known (players : list (string * Z))
  (s : list (nat * list (nat * Z))) :
  is_mapping s -> debtor_to_creditor (map snd players) s -> known_players players s.
Proof.
  intros [_ Hne] H key al Hin. rewrite <- (length_map snd players). split.
  - rewrite Forall_forall in Hne. specialize (Hne _ Hin). simpl in Hne.
    destruct al as [|[d a] al']; [contradiction|].
    destruct (H key _ d a Hin (or_introl eq_refl)) as [Hk _]. exact Hk.
  - intros d a Hd. destruct (H key al d a Hin Hd) as (_ & Hd' & _). exact Hd'.
Qed.

Lemma sum_amounts_perm (l l' : list (nat * Z)) :
  Permutation l l' -> sum_amounts l = sum_amounts l'.
Proof. unfold sum_amounts. induction 1; simpl; lia. Qed.

Section Composition.

Variable rng : Type.
Variable randint : Z -> Z -> rng -> Z * rng.
Variable or_solve : SimpleMinCostFlow -> Status * list Z.
Variable nx_solve : DiGraph -> nat -> nat -> list Z.

(** What either trial guarantees of the settlement it returns on a closed
    ledger. *)
Lemma trial_settlement_is_printable cashouts t g s :
  or_sound or_solve -> nx_max_flow nx_solve -> balanced cashouts ->
  fst (find_settlement_or randint or_solve cashouts t g) = Returned s
  \/ fst (find_settlement_nx randint nx_solve cashouts t g) = Returned s ->
  is_mapping s /\ debtor_to_creditor cashouts s /\ settles cashouts s.
Proof.
  intros Hor Hnx Hbal [H|H].
  - destruct (find_settlement_or randint or_solve cashouts t g) as [r g'] eqn:E.
    simpl in H. subst r. split; [|split].
    + destruct (find_settlement_or_returned _ _ _ _ _ E) as [flows [_ [-> _]]].
      apply or_extract_mapping, nil_mapping.
    + eapply find_settlement_or_debtor_to_creditor. exact E.
    + eapply find_settlement_or_settles; eassumption.
  - destruct (find_settlement_nx randint nx_solve cashouts t g) as [r g'] eqn:E.
    simpl in H. subst r. split; [|split].
    + pose proof (find_settlement_nx_returned _ _ _ _ _ E) as Hr. simpl in Hr.
      destruct Hr as (_ & _ & -> & _). apply nx_extract_mapping, nil_mapping.
    + eapply find_settlement_nx_debtor_to_creditor. exact E.
    + eapply find_settlement_nx_settles; eassumption.
Qed.

Lemma searched_settlement_is_printable cashouts num_trials (env : PoolEnv rng) s :
  or_sound or_solve -> nx_max_flow nx_solve -> balanced cashouts ->
  find_best_settlement (find_settlement_or randint or_solve) cashouts num_trials env
  = Returned (Some s)
  \/ find_best_settlement (find_settlement_nx randint nx_solve) cashouts num_trials env
     = Returned (Some s) ->
  is_mapping s /\ debtor_to_creditor cashouts s /\ settles cashouts s.
Proof.
  intros Hor Hnx Hbal [H|H]; apply find_best_settlement_origin in H;
    destruct H as [t [g [g' H]]];
    apply (@trial_settlement_is_printable cashouts t g s Hor Hnx Hbal);
    [left | right]; rewrite H; reflexivity.
Qed.

End Composition.

Lemma printable_blocks (lower : string -> string) (players : list (string * Z))
  (s : list (nat * list (nat * Z))) :
  is_mapping s -> debtor_to_creditor (map snd players) s ->
  settles (map snd players) s ->
  known_players players s /\
  forall key, In key (sorted_creditors lower players s) ->
    0 < balance_at players key /\
    sum_amounts (sorted_payers lower players s key) = balance_at players key.
Proof.
  intros Hmap Hd2c Hsettles.
  pose proof (debtor_to_creditor_known players Hmap Hd2c) as Hknown.
  split; [exact Hknown|]. intros key Hkey.
  apply (Permutation_in _ (@sorted_creditors_perm lower players s Hknown)) in Hkey.
  pose proof (payments_to_In _ _ Hkey) as Hentry.
  assert (Hpos : 0 < balance_at players key).
  { destruct Hmap as [_ Hne]. rewrite Forall_forall in Hne.
    specialize (Hne _ Hentry). simpl in Hne.
    destruct (payments_to key s) as [|[d a] al] eqn:E; [contradiction|].
    destruct (Hd2c key _ d a Hentry (or_introl eq_refl)) as (_ & _ & Hc & _).
    rewrite balance_at_cashout. exact Hc. }
  split; [exact Hpos|].
  rewrite (sum_amounts_perm (@sorted_payers_perm lower players s Hknown key Hkey)).
  destruct (Hsettles key) as [Hrec _]. unfold received in Hrec. rewrite Hrec.
  rewrite balance_at_cashout in *. lia.
Qed.

(** X22.  Printing what the search returned for a closed ledger raises
    nothing, and in every block the amount the creditor requests is positive
    and is the sum of the amounts on the lines of its payers. *)
Theorem report_requests_the_sum_of_its_payments
  (rng : Type) (randint : Z -> Z -> rng -> Z * rng)
  (or_solve : SimpleMinCostFlow -> Status * list Z)
  (nx_solve : DiGraph -> nat -> nat -> list Z)
  (Hor : or_sound or_solve) (Hnx : nx_max_flow nx_solve)
  (lower : string -> string) (players : list (string * Z))
  (Hbal : balanced (map snd players))
  (num_trials : nat) (env : PoolEnv rng) (s : list (nat * list (nat * Z))) :
  find_best_settlement (find_settlement_or randint or_solve) (map snd players)
    num_trials env = Returned (Some s)
  \/ find_best_settlement (find_settlement_nx randint nx_solve) (map snd players)
       num_trials env = Returned (Some s) ->
  snd (print_settlement lower (Some s) players) = None
  /\ forall key, In key (sorted_creditors lower players s) ->
       0 < balance_at players key /\
       sum_amounts (sorted_payers lower players s key) = balance_at players key.
Proof.
  intros H.
  destruct (@searched_settlement_is_printable rng randint or_solve nx_solve
              (map snd players) num_trials env s Hor Hnx Hbal H)
    as (Hmap & Hd2c & Hsettles).
  destruct (@printable_blocks lower players s Hmap Hd2c Hsettles) as [Hknown Hblocks].
  split; [|exact Hblocks].
  rewrite (@print_settlement_known lower players s Hknown). reflexivity.
Qed.

Example report_requests_the_sum_of_its_payments_witness :
  let players := [("@dan", -5); ("@Bob", 3); ("@al", 2)]%string in
  let s := [(1%nat, [(0%nat, 3)]); (2%nat, [(0%nat, 2)])] in
  snd (print_settlement ascii_lower (Some s) players) = None
  /\ forall key, In key (sorted_creditors ascii_lower players s) ->
       0 < balance_at players key /\
       sum_amounts (sorted_payers ascii_lower players s key) = balance_at players key.
Proof.
  refine (@report_requests_the_sum_of_its_payments (list Z) tape_randint
            brute_or_solve brute_nx_solve brute_or_sound brute_nx_max_flow
            ascii_lower [("@dan", -5); ("@Bob", 3); ("@al", 2)]%string eq_refl
            1%nat (serial_env 1 [7; 4])
            [(1%nat, [(0%nat, 3)]); (2%nat, [(0%nat, 2)])] _).
  left. vm_compute. reflexivity.
Defined.

(** *** [main] *)

Section MainRuns.

Variable rng : Type.
Variable randint : Z -> Z -> rng -> Z * rng.
Variable or_solve : SimpleMinCostFlow -> Status * list Z.
Variable nx_solve : DiGraph -> nat -> nat -> list Z.
Variable py_int : string -> option Z.
Variable lower : string -> string.
Variable open_csv : string -> option (list (list string)).

(** [main] up to the search, when the arguments and the file are read. *)
Lemma main_searches (has_ortools : bool) argv filename n lines players
  (env : PoolEnv rng) :
  nth_error argv 1 = Some filename -> trials_of py_int argv = Done n ->
  open_csv filename = Some lines -> read_cashouts py_int lines = Done players ->
  main randint or_solve nx_solve py_int lower open_csv has_ortools argv env
  = match find_best_settlement
            (if has_ortools then find_settlement_or randint or_solve
             else find_settlement_nx randint nx_solve)
            (map snd players) (Z.to_nat n) env with
    | Raised e => ([], Some (Exn e))
    | Returned settlement => print_settlement lower settlement players
    end.
Proof.
  intros Hargv Hn Hopen Hread. unfold main.
  rewrite Hargv, Hn, Hopen, Hread. reflexivity.
Qed.

Lemma or_search_settles cashouts num_trials (env : PoolEnv rng) :
  or_complete or_solve -> balanced cashouts ->
  (1 <= num_trials)%nat -> (1 <= cpu_count env)%nat ->
  valid_schedule env (task_count num_trials (cpu_count env)) ->
  exists s,
    find_best_settlement (find_settlement_or randint or_solve) cashouts num_trials env
    = Returned (Some s).
Proof.
  intros Hcomplete Hbal Hn Hc Hvalid.
  apply find_best_settlement_returns; try assumption.
  - intros t g. apply find_settlement_or_returns; assumption.
  - intros t g s g' H. eapply find_settlement_or_cost. exact H.
Qed.

Lemma or_search_raises cashouts num_trials (env : PoolEnv rng) :
  or_sound or_solve -> ~ balanced cashouts ->
  (1 <= num_trials)%nat -> (1 <= cpu_count env)%nat ->
  valid_schedule env (task_count num_trials (cpu_count env)) ->
  exists status,
    find_best_settlement (find_settlement_or randint or_solve) cashouts num_trials env
    = Raised (AssertionError status) /\ status <> OPTIMAL.
Proof.
  intros Hsound Hunb Hn Hc Hvalid. unfold find_best_settlement.
  pose proof (chunk_size_pos Hn Hc) as Hchunk.
  rewrite imap_unordered_pool_tasks by exact Hchunk.
  set (tasks := pool_tasks num_trials (chunk_size num_trials (cpu_count env))).
  rewrite task_count_pool_tasks in Hvalid. fold tasks in Hvalid.
  pose proof (pool_tasks_exist Hn Hchunk) as Hex. fold tasks in Hex.
  destruct (valid_schedule_nonempty Hvalid Hex) as [w [k [rest Hsched]]].
  assert (Hk : (k < length tasks)%nat)
    by (eapply valid_schedule_tasks; [exact Hvalid | rewrite Hsched; left; reflexivity]).
  rewrite Hsched. simpl.
  destruct (@mapstar_raises rng (find_settlement_or randint or_solve cashouts)
              (fun e => exists status, e = AssertionError status /\ status <> OPTIMAL)
              (nth k tasks []) (worker_rng env w))
    as [e [g' [E [status [-> Hst]]]]].
  - intros i g0. apply find_settlement_or_raises; assumption.
  - apply nth_nonempty; [apply pool_tasks_nonempty | exact Hk].
  - rewrite E. simpl. exists status. split; [reflexivity | exact Hst].
Qed.

End MainRuns.

(** X23.  With OR-tools installed and a solver that is sound and answers
    OPTIMAL whenever a feasible flow exists, on a file that holds a closed
    ledger and for at least one trial, [main] raises nothing and prints the
    report of a settlement that zeroes every balance of the ledger it read. *)
Theorem main_prints_the_report_of_a_settlement
  (rng : Type) (randint : Z -> Z -> rng -> Z * rng)
  (or_solve : SimpleMinCostFlow -> Status * list Z)
  (nx_solve : DiGraph -> nat -> nat -> list Z)
  (py_int : string -> option Z) (lower : string -> string)
  (open_csv : string -> option (list (list string)))
  (Hsound : or_sound or_solve) (Hcomplete : or_complete or_solve)
  (argv : list string) (filename : string) (n : Z)
  (lines : list (list string)) (players : list (string * Z)) (env : PoolEnv rng) :
  nth_error argv 1 = Some filename -> trials_of py_int argv = Done n ->
  open_csv filename = Some lines -> read_cashouts py_int lines = Done players ->
  balanced (map snd players) -> 1 <= n -> (1 <= cpu_count env)%nat ->
  valid_schedule env (task_count (Z.to_nat n) (cpu_count env)) ->
  exists s,
    settles (map snd players) s
    /\ main randint or_solve nx_solve py_int lower open_csv true argv env
       = (["<pre>"%string]
          ++ flat_map (fun key => block players key (sorted_payers lower players s key))
               (sorted_creditors lower players s)
          ++ ["</pre>"%string],
          None).
Proof.
  intros Hargv Hn Hopen Hread Hbal Hpos Hc Hvalid.
  rewrite (@main_searches rng randint or_solve nx_solve py_int lower open_csv true
             argv filename n lines players env Hargv Hn Hopen Hread).
  destruct (@or_search_settles rng randint or_solve (map snd players) (Z.to_nat n) env
              Hcomplete Hbal ltac:(lia) Hc Hvalid) as [s Hs].
  rewrite Hs. exists s.
  apply find_best_settlement_origin in Hs. destruct Hs as [t [g [g' Hs]]].
  assert (Hsettles : settles (map snd players) s)
    by (eapply find_settlement_or_settles; eassumption).
  split; [exact Hsettles|].
  apply print_settlement_known.
  apply debtor_to_creditor_known.
  - destruct (find_settlement_or_returned _ _ _ _ _ Hs) as [flows [_ [-> _]]].
    apply or_extract_mapping, nil_mapping.
  - eapply find_settlement_or_debtor_to_creditor. exact Hs.
Qed.

(** X24.  With OR-tools installed, on a file whose ledger does not sum to
    zero, [main] prints nothing, not even [<pre>]: the failed assertion of
    the first trial to complete ends the program. *)
Theorem main_prints_nothing_for_an_open_ledger
  (rng : Type) (randint : Z -> Z -> rng -> Z * rng)
  (or_solve : SimpleMinCostFlow -> Status * list Z)
  (nx_solve : DiGraph -> nat -> nat -> list Z)
  (py_int : string -> option Z) (lower : string -> string)
  (open_csv : string -> option (list (list string)))
  (Hsound : or_sound or_solve)
  (argv : list string) (filename : string) (n : Z)
  (lines : list (list string)) (players : list (string * Z)) (env : PoolEnv rng) :
  nth_error argv 1 = Some filename -> trials_of py_int argv = Done n ->
  open_csv filename = Some lines -> read_cashouts py_int lines = Done players ->
  ~ balanced (map snd players) -> 1 <= n -> (1 <= cpu_count env)%nat ->
  valid_schedule env (task_count (Z.to_nat n) (cpu_count env)) ->
  exists status,
    main randint or_solve nx_solve py_int lower open_csv true argv env
    = ([], Some (Exn (AssertionError status)))
    /\ status <> OPTIMAL.
Proof.
  intros Hargv Hn Hopen Hread Hunb Hpos Hc Hvalid.
  rewrite (@main_searches rng randint or_solve nx_solve py_int lower open_csv true
             argv filename n lines players env Hargv Hn Hopen Hread).
  destruct (@or_search_raises rng randint or_solve (map snd players) (Z.to_nat n) env
              Hsound Hunb ltac:(lia) Hc Hvalid) as [status [Hs Hst]].
  rewrite Hs. exists status. split; [reflexivity | exact Hst].
Qed.

Example main_prints_the_report_of_a_settlement_witness :
  let players := [("@dan", -500); ("@Bob", 300); ("@al", 200)]%string in
  exists s,
    settles (map snd players) s
    /\ main tape_randint brute_or_solve brute_nx_solve dec_int ascii_lower
         (fun _ => Some [["Venmo"; "Balance"]; ["@dan"; "-5.00"]; ["@Bob"; "3.00"];
                         ["@al"; "2.00"]]%string)
         true ["settle_balances.py"; "ledger.csv"; "2"]%string (serial_env 1 [7; 4])
       = (["<pre>"%string]
          ++ flat_map
               (fun key => block players key (sorted_payers ascii_lower players s key))
               (sorted_creditors ascii_lower players s)
          ++ ["</pre>"%string],
          None).
Proof.
  refine (@main_prints_the_report_of_a_settlement (list Z) tape_randint
            brute_or_solve brute_nx_solve dec_int ascii_lower
            (fun _ => Some [["Venmo"; "Balance"]; ["@dan"; "-5.00"]; ["@Bob"; "3.00"];
                            ["@al"; "2.00"]]%string)
            brute_or_sound brute_or_complete
            ["settle_balances.py"; "ledger.csv"; "2"]%string "ledger.csv"%string 2
            [["Venmo"; "Balance"]; ["@dan"; "-5.00"]; ["@Bob"; "3.00"];
             ["@al"; "2.00"]]%string
            [("@dan", -500); ("@Bob", 300); ("@al", 200)]%string
            (serial_env 1 [7; 4]) _ _ _ _ _ _ _ _).
  - reflexivity.
  - vm_compute. reflexivity.
  - reflexivity.
  - vm_compute. reflexivity.
  - vm_compute. reflexivity.
  - lia.
  - simpl. lia.
  - split; [|repeat constructor]. vm_compute. apply Permutation_refl.
Defined.

Example main_prints_nothing_for_an_open_ledger_witness :
  exists status,
    main tape_randint brute_or_solve brute_nx_solve dec_int ascii_lower
      (fun _ => Some [["Venmo"; "Balance"]; ["@dan"; "-1.00"]; ["@Bob"; "0.50"]]%string)
      true ["settle_balances.py"; "ledger.csv"; "2"]%string (serial_env 1 [7])
    = ([], Some (Exn (AssertionError status)))
    /\ status <> OPTIMAL.
Proof.
  refine (@main_prints_nothing_for_an_open_ledger (list Z) tape_randint
            brute_or_solve brute_nx_solve dec_int ascii_lower
            (fun _ => Some [["Venmo"; "Balance"]; ["@dan"; "-1.00"];
                            ["@Bob"; "0.50"]]%string)
            brute_or_sound
            ["settle_balances.py"; "ledger.csv"; "2"]%string "ledger.csv"%string 2
            [["Venmo"; "Balance"]; ["@dan"; "-1.00"]; ["@Bob"; "0.50"]]%string
            [("@dan", -100); ("@Bob", 50)]%string
            (serial_env 1 [7]) _ _ _ _ _ _ _ _).
  - reflexivity.
  - vm_compute. reflexivity.
  - reflexivity.
  - vm_compute. reflexivity.
  - vm_compute. discriminate.
  - lia.
  - simpl. lia.
  - split; [|repeat constructor]. vm_compute. apply Permutation_refl.
Defined.

(** *** Without OR-tools *)

Section Fallback.

Variable rng : Type.
Variable randint : Z -> Z -> rng -> Z * rng.
Variable nx_solve : DiGraph -> nat -> nat -> list Z.

Lemma nx_search_settles cashouts num_trials (env : PoolEnv rng) :
  balanced cashouts -> Exists (fun c => c <> 0) cashouts ->
  (1 <= num_trials)%nat -> (1 <= cpu_count env)%nat ->
  valid_schedule env (task_count num_trials (cpu_count env)) ->
  exists s,
    find_best_settlement (find_settlement_nx randint nx_solve) cashouts num_trials env
    = Returned (Some s).
Proof.
  intros Hbal Hnz Hn Hc Hvalid.
  apply find_best_settlement_returns; try assumption.
  - intros t g. apply find_settlement_nx_returns; assumption.
  - intros t g s g' H. apply find_settlement_nx_pairs in H. destruct H as [_ H].
    destruct (pairs_length cashouts) as [_ E]. rewrite E in H.
    pose proof (select_length_le is_creditor cashouts).
    pose proof (select_length_le is_debtor cashouts). nia.
Qed.

(** When every trial raises, the search raises what the first task to
    complete raised. *)
Lemma search_raises (Q : exn -> Prop)
  (finder : list Z -> nat -> rng -> outcome (list (nat * list (nat * Z))) * rng)
  cashouts num_trials (env : PoolEnv rng) :
  (forall t g, exists e g', finder cashouts t g = (Raised e, g') /\ Q e) ->
  (1 <= num_trials)%nat -> (1 <= cpu_count env)%nat ->
  valid_schedule env (task_count num_trials (cpu_count env)) ->
  exists e, find_best_settlement finder cashouts num_trials env = Raised e /\ Q e.
Proof.
  intros Hraise Hn Hc Hvalid. unfold find_best_settlement.
  pose proof (chunk_size_pos Hn Hc) as Hchunk.
  rewrite imap_unordered_pool_tasks by exact Hchunk.
  set (tasks := pool_tasks num_trials (chunk_size num_trials (cpu_count env))).
  rewrite task_count_pool_tasks in Hvalid. fold tasks in Hvalid.
  pose proof (pool_tasks_exist Hn Hchunk) as Hex. fold tasks in Hex.
  destruct (valid_schedule_nonempty Hvalid Hex) as [w [k [rest Hsched]]].
  assert (Hk : (k < length tasks)%nat)
    by (eapply valid_schedule_tasks; [exact Hvalid | rewrite Hsched; left; reflexivity]).
  rewrite Hsched. simpl.
  destruct (@mapstar_raises rng (finder cashouts) Q (nth k tasks []) (worker_rng env w))
    as [e [g' [E HQ]]].
  - exact Hraise.
  - apply nth_nonempty; [apply pool_tasks_nonempty | exact Hk].
  - rewrite E. simpl. exists e. split; [reflexivity | exact HQ].
Qed.

End Fallback.

(** X29.  Without OR-tools, on a file that holds a closed ledger with at
    least one non-zero balance and for at least one trial, [main] raises
    nothing and prints the report of a settlement that zeroes every balance
    of the ledger it read. *)
Theorem main_without_ortools_prints_the_report_of_a_settlement
  (rng : Type) (randint : Z -> Z -> rng -> Z * rng)
  (or_solve : SimpleMinCostFlow -> Status * list Z)
  (nx_solve : DiGraph -> nat -> nat -> list Z)
  (py_int : string -> option Z) (lower : string -> string)
  (open_csv : string -> option (list (list string)))
  (Hnx : nx_max_flow nx_solve)
  (argv : list string) (filename : string) (n : Z)
  (lines : list (list string)) (players : list (string * Z)) (env : PoolEnv rng) :
  nth_error argv 1 = Some filename -> trials_of py_int argv = Done n ->
  open_csv filename = Some lines -> read_cashouts py_int lines = Done players ->
  balanced (map snd players) -> Exists (fun c => c <> 0) (map snd players) ->
  1 <= n -> (1 <= cpu_count env)%nat ->
  valid_schedule env (task_count (Z.to_nat n) (cpu_count env)) ->
  exists s,
    settles (map snd players) s
    /\ main randint or_solve nx_solve py_int lower open_csv false argv env
       = (["<pre>"%string]
          ++ flat_map (fun key => block players key (sorted_payers lower players s key))
               (sorted_creditors lower players s)
          ++ ["</pre>"%string],
          None).
Proof.
  intros Hargv Hn Hopen Hread Hbal Hnz Hpos Hc Hvalid.
  rewrite (@main_searches rng randint or_solve nx_solve py_int lower open_csv false
             argv filename n lines players env Hargv Hn Hopen Hread).
  destruct (@nx_search_settles rng randint nx_solve (map snd players) (Z.to_nat n) env
              Hbal Hnz ltac:(lia) Hc Hvalid) as [s Hs].
  rewrite Hs. exists s.
  apply find_best_settlement_origin in Hs. destruct Hs as [t [g [g' Hs]]].
  assert (Hsettles : settles (map snd players) s)
    by (eapply find_settlement_nx_settles; eassumption).
  split; [exact Hsettles|].
  apply print_settlement_known.
  apply debtor_to_creditor_known.
  - pose proof (find_settlement_nx_returned _ _ _ _ _ Hs) as Hr. simpl in Hr.
    destruct Hr as (_ & _ & -> & _). apply nx_extract_mapping, nil_mapping.
  - eapply find_settlement_nx_debtor_to_creditor. exact Hs.
Qed.

Example main_without_ortools_prints_the_report_of_a_settlement_witness :
  let players := [("@dan", -500); ("@Bob", 300); ("@al", 200)]%string in
  exists s,
    settles (map snd players) s
    /\ main tape_randint brute_or_solve brute_nx_solve dec_int ascii_lower
         (fun _ => Some [["Venmo"; "Balance"]; ["@dan"; "-5.00"]; ["@Bob"; "3.00"];
                         ["@al"; "2.00"]]%string)
         false ["settle_balances.py"; "ledger.csv"; "2"]%string (serial_env 1 [7; 4])
       = (["<pre>"%string]
          ++ flat_map
               (fun key => block players key (sorted_payers ascii_lower players s key))
               (sorted_creditors ascii_lower players s)
          ++ ["</pre>"%string],
          None).
Proof.
  refine (@main_without_ortools_prints_the_report_of_a_settlement (list Z)
            tape_randint brute_or_solve brute_nx_solve dec_int ascii_lower
            (fun _ => Some [["Venmo"; "Balance"]; ["@dan"; "-5.00"]; ["@Bob"; "3.00"];
                            ["@al"; "2.00"]]%string)
            brute_nx_max_flow
            ["settle_balances.py"; "ledger.csv"; "2"]%string "ledger.csv"%string 2
            [["Venmo"; "Balance"]; ["@dan"; "-5.00"]; ["@Bob"; "3.00"];
             ["@al"; "2.00"]]%string
            [("@dan", -500); ("@Bob", 300); ("@al", 200)]%string
            (serial_env 1 [7; 4]) _ _ _ _ _ _ _ _ _).
  - reflexivity.
  - vm_compute. reflexivity.
  - reflexivity.
  - vm_compute. reflexivity.
  - vm_compute. reflexivity.
  - apply Exists_cons_hd. simpl. lia.
  - lia.
  - simpl. lia.
  - split; [|repeat constructor]. vm_compute. apply Permutation_refl.
Defined.

Lemma or_trial_without_players (rng : Type) (randint : Z -> Z -> rng -> Z * rng)
  or_solve t g s g' :
  find_settlement_or randint or_solve [] t g = (Returned s, g') -> s = [].
Proof.
  intros H. apply find_settlement_or_returned in H.
  destruct H as [flows [_ [-> _]]]. rewrite or_build_eq. reflexivity.
Qed.

(** X30.  On a file that holds no usable row (a header row only, or rows
    that are all skipped), what [main] does depends on whether OR-tools is
    installed: with OR-tools it prints an empty report, [<pre>] and
    [</pre>]; without, it prints nothing and ends with the NetworkXError of
    the first trial to complete. *)
Theorem main_on_an_empty_ledger_depends_on_the_backend
  (rng : Type) (randint : Z -> Z -> rng -> Z * rng)
  (or_solve : SimpleMinCostFlow -> Status * list Z)
  (nx_solve : DiGraph -> nat -> nat -> list Z)
  (py_int : string -> option Z) (lower : string -> string)
  (open_csv : string -> option (list (list string)))
  (Hcomplete : or_complete or_solve)
  (argv : list string) (filename : string) (n : Z)
  (lines : list (list string)) (env : PoolEnv rng) :
  nth_error argv 1 = Some filename -> trials_of py_int argv = Done n ->
  open_csv filename = Some lines -> read_cashouts py_int lines = Done [] ->
  1 <= n -> (1 <= cpu_count env)%nat ->
  valid_schedule env (task_count (Z.to_nat n) (cpu_count env)) ->
  main randint or_solve nx_solve py_int lower open_csv true argv env
  = (["<pre>"%string; "</pre>"%string], None)
  /\ main randint or_solve nx_solve py_int lower open_csv false argv env
     = ([], Some (Exn NetworkXError)).
Proof.
  intros Hargv Hn Hopen Hread Hpos Hc Hvalid. split.
  - rewrite (@main_searches rng randint or_solve nx_solve py_int lower open_csv true
               argv filename n lines [] env Hargv Hn Hopen Hread).
    change (map snd (@nil (string * Z))) with (@nil Z).
    destruct (@or_search_settles rng randint or_solve [] (Z.to_nat n) env
                Hcomplete eq_refl ltac:(lia) Hc Hvalid) as [s Hs].
    rewrite Hs. apply find_best_settlement_origin in Hs.
    destruct Hs as [t [g [g' Hs]]]. apply or_trial_without_players in Hs.
    subst s. reflexivity.
  - rewrite (@main_searches rng randint or_solve nx_solve py_int lower open_csv false
               argv filename n lines [] env Hargv Hn Hopen Hread).
    change (map snd (@nil (string * Z))) with (@nil Z).
    destruct (@search_raises rng (fun e => e = NetworkXError)
                (find_settlement_nx randint nx_solve) [] (Z.to_nat n) env)
      as [e [He ->]]; [| lia | exact Hc | exact Hvalid |].
    + intros t g. exists NetworkXError, g. split; reflexivity.
    + rewrite He. reflexivity.
Qed.

Example main_on_an_empty_ledger_depends_on_the_backend_witness :
  main tape_randint brute_or_solve brute_nx_solve dec_int ascii_lower
    (fun _ => Some [["Venmo"; "Balance"]; ["Total"; "n/a"]]%string)
    true ["settle_balances.py"; "ledger.csv"]%string (serial_env 1 [7; 4])
  = (["<pre>"%string; "</pre>"%string], None)
  /\ main tape_randint brute_or_solve brute_nx_solve dec_int ascii_lower
       (fun _ => Some [["Venmo"; "Balance"]; ["Total"; "n/a"]]%string)
       false ["settle_balances.py"; "ledger.csv"]%string (serial_env 1 [7; 4])
     = ([], Some (Exn NetworkXError)).
Proof.
  refine (@main_on_an_empty_ledger_depends_on_the_backend (list Z)
            tape_randint brute_or_solve brute_nx_solve dec_int ascii_lower
            (fun _ => Some [["Venmo"; "Balance"]; ["Total"; "n/a"]]%string)
            brute_or_complete
            ["settle_balances.py"; "ledger.csv"]%string "ledger.csv"%string 1001
            [["Venmo"; "Balance"]; ["Total"; "n/a"]]%string
            (serial_env 1 [7; 4]) _ _ _ _ _ _ _).
  - reflexivity.
  - reflexivity.
  - reflexivity.
  - vm_compute. reflexivity.
  - lia.
  - simpl. lia.
  - split; [|repeat constructor]. vm_compute. apply Permutation_refl.
Defined.
